(** * Case Scribe alignment service: a shallow embedding of
    [alignment_service/main.py] and the properties of its alignment,
    classification, lexical flagging, correction and summary stages.

    Python values are modelled as follows.
    - [str] is a sequence of Unicode code points: [list N].
    - [int] values that the program only counts upwards from zero (indices,
      lengths, the line and column counters) are [nat].
    - [float] is the binary64 type of the interpreter: [PrimFloat.float];
      the literals [0.95], [0.8], [0.75], [0.7] denote the same doubles.
    - a [dict] is a [gmap]; a list used as a stack is a list whose head is
      the last element of the Python list.
    - an exception ([IndexError]) or an exhausted iteration budget is [None]
      in the [option] monad. *)

From Stdlib Require Import String Ascii NArith Floats Lia.
From stdpp Require Import gmap list sorting.

Set Warnings "-inexact-float".

(* ===================================================================== *)
(** * Part I: the program *)
(* ===================================================================== *)

(** ** Python strings *)

(** A string literal of the source, as its code points. *)
Definition lit (s : string) : list N :=
  (λ c, N_of_ascii c) <$> list_ascii_of_string s.

(** [sep.join(parts)] *)
Fixpoint str_join (sep : list N) (parts : list (list N)) : list N :=
  match parts with
  | [] => []
  | [p] => p
  | p :: ps => p ++ sep ++ str_join sep ps
  end.

(** [s or d]: the empty string is falsy. *)
Definition str_or (s d : list N) : list N :=
  match s with
  | [] => d
  | _ :: _ => s
  end.

(** [s.startswith(p)] *)
Fixpoint startswith (p s : list N) : bool :=
  match p, s with
  | [], _ => true
  | _ :: _, [] => false
  | x :: p', y :: s' => bool_decide (x = y) && startswith p' s'
  end.

(** [p in s]: [p] occurs at some offset of [s]. *)
Fixpoint str_contains (p s : list N) : bool :=
  startswith p s ||
  match s with
  | [] => false
  | _ :: s' => str_contains p s'
  end.

(** [s.replace(old, new)] for a non-empty [old]: a left-to-right scan that
    replaces every non-overlapping occurrence.  [skip] counts the characters
    of a matched occurrence that are still to be passed over. *)
Fixpoint replace_scan (old new : list N) (skip : nat) (s : list N) : list N :=
  match s with
  | [] => []
  | c :: s' =>
      match skip with
      | S k => replace_scan old new k s'
      | 0 =>
          if startswith old s
          then new ++ replace_scan old new (length old - 1) s'
          else c :: replace_scan old new 0 s'
      end
  end.

(** [s.replace(old, new)]; an empty [old] matches before every character
    and at the end. *)
Definition str_replace (old new s : list N) : list N :=
  match old with
  | [] => new ++ flat_map (λ c, c :: new) s
  | _ :: _ => replace_scan old new 0 s
  end.

(** [l[i1:i2]] for non-negative bounds. *)
Definition slice {X} (l : list X) (i1 i2 : nat) : list X :=
  take (i2 - i1) (drop i1 l).

(** ** The response records *)

Record ErrorItem := {
  line : nat;
  column : nat;
  original : list N;
  suggested : list N;
  confidence : float;
  type : list N
}.

Record Summary := {
  totalErrors : nat;
  byType : gmap (list N) nat;
  confidenceScore : float;
  processingTime : float
}.

Record Analysis := {
  errors : list ErrorItem;
  summary : Summary
}.

(** ** [difflib.SequenceMatcher(a=..., b=...)]

    [_align_stub] builds the matcher with the defaults [isjunk=None] and
    [autojunk=True] and asks for its opcodes.  The definitions follow
    CPython's [difflib.py]: [__chain_b], [find_longest_match],
    [get_matching_blocks] and [get_opcodes]. *)

(** The opcode tags ['replace'], ['delete'], ['insert'], ['equal']. *)
Inductive Tag := Replace | Delete | Insert | Equal.

#[global] Instance Tag_eq_dec : EqDecision Tag.
Proof. solve_decision. Defined.

(** [Match(a, b, size)], a named tuple. *)
Abbreviation Match := (nat * nat * nat)%type (only parsing).
(** [(tag, i1, i2, j1, j2)] *)
Abbreviation Opcode := (Tag * nat * nat * nat * nat)%type (only parsing).

Definition op_tag (op : Opcode) : Tag := op.1.1.1.1.
Definition op_i1 (op : Opcode) : nat := op.1.1.1.2.
Definition op_i2 (op : Opcode) : nat := op.1.1.2.
Definition op_j1 (op : Opcode) : nat := op.1.2.
Definition op_j2 (op : Opcode) : nat := op.2.

(** Tuples compare lexicographically; this is the order of [list.sort]. *)
Definition Match_le (x y : Match) : Prop :=
  let '(i1, j1, k1) := x in
  let '(i2, j2, k2) := y in
  i1 < i2 ∨ (i1 = i2 ∧ (j1 < j2 ∨ (j1 = j2 ∧ k1 ≤ k2))).

#[global] Instance Match_le_dec : RelDecision Match_le.
Proof. intros [[i1 j1] k1] [[i2 j2] k2]; unfold Match_le; apply _. Defined.

Section SequenceMatcher.
Context `{Countable A}.
Variables a b : list A.

(** *** [__chain_b] *)

(** One turn of [for i, elt in enumerate(b)]:
    [b2j.setdefault(elt, []).append(i)]. *)
Definition chain_step (b2j : gmap A (list nat)) (p : nat * A) : gmap A (list nat) :=
  <[p.2 := default [] (b2j !! p.2) ++ [p.1]]> b2j.

Definition b2j_full : gmap A (list nat) :=
  foldl chain_step ∅ (imap pair b).

(** [isjunk] is [None], so [bjunk] stays empty. *)
Definition bjunk : gset A := ∅.
Definition isbjunk (x : A) : bool := bool_decide (x ∈ bjunk).

(** With [autojunk] and [len(b) >= 200], every element with more than
    [n // 100 + 1] occurrences is popular and is deleted from [b2j]. *)
Definition b2j : gmap A (list nat) :=
  let n := length b in
  if bool_decide (200 ≤ n) then
    let ntest := n `div` 100 + 1 in
    filter (λ p, ¬ ntest < length p.2) b2j_full
  else b2j_full.

(** *** [find_longest_match] *)

(** [j2lenget(j-1, 0)]: the keys of [j2len] are indices of [b], so the key
    [-1] (for [j = 0]) is never present. *)
Definition j2lenget_pred (j2len : gmap nat nat) (j : nat) : nat :=
  match j with
  | 0 => 0
  | S j' => default 0 (j2len !! j')
  end.

(** The loop [for j in b2j.get(a[i], nothing)], with its [continue] and
    [break].  [k] never exceeds [i - alo + 1] nor [j - blo + 1], so the
    truncated subtractions are the integer ones. *)
Fixpoint row_loop (blo bhi i : nat) (j2len : gmap nat nat) (js : list nat)
    (best : Match) (newj2len : gmap nat nat) : Match * gmap nat nat :=
  match js with
  | [] => (best, newj2len)
  | j :: js' =>
      if bool_decide (j < blo) then row_loop blo bhi i j2len js' best newj2len
      else if bool_decide (bhi ≤ j) then (best, newj2len)
      else
        let k := j2lenget_pred j2len j + 1 in
        let newj2len' := <[j := k]> newj2len in
        let best' :=
          if bool_decide (best.2 < k) then (i + 1 - k, j + 1 - k, k) else best in
        row_loop blo bhi i j2len js' best' newj2len'
  end.

(** One turn of [for i in range(alo, ahi)]. *)
Definition dp_step (blo bhi : nat) (st : option (Match * gmap nat nat)) (i : nat)
    : option (Match * gmap nat nat) :=
  s ← st;
  x ← a !! i;
  Some (row_loop blo bhi i s.2 (default [] (b2j !! x)) s.1 ∅).

Definition dp_loop (alo ahi blo bhi : nat) : option (Match * gmap nat nat) :=
  foldl (dp_step blo bhi) (Some ((alo, blo, 0), ∅)) (seq alo (ahi - alo)).

(** The two loops that grow the block to the left; [junk] tells whether the
    loop accepts junk elements of [b] (the second pair of loops) or
    non-junk ones (the first pair).  Recursion is on [besti], which the
    loop decrements. *)
Fixpoint extend_left (junk : bool) (alo blo besti bestj bestsize : nat) : option Match :=
  match besti with
  | 0 => Some (besti, bestj, bestsize)
  | S i' =>
      if bool_decide (alo < besti) && bool_decide (blo < bestj) then
        y ← b !! (bestj - 1);
        if bool_decide (isbjunk y = junk) then
          x ← a !! i';
          if bool_decide (x = y)
          then extend_left junk alo blo i' (bestj - 1) (bestsize + 1)
          else Some (besti, bestj, bestsize)
        else Some (besti, bestj, bestsize)
      else Some (besti, bestj, bestsize)
  end.

(** The two loops that grow the block to the right.  [gap] is
    [ahi - (besti + bestsize)]: the test [besti+bestsize < ahi] is
    [gap > 0], and [bestsize += 1] decrements it. *)
Fixpoint extend_right (junk : bool) (bhi besti bestj gap bestsize : nat) : option Match :=
  match gap with
  | 0 => Some (besti, bestj, bestsize)
  | S gap' =>
      if bool_decide (bestj + bestsize < bhi) then
        y ← b !! (bestj + bestsize);
        if bool_decide (isbjunk y = junk) then
          x ← a !! (besti + bestsize);
          if bool_decide (x = y)
          then extend_right junk bhi besti bestj gap' (bestsize + 1)
          else Some (besti, bestj, bestsize)
        else Some (besti, bestj, bestsize)
      else Some (besti, bestj, bestsize)
  end.

Definition extend (junk : bool) (alo ahi blo bhi : nat) (m : Match) : option Match :=
  m1 ← extend_left junk alo blo m.1.1 m.1.2 m.2;
  extend_right junk bhi m1.1.1 m1.1.2 (ahi - (m1.1.1 + m1.2)) m1.2.

Definition find_longest_match (alo ahi blo bhi : nat) : option Match :=
  s ← dp_loop alo ahi blo bhi;
  m ← extend false alo ahi blo bhi s.1;
  extend true alo ahi blo bhi m.

(** *** [get_matching_blocks] *)

(** The [while queue] loop.  The head of [queue] is the entry that
    [queue.pop()] takes.  [fuel] bounds the number of turns. *)
Fixpoint blocks_loop (fuel : nat) (queue : list (nat * nat * nat * nat))
    (matching_blocks : list Match) : option (list Match) :=
  match queue with
  | [] => Some matching_blocks
  | (alo, ahi, blo, bhi) :: queue' =>
      match fuel with
      | 0 => None
      | S fuel' =>
          x ← find_longest_match alo ahi blo bhi;
          let '(i, j, k) := x in
          if bool_decide (k = 0) then blocks_loop fuel' queue' matching_blocks
          else
            let q1 :=
              if bool_decide (alo < i) && bool_decide (blo < j)
              then (alo, i, blo, j) :: queue' else queue' in
            let q2 :=
              if bool_decide (i + k < ahi) && bool_decide (j + k < bhi)
              then (i + k, ahi, j + k, bhi) :: q1 else q1 in
            blocks_loop fuel' q2 (matching_blocks ++ [x])
      end
  end.

(** One turn of the loop that merges adjacent blocks; the state is
    [(i1, j1, k1)] and [non_adjacent]. *)
Definition merge_step (st : Match * list Match) (m : Match) : Match * list Match :=
  let '((i1, j1, k1), non_adjacent) := st in
  let '(i2, j2, k2) := m in
  if bool_decide (i1 + k1 = i2) && bool_decide (j1 + k1 = j2)
  then ((i1, j1, k1 + k2), non_adjacent)
  else ((i2, j2, k2),
        if bool_decide (k1 = 0) then non_adjacent else non_adjacent ++ [(i1, j1, k1)]).

Definition merge_adjacent (matching_blocks : list Match) : list Match :=
  let '((i1, j1, k1), non_adjacent) :=
    foldl merge_step ((0, 0, 0), []) matching_blocks in
  if bool_decide (k1 = 0) then non_adjacent else non_adjacent ++ [(i1, j1, k1)].

Definition get_matching_blocks : option (list Match) :=
  let la := length a in
  let lb := length b in
  matching_blocks ← blocks_loop (S (2 * la)) [(0, la, 0, lb)] [];
  Some (merge_adjacent (merge_sort Match_le matching_blocks) ++ [(la, lb, 0)]).

(** *** [get_opcodes] *)

(** One turn of the loop over the matching blocks; the state is
    [(i, j)] and [answer]. *)
Definition opcode_step (st : nat * nat * list Opcode) (m : Match)
    : nat * nat * list Opcode :=
  let '(i, j, answer) := st in
  let '(ai, bj, size) := m in
  let tag :=
    if bool_decide (i < ai) && bool_decide (j < bj) then Some Replace
    else if bool_decide (i < ai) then Some Delete
    else if bool_decide (j < bj) then Some Insert
    else None in
  let answer1 :=
    match tag with
    | Some t => answer ++ [(t, i, ai, j, bj)]
    | None => answer
    end in
  let answer2 :=
    if bool_decide (size = 0) then answer1
    else answer1 ++ [(Equal, ai, ai + size, bj, bj + size)] in
  (ai + size, bj + size, answer2).

Definition opcodes_of (blocks : list Match) : list Opcode :=
  (foldl opcode_step (0, 0, []) blocks).2.

Definition get_opcodes : option (list Opcode) :=
  opcodes_of <$> get_matching_blocks.

End SequenceMatcher.

(** ** The engine of [main.py] *)

(** The fixed strings of the source. *)
Definition audio_mismatch : list N := lit "audio_mismatch".
Definition spelling : list N := lit "spelling".
Definition missing : list N := lit "(missing)".
Definition remove : list N := lit "(remove)".
Definition space : list N := lit " ".

Section Engine.
(** The Unicode tables of the interpreter: the character classes [\w]
    and [\s] of [re] (with [re.UNICODE]) and [str.lower]. *)
Variable is_word : N → bool.
Variable is_space : N → bool.
Variable lower : list N → list N.

(** The run of word characters read so far becomes a token, if there is
    one. *)
Definition flush (cur : list N) : list (list N) :=
  match cur with
  | [] => []
  | _ :: _ => [cur]
  end.

(** [re.findall(r"\w+|[^\w\s]", text, re.UNICODE)]: at each position the
    first alternative takes the longest run of word characters, the
    second one character that is neither word nor space, and any other
    character is passed over.  [cur] is the run being read. *)
Fixpoint findall (cur : list N) (text : list N) : list (list N) :=
  match text with
  | [] => flush cur
  | c :: rest =>
      if is_word c then findall (cur ++ [c]) rest
      else flush cur ++ (if is_space c then [] else [[c]]) ++ findall [] rest
  end.

Definition _tokenize (text : list N) : list (list N) := findall [] text.

(** One turn of [for tag, i1, i2, j1, j2 in sm.get_opcodes()]; the state
    is [errors] and [col], and [line] stays 1. *)
Definition classify_step (t_tokens a_tokens : list (list N))
    (st : list ErrorItem * nat) (op : Opcode) : list ErrorItem * nat :=
  let '(errors, col) := st in
  let '(tag, i1, i2, j1, j2) := op in
  match tag with
  | Replace | Delete =>
      let original := take 80 (str_join space (slice t_tokens i1 i2)) in
      let suggested := take 80 (str_join space (slice a_tokens j1 j2)) in
      (errors ++ [{| line := 1; column := col;
                     original := str_or original missing;
                     suggested := str_or suggested remove;
                     confidence := 0.75;
                     type := audio_mismatch |}], col + 1)
  | Insert =>
      let suggested := take 80 (str_join space (slice a_tokens j1 j2)) in
      (errors ++ [{| line := 1; column := col;
                     original := missing;
                     suggested := suggested;
                     confidence := 0.7;
                     type := audio_mismatch |}], col + 1)
  | Equal => (errors, col)
  end.

Definition classify (t_tokens a_tokens : list (list N)) (ops : list Opcode)
    : list ErrorItem :=
  (foldl (classify_step t_tokens a_tokens) ([], 1) ops).1.

(** The opcodes that [_align_stub] iterates over. *)
Definition align_opcodes (transcript_text audio_text : list N) : option (list Opcode) :=
  get_opcodes (_tokenize (lower transcript_text)) (_tokenize (lower audio_text)).

Definition _align_stub (transcript_text audio_text : list N) : option (list ErrorItem) :=
  let t_tokens := _tokenize (lower transcript_text) in
  let a_tokens := _tokenize (lower audio_text) in
  classify t_tokens a_tokens <$> get_opcodes t_tokens a_tokens.
End Engine.

(** The known-error table of [_grammar_spell_flags]. *)
Definition known_errors : list (list N * list N) :=
  [(lit "councelor", lit "counselor"); (lit "inadmissable", lit "inadmissible")].

Definition _grammar_spell_flags (transcript_text : list N) : list ErrorItem :=
  foldl (λ suspicious p,
           if str_contains p.1 transcript_text
           then suspicious ++ [{| line := 1; column := 1;
                                  original := p.1; suggested := p.2;
                                  confidence := 0.95; type := spelling |}]
           else suspicious)
        [] known_errors.

(** The summary block of [align_endpoint]. *)
Definition count_step (by_type : gmap (list N) nat) (e : ErrorItem) : gmap (list N) nat :=
  <[type e := default 0 (by_type !! type e) + 1]> by_type.

Definition summarize (errors : list ErrorItem) : Summary :=
  {| totalErrors := length errors;
     byType := foldl count_step ∅ errors;
     confidenceScore := match errors with [] => 0.95 | _ :: _ => 0.8 end;
     processingTime := 7.2 |}.

(** The corrected transcript of [align_endpoint]. *)
Definition corrected (transcript_text : list N) : list N :=
  str_replace (lit "inadmissable") (lit "inadmissible")
    (str_replace (lit "councelor") (lit "counselor") transcript_text).

Section Endpoint.
Variable is_word : N → bool.
Variable is_space : N → bool.
Variable lower : list N → list N.

(** Steps 3 and 4 of [align_endpoint], from the transcript and the
    transcribed audio to the analysis and the corrected transcript. *)
Definition align_analysis (transcript_text audio_text : list N)
    : option (Analysis * list N) :=
  errors0 ← _align_stub is_word is_space lower transcript_text audio_text;
  let errors := errors0 ++ _grammar_spell_flags transcript_text in
  Some ({| errors := errors; summary := summarize errors |},
        corrected transcript_text).
End Endpoint.

(** ** The Unicode tables on ASCII text

    The restriction of the interpreter's tables to the code points below
    128; the closed examples below use ASCII text only.  Code points from
    128 on are left unclassified and unchanged. *)
Definition ascii_word (c : N) : bool :=
  ((48 <=? c) && (c <=? 57) || (65 <=? c) && (c <=? 90) ||
   (97 <=? c) && (c <=? 122) || (c =? 95))%N.

Definition ascii_space (c : N) : bool :=
  ((9 <=? c) && (c <=? 13) || (28 <=? c) && (c <=? 32))%N.

Definition ascii_lower (s : list N) : list N :=
  (λ c, if ((65 <=? c) && (c <=? 90))%N then (c + 32)%N else c) <$> s.

(** ** The request handler and the downloads

    The rest of [align_endpoint] and [build_docx].  Bytes are [list N] with
    every element below 256.  An uncaught exception of the handler is
    [None], as before. *)

(** [s.strip()]: the longest runs of white space at both ends are dropped.
    The interpreter tests [Py_UNICODE_ISSPACE], the table behind [\s]. *)
Section Strip.
Variable is_space : N → bool.

Fixpoint lstrip (s : list N) : list N :=
  match s with
  | [] => []
  | c :: s' => if is_space c then lstrip s' else s
  end.

Definition rstrip (s : list N) : list N := reverse (lstrip (reverse s)).

Definition strip (s : list N) : list N := rstrip (lstrip s).
End Strip.

(** [s.split(sep)] for a non-empty [sep]: a left-to-right scan that cuts at
    every non-overlapping occurrence.  [cur] is the part being read and
    [skip] counts the characters of a matched separator that are still to
    be passed over. *)
Fixpoint split_scan (sep : list N) (skip : nat) (cur s : list N) : list (list N) :=
  match s with
  | [] => [cur]
  | c :: s' =>
      match skip with
      | S k => split_scan sep k cur s'
      | 0 =>
          if startswith sep s
          then cur :: split_scan sep (length sep - 1) [] s'
          else split_scan sep 0 (cur ++ [c]) s'
      end
  end.

(** [s.split(sep)]; an empty separator raises [ValueError]. *)
Definition str_split (sep s : list N) : option (list (list N)) :=
  match sep with
  | [] => None
  | _ :: _ => Some (split_scan sep 0 [] s)
  end.

(** The separator of [build_docx]: two line feeds. *)
Definition blank_line : list N := [10; 10]%N.

(** [s.encode('utf-8')]: one to four bytes for each code point; a
    surrogate raises [UnicodeEncodeError].  A number from [0x110000] on is
    not a code point of a [str]. *)
Definition utf8_encode_char (c : N) : option (list N) :=
  (if c <? 0x80 then Some [c]
   else if c <? 0x800 then
     Some [N.lor 0xC0 (N.shiftr c 6); N.lor 0x80 (N.land c 0x3F)]
   else if c <? 0x10000 then
     if (0xD800 <=? c) && (c <=? 0xDFFF) then None
     else Some [N.lor 0xE0 (N.shiftr c 12);
                N.lor 0x80 (N.land (N.shiftr c 6) 0x3F);
                N.lor 0x80 (N.land c 0x3F)]
   else if c <? 0x110000 then
     Some [N.lor 0xF0 (N.shiftr c 18);
           N.lor 0x80 (N.land (N.shiftr c 12) 0x3F);
           N.lor 0x80 (N.land (N.shiftr c 6) 0x3F);
           N.lor 0x80 (N.land c 0x3F)]
   else None)%N.

Fixpoint utf8_encode (s : list N) : option (list N) :=
  match s with
  | [] => Some []
  | c :: s' =>
      bs ← utf8_encode_char c;
      rest ← utf8_encode s';
      Some (bs ++ rest)
  end.

(** The alphabet of [base64.b64encode] and its padding character. *)
Definition table_b2a_base64 : list N :=
  lit "ABCDEFGHIJKLMNOPQRSTUVWXYZabcdefghijklmnopqrstuvwxyz0123456789+/".

Definition b64_char (v : N) : N := default 0%N (table_b2a_base64 !! N.to_nat v).

Definition b64_pad : N := 61%N.

(** [base64.b64encode(bs)]: three bytes become four characters; one or two
    bytes left at the end are padded. *)
Fixpoint b64encode (bs : list N) : list N :=
  match bs with
  | [] => []
  | [b0] =>
      [b64_char (N.shiftr b0 2);
       b64_char (N.shiftl (N.land b0 3) 4);
       b64_pad; b64_pad]
  | [b0; b1] =>
      [b64_char (N.shiftr b0 2);
       b64_char (N.lor (N.shiftl (N.land b0 3) 4) (N.shiftr b1 4));
       b64_char (N.shiftl (N.land b1 15) 2);
       b64_pad]
  | b0 :: b1 :: b2 :: rest =>
      b64_char (N.shiftr b0 2) ::
      b64_char (N.lor (N.shiftl (N.land b0 3) 4) (N.shiftr b1 4)) ::
      b64_char (N.lor (N.shiftl (N.land b1 15) 2) (N.shiftr b2 6)) ::
      b64_char (N.land b2 63) ::
      b64encode rest
  end.

(** [bs.decode('ascii')]: a byte from 128 on raises [UnicodeDecodeError]. *)
Definition ascii_decode (bs : list N) : option (list N) :=
  if forallb (λ b, b <? 128)%N bs then Some bs else None.

(** The body of the reply of [align_endpoint]. *)
Record Downloads := {
  txt_base64 : list N;
  docx_base64 : list N;
  filename_txt : list N;
  filename_docx : list N
}.

Record Response := {
  analysis : Analysis;
  correctedTranscript : list N;
  downloads : Downloads
}.

(** A reply is the 400 response with its error message, or the 200
    response with its body. *)
Inductive Reply :=
  | BadRequest (error : list N)
  | Ok (body : Response).

Section Service.
(** The Unicode tables of the interpreter. *)
Variable is_word : N → bool.
Variable is_space : N → bool.
Variable lower : list N → list N.

(** The libraries the handler calls.  [Upload] is the content of an
    uploaded file. *)
Context {Upload : Type}.
(** [raw.decode('utf-8', errors='ignore')] *)
Variable decode_ignore : Upload → list N.
(** [striprtf.rtf_to_text]; [None] when it raises. *)
Variable rtf_to_text : list N → option (list N).
(** Whether [faster_whisper] could be imported. *)
Variable USE_WHISPER : bool.
(** The [words] list that the [try] block collects from the model of the
    given size run on the audio; [None] when anything in the block
    raises. *)
Variable whisper_words : list N → Upload → option (list (list N)).
(** The bytes that [python-docx] saves for a document in Calibri 11 pt
    with the given paragraphs; [None] when the library raises. *)
Variable docx_save : list (list N) → option (list N).

(** [build_docx] *)
Definition build_docx (corrected_text : list N) : option (list N) :=
  paragraphs ← str_split blank_line corrected_text;
  docx_save paragraphs.

(** Step 1 of [align_endpoint]: the transcript text before [strip], or
    [None] where the handler returns the 400 response.  An empty
    [plain_text] is falsy. *)
Definition load_transcript (rtf_file : option Upload) (plain_text : option (list N))
    : option (list N) :=
  match rtf_file with
  | Some raw =>
      match rtf_to_text (decode_ignore raw) with
      | Some text => Some text
      | None => Some (decode_ignore raw)
      end
  | None =>
      match plain_text with
      | Some (c :: text) => Some (c :: text)
      | _ => None
      end
  end.

(** Step 2 of [align_endpoint]: the text heard in the audio. *)
Definition transcribe (audio_bytes : Upload) (whisper_model_size : list N) : list N :=
  if USE_WHISPER then
    match whisper_words whisper_model_size audio_bytes with
    | Some words => strip is_space (str_join space words)
    | None => []
    end
  else [].

(** [align_endpoint] *)
Definition align_endpoint (rtf_file : option Upload) (audio_file : Upload)
    (plain_text : option (list N)) (whisper_model_size : list N) : option Reply :=
  match load_transcript rtf_file plain_text with
  | None => Some (BadRequest (lit "No transcript provided (rtf_file or plain_text)."))
  | Some text =>
      let transcript_text := strip is_space text in
      let audio_text := transcribe audio_file whisper_model_size in
      r ← align_analysis is_word is_space lower transcript_text audio_text;
      txt_bytes ← utf8_encode r.2;
      docx_bytes ← build_docx r.2;
      txt ← ascii_decode (b64encode txt_bytes);
      docx ← ascii_decode (b64encode docx_bytes);
      Some (Ok {| analysis := r.1;
                  correctedTranscript := r.2;
                  downloads :=
                    {| txt_base64 := txt;
                       docx_base64 := docx;
                       filename_txt := lit "corrected_transcript.txt";
                       filename_docx := lit "corrected_transcript.docx" |} |})
  end.
End Service.

(* ===================================================================== *)
(** * Part II: the vocabulary of the properties *)
(* ===================================================================== *)

(** ** Lexical flagging *)

(** The discrepancy that the lexical pass emits for a table entry. *)
Definition spelling_item (bad good : list N) : ErrorItem :=
  {| line := 1; column := 1; original := bad; suggested := good;
     confidence := 0.95; type := spelling |}.

(** The lexical pass as the specification words it: one discrepancy for
    each table entry whose error form occurs in the text. *)
Definition flag_entry (text : list N) (p : list N * list N) : list ErrorItem :=
  if str_contains p.1 text then [spelling_item p.1 p.2] else [].

(** ** Classification *)

Section ClassifySpec.
Variables t_tokens a_tokens : list (list N).

(** The discrepancy of a non-Equal opcode as the specification words it,
    still waiting for its column. *)
Definition discrepancy_of (op : Opcode) : option (nat → ErrorItem) :=
  let original := take 80 (str_join space (slice t_tokens (op_i1 op) (op_i2 op))) in
  let suggested := take 80 (str_join space (slice a_tokens (op_j1 op) (op_j2 op))) in
  match op_tag op with
  | Replace | Delete =>
      Some (λ col, {| line := 1; column := col;
                      original := if decide (original = []) then missing else original;
                      suggested := if decide (suggested = []) then remove else suggested;
                      confidence := 0.75; type := audio_mismatch |})
  | Insert =>
      Some (λ col, {| line := 1; column := col;
                      original := missing; suggested := suggested;
                      confidence := 0.70; type := audio_mismatch |})
  | Equal => None
  end.

(** One discrepancy per non-Equal opcode, in opcode order; the column is
    1 plus the number of discrepancies emitted before. *)
Definition classify_spec (ops : list Opcode) : list ErrorItem :=
  imap (λ n f, f (1 + n)) (omap discrepancy_of ops).
End ClassifySpec.

(** The number of non-Equal opcodes. *)
Definition non_equal (ops : list Opcode) : nat :=
  length (filter (λ op, op_tag op ≠ Equal) ops).

(** ** Summary *)

(** [sum(by_type.values())] *)
Definition sum_values (m : gmap (list N) nat) : nat :=
  map_fold (λ _ v acc, v + acc) 0 m.

(** The number of discrepancies of kind [k]. *)
Definition occurrences (k : list N) (errs : list ErrorItem) : nat :=
  length (filter (λ e, type e = k) errs).

(** ** Blocks and opcode sequences *)

Section BlockSpec.
Context {A : Type}.
Variables a b : list A.

(** [a[i:i+k] == b[j:j+k]], element by element. *)
Definition block_eq (i j k : nat) : Prop :=
  ∀ t, t < k → a !! (i + t) = b !! (j + t).

(** A block inside the window [alo:ahi] of [a] and [blo:bhi] of [b]. *)
Definition block_ok (alo ahi blo bhi : nat) (m : Match) : Prop :=
  alo ≤ m.1.1 ∧ m.1.1 + m.2 ≤ ahi ∧ blo ≤ m.1.2 ∧ m.1.2 + m.2 ≤ bhi ∧
  block_eq m.1.1 m.1.2 m.2.

End BlockSpec.

(** The opcodes tile the two sides from [(i, j)] to [(i', j')]: each opcode
    starts where the one before ended, on both sides, its ranges run
    forward, and the last one ends at [(i', j')]. *)
Fixpoint tiles (ops : list Opcode) (i j i' j' : nat) : Prop :=
  match ops with
  | [] => i = i' ∧ j = j'
  | op :: ops' =>
      op_i1 op = i ∧ op_j1 op = j ∧ i ≤ op_i2 op ∧ j ≤ op_j2 op ∧
      tiles ops' (op_i2 op) (op_j2 op) i' j'
  end.

(** The number of tokens in the Equal ranges. *)
Definition matched (ops : list Opcode) : nat :=
  sum_list ((λ op, if decide (op_tag op = Equal) then op_i2 op - op_i1 op else 0) <$> ops).



(** ** Longest common subsequences *)

Section LCSSpec.
Context `{EqDecision A}.

End LCSSpec.

(** ** Tokens *)

Section TokenSpec.
Variables is_word is_space : N → bool.

(** What the pattern [\w+|[^\w\s]] can match: a non-empty run of word
    characters, or one character that is neither word nor space. *)
Definition token (t : list N) : Prop :=
  (t ≠ [] ∧ Forall (λ c, is_word c = true) t) ∨
  (∃ c, t = [c] ∧ is_word c = false ∧ is_space c = false).

(** The characters that end up in some token: all but the white space
    that is not a word character. *)
Definition kept (c : N) : bool := is_word c || negb (is_space c).
End TokenSpec.

(** ** The shape of an opcode list *)

Definition is_equal (op : Opcode) : bool :=
  match op_tag op with
  | Equal => true
  | _ => false
  end.

(** Equal and non-Equal opcodes take turns; [prev] tells whether the
    opcode before the list was Equal, if there was one. *)
Fixpoint alternates_after (prev : option bool) (ops : list Opcode) : Prop :=
  match ops with
  | [] => True
  | op :: ops' => prev ≠ Some (is_equal op) ∧ alternates_after (Some (is_equal op)) ops'
  end.

Definition alternates (ops : list Opcode) : Prop := alternates_after None ops.

(** The number of Equal opcodes. *)
Definition equal_ops (ops : list Opcode) : nat :=
  length (filter (λ op, op_tag op = Equal) ops).

(** ** Reading the downloads back

    The strict decoders that a client of the service applies to the
    downloads: RFC 4648 base64 and RFC 3629 UTF-8.  [None] is invalid
    input. *)

(** The value of a base64 character: its index in the alphabet. *)
Definition b64_value (c : N) : option N :=
  (λ r : nat * N, N.of_nat r.1) <$> list_find (λ x, x = c) table_b2a_base64.

Fixpoint b64decode (cs : list N) : option (list N) :=
  match cs with
  | [] => Some []
  | c0 :: c1 :: c2 :: c3 :: rest =>
      match b64_value c0, b64_value c1 with
      | Some v0, Some v1 =>
          let b0 := N.lor (N.shiftl v0 2) (N.shiftr v1 4) in
          if decide (c2 = b64_pad) then
            if decide (c3 = b64_pad ∧ rest = []) then Some [b0] else None
          else
            match b64_value c2 with
            | Some v2 =>
                let b1 := N.lor (N.shiftl (N.land v1 15) 4) (N.shiftr v2 2) in
                if decide (c3 = b64_pad) then
                  if decide (rest = []) then Some [b0; b1] else None
                else
                  match b64_value c3 with
                  | Some v3 =>
                      let b2 := N.lor (N.shiftl (N.land v2 3) 6) v3 in
                      match b64decode rest with
                      | Some bs => Some (b0 :: b1 :: b2 :: bs)
                      | None => None
                      end
                  | None => None
                  end
            | None => None
            end
      | _, _ => None
      end
  | _ => None
  end.

(** A continuation byte of UTF-8. *)
Definition utf8_cont (b : N) : bool := ((0x80 <=? b) && (b <=? 0xBF))%N.

Fixpoint utf8_decode (bs : list N) : option (list N) :=
  match bs with
  | [] => Some []
  | b0 :: r0 =>
      if (b0 <? 0x80)%N then cons b0 <$> utf8_decode r0
      else if (b0 <? 0xC0)%N then None
      else if (b0 <? 0xE0)%N then
        match r0 with
        | b1 :: r1 =>
            let c := N.lor (N.shiftl (N.land b0 0x1F) 6) (N.land b1 0x3F) in
            if utf8_cont b1 && (0x80 <=? c)%N
            then cons c <$> utf8_decode r1 else None
        | _ => None
        end
      else if (b0 <? 0xF0)%N then
        match r0 with
        | b1 :: b2 :: r2 =>
            let c := N.lor (N.shiftl (N.land b0 0x0F) 12)
                       (N.lor (N.shiftl (N.land b1 0x3F) 6) (N.land b2 0x3F)) in
            if utf8_cont b1 && utf8_cont b2 && (0x800 <=? c)%N &&
               negb ((0xD800 <=? c) && (c <=? 0xDFFF))%N
            then cons c <$> utf8_decode r2 else None
        | _ => None
        end
      else if (b0 <? 0xF8)%N then
        match r0 with
        | b1 :: b2 :: b3 :: r3 =>
            let c := N.lor (N.shiftl (N.land b0 0x07) 18)
                       (N.lor (N.shiftl (N.land b1 0x3F) 12)
                          (N.lor (N.shiftl (N.land b2 0x3F) 6) (N.land b3 0x3F))) in
            if utf8_cont b1 && utf8_cont b2 && utf8_cont b3 &&
               (0x10000 <=? c)%N && (c <? 0x110000)%N
            then cons c <$> utf8_decode r3 else None
        | _ => None
        end
      else None
  end.

(** A code point that UTF-8 can encode: below [0x110000] and no
    surrogate. *)
Definition scalar_value (c : N) : bool :=
  ((c <? 0x110000) && negb ((0xD800 <=? c) && (c <=? 0xDFFF)))%N.

(* ===================================================================== *)
(** * Part III: lemmas *)
(* ===================================================================== *)

(** ** Strings: prefixes, occurrences and replacement *)

Lemma startswith_spec (p s : list N) :
  startswith p s = true ↔ ∃ r, s = p ++ r.
Proof.
  revert s. induction p as [|x p IH]; intros s; simpl.
  - split; eauto.
  - destruct s as [|y s].
    + split; [done | intros [r Hr]; discriminate].
    + rewrite andb_true_iff, bool_decide_eq_true, IH. split.
      * intros [-> [r ->]]. eauto.
      * intros [r Hr]. injection Hr as -> ->. eauto.
Qed.

Lemma startswith_refl (p : list N) : startswith p p = true.
Proof. apply startswith_spec. exists []. by rewrite app_nil_r. Qed.

Lemma str_contains_spec (p s : list N) :
  str_contains p s = true ↔ ∃ t, t `suffix_of` s ∧ startswith p t = true.
Proof.
  induction s as [|c s IH]; simpl.
  - rewrite orb_false_r. split.
    + intros Hp. exists []. done.
    + intros (t & Ht & Hp). apply suffix_nil_inv in Ht. by subst.
  - rewrite orb_true_iff, IH. split.
    + intros [Hp | (t & Ht & Hp)].
      * exists (c :: s). done.
      * exists t. split; [by apply suffix_cons_r | done].
    + intros (t & [[|d k] Hk] & Hp); simpl in Hk.
      * left. by subst.
      * injection Hk as -> ->. right. exists t. split; [by exists k | done].
Qed.

(** Passing over [k] characters is dropping them. *)
Lemma replace_scan_skip (old new : list N) (k : nat) (s : list N) :
  replace_scan old new k s = replace_scan old new 0 (drop k s).
Proof.
  revert k. induction s as [|c s IH]; intros [|k]; simpl; done.
Qed.

Lemma str_replace_scan (old new s : list N) :
  old ≠ [] → str_replace old new s = replace_scan old new 0 s.
Proof. by destruct old. Qed.

(** The non-empty suffixes of a string, longest first. *)
Fixpoint tails_ne (s : list N) : list (list N) :=
  match s with
  | [] => []
  | _ :: s' => s :: tails_ne s'
  end.

(** One of the two strings is a prefix of the other. *)
Definition compatible (u v : list N) : bool := startswith u v || startswith v u.

(** No occurrence of [p] can start inside a copy of [new] and none can run
    from outside into a copy of [new]. *)
Definition no_overlap (p new : list N) : bool :=
  forallb (λ t, negb (compatible t p)) (tails_ne new) &&
  forallb (λ u, negb (compatible u new)) (tails_ne p).

Lemma tails_ne_self (s : list N) : s ≠ [] → s ∈ tails_ne s.
Proof. destruct s; [done | intros _; simpl; left]. Qed.

Lemma tails_ne_nonempty (u s : list N) : u ∈ tails_ne s → u ≠ [].
Proof.
  induction s as [|c s IH]; simpl; [by intros ?%elem_of_nil|].
  intros [-> | Hin]%elem_of_cons; [done | by apply IH].
Qed.

Lemma tails_ne_tail (c : N) (u p : list N) :
  c :: u ∈ tails_ne p → u ≠ [] → u ∈ tails_ne p.
Proof.
  induction p as [|x p IH]; simpl; [by intros ?%elem_of_nil|].
  intros Hin Hu. apply elem_of_cons in Hin as [Heq | Hin].
  - injection Heq as -> ->. right. by apply tails_ne_self.
  - right. by apply IH.
Qed.

Lemma startswith_app_compatible (u x y : list N) :
  startswith u (x ++ y) = true → compatible u x = true.
Proof.
  unfold compatible. revert x. induction u as [|c u IH]; intros x; simpl; [done|].
  destruct x as [|d x]; simpl.
  - done.
  - rewrite andb_true_iff, bool_decide_eq_true. intros [-> Hu].
    specialize (IH x Hu). rewrite !bool_decide_true by done. done.
Qed.

Lemma compatible_sym (u v : list N) : compatible u v = compatible v u.
Proof. unfold compatible. apply orb_comm. Qed.

Section Replace.
Variables p old new : list N.
Hypothesis Hold : old ≠ [].
Hypothesis Hp : p ≠ [].
Hypothesis Hno : no_overlap p new = true.

Lemma no_overlap_in_new (t : list N) :
  t ∈ tails_ne new → compatible t p = false.
Proof using Hno.
  intros Hin. apply andb_true_iff in Hno as [H1 _].
  rewrite forallb_forall in H1. apply negb_true_iff, H1.
  by apply list_elem_of_In.
Qed.

Lemma no_overlap_into_new (u : list N) :
  u ∈ tails_ne p → compatible u new = false.
Proof using Hno.
  intros Hin. apply andb_true_iff in Hno as [_ H2].
  rewrite forallb_forall in H2. apply negb_true_iff, H2.
  by apply list_elem_of_In.
Qed.

(** A suffix of [p] that the output starts with was copied from the
    input, at a position where [old] does not start. *)
Lemma startswith_replace_copied (u s : list N) :
  u ∈ tails_ne p →
  startswith u (replace_scan old new 0 s) = true →
  startswith u s = true ∧ startswith old s = false.
Proof using Hold Hno.
  revert u. induction s as [|c s IH]; intros u Hu; simpl.
  - destruct u; [by apply tails_ne_nonempty in Hu | done].
  - destruct (startswith old (c :: s)) eqn:Hst.
    + intros Hpre%startswith_app_compatible.
      by rewrite (no_overlap_into_new u Hu) in Hpre.
    + destruct u as [|d u]; [by apply tails_ne_nonempty in Hu|]. simpl.
      rewrite andb_true_iff, bool_decide_eq_true. intros [-> Hrest].
      rewrite bool_decide_true by done. split; [|done]. simpl.
      destruct u as [|e u]; [done|].
      apply (IH (e :: u)); [|done].
      by eapply tails_ne_tail.
Qed.

Lemma str_contains_app_inv (x y : list N) :
  str_contains p (x ++ y) = true →
  (∃ t, t ∈ tails_ne x ∧ startswith p (t ++ y) = true) ∨ str_contains p y = true.
Proof using Type.
  induction x as [|c x IH]; simpl; [by right|].
  rewrite orb_true_iff. intros [Hst | Hc].
  - left. exists (c :: x). split; [left | done].
  - destruct (IH Hc) as [(t & Ht & Hst) | Hy]; [left | by right].
    exists t. split; [by right | done].
Qed.

(** Every occurrence of [p] in the output is an occurrence in the input
    at which [old] does not start. *)
Lemma str_contains_replace_scan (k : nat) (s : list N) :
  str_contains p (replace_scan old new k s) = true →
  ∃ t, t `suffix_of` s ∧ startswith p t = true ∧ startswith old t = false.
Proof using Hold Hp Hno.
  revert k. induction s as [|c s IH]; intros k; simpl.
  - destruct p; [done | by simpl].
  - destruct k as [|k].
    + destruct (startswith old (c :: s)) eqn:Hst.
      * intros [(t & Ht & Hpre) | Hc]%str_contains_app_inv.
        -- apply startswith_app_compatible in Hpre.
           rewrite compatible_sym, (no_overlap_in_new t Ht) in Hpre. done.
        -- destruct (IH _ Hc) as (t & Ht & Hpt & Hot).
           exists t. split; [by apply suffix_cons_r | done].
      * simpl. rewrite orb_true_iff. intros [Hpre | Hc].
        -- exists (c :: s). split; [done|].
           assert (Hsc : replace_scan old new 0 (c :: s) = c :: replace_scan old new 0 s)
             by (simpl; by rewrite Hst).
           rewrite <- Hsc in Hpre.
           apply startswith_replace_copied in Hpre; [done|].
           by apply tails_ne_self.
        -- destruct (IH _ Hc) as (t & Ht & Hpt & Hot).
           exists t. split; [by apply suffix_cons_r | done].
    + intros Hc. destruct (IH _ Hc) as (t & Ht & Hpt & Hot).
      exists t. split; [by apply suffix_cons_r | done].
Qed.

(** Replacing [old] by [new] creates no occurrence of [p]. *)
Lemma str_replace_creates_none (s : list N) :
  str_contains p s = false → str_contains p (str_replace old new s) = false.
Proof using Hold Hp Hno.
  intros Hs. apply not_true_is_false. intros Hc.
  rewrite str_replace_scan in Hc by done.
  apply str_contains_replace_scan in Hc as (t & Ht & Hpt & _).
  assert (str_contains p s = true) by (apply str_contains_spec; eauto).
  congruence.
Qed.
End Replace.

(** After [s.replace(old, new)] no occurrence of [old] is left, when [new]
    and [old] do not overlap. *)
Lemma str_replace_removes_all (old new s : list N) :
  old ≠ [] → no_overlap old new = true →
  str_contains old (str_replace old new s) = false.
Proof.
  intros Hold Hno. apply not_true_is_false. intros Hc.
  rewrite str_replace_scan in Hc by done.
  apply (str_contains_replace_scan old old new Hold Hold Hno) in Hc
    as (t & _ & Hpt & Hot).
  congruence.
Qed.

(** A string without occurrence of [old] is left as it is. *)
Lemma str_replace_absent (old new s : list N) :
  old ≠ [] → str_contains old s = false → str_replace old new s = s.
Proof.
  intros Hold. rewrite str_replace_scan by done. clear Hold.
  induction s as [|c s IH]; simpl; [done|].
  rewrite orb_false_iff. intros [-> Hs]. by rewrite IH.
Qed.

(** ** The known-error table *)

Lemma no_overlap_councelor :
  no_overlap (lit "councelor") (lit "counselor") = true.
Proof. vm_compute. reflexivity. Qed.

Lemma no_overlap_inadmissable :
  no_overlap (lit "inadmissable") (lit "inadmissible") = true.
Proof. vm_compute. reflexivity. Qed.

Lemma no_overlap_councelor_inadmissible :
  no_overlap (lit "councelor") (lit "inadmissible") = true.
Proof. vm_compute. reflexivity. Qed.

Lemma corrected_no_councelor (text : list N) :
  str_contains (lit "councelor") (corrected text) = false.
Proof.
  unfold corrected.
  apply str_replace_creates_none;
    [done | done | apply no_overlap_councelor_inadmissible |].
  apply str_replace_removes_all; [done | apply no_overlap_councelor].
Qed.

Lemma corrected_no_inadmissable (text : list N) :
  str_contains (lit "inadmissable") (corrected text) = false.
Proof.
  unfold corrected.
  apply str_replace_removes_all; [done | apply no_overlap_inadmissable].
Qed.


Lemma flags_foldl (text : list N) (table : list (list N * list N)) (acc : list ErrorItem) :
  foldl (λ suspicious p,
           if str_contains p.1 text
           then suspicious ++ [{| line := 1; column := 1;
                                  original := p.1; suggested := p.2;
                                  confidence := 0.95; type := spelling |}]
           else suspicious) acc table
  = acc ++ flat_map (flag_entry text) table.
Proof.
  revert acc. induction table as [|p table IH]; intros acc; simpl.
  - by rewrite app_nil_r.
  - rewrite IH. unfold flag_entry at 2. destruct (str_contains p.1 text).
    + by rewrite <- app_assoc.
    + done.
Qed.

Lemma flags_flat_map (text : list N) :
  _grammar_spell_flags text = flat_map (flag_entry text) known_errors.
Proof. unfold _grammar_spell_flags. by rewrite flags_foldl. Qed.

Lemma flags_all_spelling (text : list N) :
  Forall (λ e, type e = spelling) (_grammar_spell_flags text).
Proof.
  rewrite flags_flat_map. unfold known_errors, flag_entry. simpl.
  repeat case_match; repeat constructor.
Qed.

(** ** Classification of the opcodes *)

Section Classify.
Variables t_tokens a_tokens : list (list N).

Lemma str_or_decide (s d : list N) :
  str_or s d = if decide (s = []) then d else s.
Proof. by destruct s. Qed.

Lemma classify_step_spec (op : Opcode) (errs : list ErrorItem) (col : nat) :
  classify_step t_tokens a_tokens (errs, col) op
  = match discrepancy_of t_tokens a_tokens op with
    | Some f => (errs ++ [f col], col + 1)
    | None => (errs, col)
    end.
Proof.
  destruct op as [[[[tag i1] i2] j1] j2].
  unfold discrepancy_of, op_tag, op_i1, op_i2, op_j1, op_j2.
  destruct tag; simpl; rewrite ?str_or_decide; done.
Qed.

Lemma classify_foldl (ops : list Opcode) (errs : list ErrorItem) (col : nat) :
  foldl (classify_step t_tokens a_tokens) (errs, col) ops
  = (errs ++ imap (λ n f, f (col + n)) (omap (discrepancy_of t_tokens a_tokens) ops),
     col + length (omap (discrepancy_of t_tokens a_tokens) ops)).
Proof.
  revert errs col. induction ops as [|op ops IH]; intros errs col.
  - simpl. by rewrite app_nil_r, Nat.add_0_r.
  - cbn [foldl omap list_omap]. rewrite classify_step_spec.
    destruct (discrepancy_of t_tokens a_tokens op) as [f|]; rewrite IH; [|done].
    cbn [imap length]. rewrite <- app_assoc, Nat.add_0_r. cbn [app].
    f_equal; [|lia]. do 2 f_equal.
    apply imap_ext. intros; simpl; f_equal; lia.
Qed.

Lemma classify_refines (ops : list Opcode) :
  classify t_tokens a_tokens ops = classify_spec t_tokens a_tokens ops.
Proof. unfold classify. by rewrite classify_foldl. Qed.

Lemma classify_spec_lookup (ops : list Opcode) (n : nat) (e : ErrorItem) :
  classify_spec t_tokens a_tokens ops !! n = Some e →
  line e = 1 ∧ column e = 1 + n ∧ type e = audio_mismatch ∧
  ∃ op f, omap (discrepancy_of t_tokens a_tokens) ops !! n = Some f ∧ e = f (1 + n) ∧
          discrepancy_of t_tokens a_tokens op = Some f ∧ op ∈ ops.
Proof.
  unfold classify_spec. rewrite list_lookup_imap.
  destruct (omap (discrepancy_of t_tokens a_tokens) ops !! n) as [f|] eqn:Hf; [|done].
  simpl. intros [= <-].
  assert (f ∈ omap (discrepancy_of t_tokens a_tokens) ops) as Hin
    by (by eapply list_elem_of_lookup_2).
  apply list_elem_of_omap in Hin as (op & Hop & Hd).
  assert (line (f (1 + n)) = 1 ∧ column (f (1 + n)) = 1 + n ∧
          type (f (1 + n)) = audio_mismatch) as (? & ? & ?).
  { unfold discrepancy_of in Hd. destruct (op_tag op); simplify_eq; done. }
  eauto 10.
Qed.

Lemma classify_all_audio (ops : list Opcode) :
  Forall (λ e, type e = audio_mismatch) (classify t_tokens a_tokens ops).
Proof.
  rewrite classify_refines. apply Forall_lookup. intros n e He.
  by apply classify_spec_lookup in He as (_ & _ & ? & _).
Qed.
End Classify.

(** ** The summary *)


Lemma sum_values_insert_fresh (m : gmap (list N) nat) (k : list N) (v : nat) :
  m !! k = None → sum_values (<[k := v]> m) = v + sum_values m.
Proof.
  intros Hk. unfold sum_values. rewrite map_fold_insert_L; [done | | done].
  intros. lia.
Qed.

Lemma sum_values_count_step (m : gmap (list N) nat) (e : ErrorItem) :
  sum_values (count_step m e) = S (sum_values m).
Proof.
  unfold count_step. destruct (m !! type e) as [v|] eqn:Hk; simpl.
  - rewrite <- (insert_delete_eq m).
    rewrite sum_values_insert_fresh by apply lookup_delete_eq.
    rewrite <- (insert_delete_id m (type e) v) at 2 by done.
    rewrite sum_values_insert_fresh by apply lookup_delete_eq. lia.
  - by rewrite sum_values_insert_fresh.
Qed.

Lemma sum_values_foldl (errs : list ErrorItem) (m : gmap (list N) nat) :
  sum_values (foldl count_step m errs) = sum_values m + length errs.
Proof.
  revert m. induction errs as [|e errs IH]; intros m; simpl; [lia|].
  rewrite IH, sum_values_count_step. lia.
Qed.

Lemma lookup_count_foldl (errs : list ErrorItem) (m : gmap (list N) nat) (k : list N) :
  default 0 (foldl count_step m errs !! k) = default 0 (m !! k) + occurrences k errs
  ∧ (is_Some (foldl count_step m errs !! k) ↔
     is_Some (m !! k) ∨ ∃ e, e ∈ errs ∧ type e = k).
Proof.
  revert m. induction errs as [|e errs IH]; intros m.
  - simpl. split; [unfold occurrences; simpl; lia|].
    split; [by left | intros [?|(e & ?%elem_of_nil & _)]; done].
  - simpl. destruct (IH (count_step m e)) as [IH1 IH2]. rewrite IH1, IH2.
    unfold count_step, occurrences. rewrite filter_cons.
    destruct (decide (type e = k)) as [<-|Hne].
    + rewrite lookup_insert_eq. simpl. split; [lia|].
      split; [intros _; right; exists e; split; [left | done]|].
      intros _. left. done.
    + rewrite lookup_insert_ne by done. split; [done|].
      split.
      * intros [?|(e' & Hin & ?)]; [by left|]. right. exists e'. split; [by right | done].
      * intros [?|(e' & Hin & ?)]; [by left|].
        apply elem_of_cons in Hin as [-> | Hin]; [done|]. right. eauto.
Qed.

(** ** The sequence matcher *)

Lemma filter_ext_in {X} (P1 P2 : X → Prop)
    `{!∀ x, Decision (P1 x), !∀ x, Decision (P2 x)} (l : list X) :
  (∀ x, x ∈ l → P1 x ↔ P2 x) → filter P1 l = filter P2 l.
Proof.
  induction l as [|x l IH]; intros Hiff; [done|].
  rewrite !filter_cons, IH by (intros; apply Hiff; by right).
  apply decide_ext, Hiff. left.
Qed.

Section MatcherFacts.
Context `{Countable A}.
Variables a b : list A.

(** *** The index [b2j] *)

(** The indices at which [x] occurs in [l], in increasing order. *)
Definition positions (x : A) (l : list A) : list nat :=
  filter (λ j, l !! j = Some x) (seq 0 (length l)).

Lemma positions_snoc (x y : A) (l : list A) :
  positions x (l ++ [y])
  = positions x l ++ (if decide (y = x) then [length l] else []).
Proof.
  unfold positions. rewrite length_app, seq_app, filter_app. simpl. f_equal.
  - apply filter_ext_in. intros j Hj%elem_of_seq.
    rewrite lookup_app_l by lia. done.
  - rewrite filter_cons, filter_nil. rewrite list_lookup_middle by done.
    destruct (decide (y = x)) as [->|Hne].
    + by rewrite decide_True.
    + rewrite decide_False; [done | congruence].
Qed.

Lemma chain_lookup (l : list A) (x : A) :
  foldl chain_step ∅ (imap pair l) !! x
  = match positions x l with [] => None | _ :: _ => Some (positions x l) end.
Proof.
  induction l as [|y l IH] using rev_ind; [done|].
  rewrite imap_app, foldl_app, positions_snoc. simpl.
  unfold chain_step at 1. simpl. rewrite Nat.add_0_r.
  destruct (decide (y = x)) as [->|Hne].
  - rewrite lookup_insert_eq, IH.
    destruct (positions x l); done.
  - rewrite lookup_insert_ne, IH, app_nil_r by done. done.
Qed.

Lemma b2j_lookup (x : A) (js : list nat) :
  b2j b !! x = Some js → js = positions x b.
Proof.
  unfold b2j. case_bool_decide.
  - intros [Hjs _]%map_lookup_filter_Some. revert Hjs.
    unfold b2j_full. rewrite chain_lookup. destruct (positions x b); naive_solver.
  - unfold b2j_full. rewrite chain_lookup. destruct (positions x b); naive_solver.
Qed.

Lemma positions_lookup (x : A) (l : list A) (j : nat) :
  j ∈ positions x l ↔ l !! j = Some x.
Proof.
  unfold positions. rewrite list_elem_of_filter, elem_of_seq. split; [tauto|].
  intros Hj. split; [done|]. apply lookup_lt_Some in Hj. lia.
Qed.

(** The row of [b2j] that [find_longest_match] reads for an element. *)
Definition b2j_row (x : A) : list nat := default [] (b2j b !! x).

Lemma b2j_row_lookup (x : A) (j : nat) : j ∈ b2j_row x → b !! j = Some x.
Proof.
  unfold b2j_row. destruct (b2j b !! x) as [js|] eqn:Hjs; simpl.
  - apply b2j_lookup in Hjs as ->. apply positions_lookup.
  - by intros ?%elem_of_nil.
Qed.

(** *** Blocks *)


(** The entries of [j2len] once the rows below [i] are done: an entry
    [j ↦ k] is a block of size [k] that ends at row [i - 1] and column
    [j]. *)
Definition j2len_ok (alo blo bhi i : nat) (j2len : gmap nat nat) : Prop :=
  ∀ j k, j2len !! j = Some k →
    1 ≤ k ∧ alo + k ≤ i ∧ blo + k ≤ j + 1 ∧ j < bhi ∧
    block_eq a b (i - k) (j + 1 - k) k.

Lemma block_eq_snoc (i j k : nat) :
  block_eq a b i j k → a !! (i + k) = b !! (j + k) → block_eq a b i j (k + 1).
Proof.
  intros Hb He t Ht. destruct (decide (t = k)) as [->|]; [done|].
  apply Hb. lia.
Qed.

Lemma block_eq_cons (i j k : nat) :
  block_eq a b (S i) (S j) k → a !! i = b !! j → block_eq a b i j (k + 1).
Proof.
  intros Hb He [|t] Ht; [by rewrite !Nat.add_0_r|].
  replace (i + S t) with (S i + t) by lia.
  replace (j + S t) with (S j + t) by lia. apply Hb. lia.
Qed.

Lemma block_eq_ext (i j k i' j' k' : nat) :
  block_eq a b i j k → i' = i → j' = j → k' = k → block_eq a b i' j' k'.
Proof. by intros ? -> -> ->. Qed.

Lemma block_eq_single (i j i' j' : nat) :
  a !! i = b !! j → i' = i → j' = j → block_eq a b i' j' 1.
Proof. intros He -> -> t Ht. replace t with 0 by lia. by rewrite !Nat.add_0_r. Qed.

Lemma row_loop_ok (alo ahi blo bhi i : nat) (j2len : gmap nat nat) (js : list nat)
    (best : Match) (newj2len : gmap nat nat) :
  alo ≤ i →
  j2len_ok alo blo bhi i j2len →
  (∀ j, j ∈ js → a !! i = b !! j) →
  block_ok a b alo (i + 1) blo bhi best →
  j2len_ok alo blo bhi (i + 1) newj2len →
  block_ok a b alo (i + 1) blo bhi (row_loop blo bhi i j2len js best newj2len).1 ∧
  j2len_ok alo blo bhi (i + 1) (row_loop blo bhi i j2len js best newj2len).2.
Proof.
  intros Hi Hprev. revert best newj2len.
  induction js as [|j js IH]; intros best newj2len Hjs Hbest Hnew; simpl; [done|].
  case_bool_decide as Hlo.
  { apply IH; [|done|done]. intros j0 Hj0. apply Hjs. by right. }
  case_bool_decide as Hhi; [done|].
  assert (a !! i = b !! j) as Hij by (apply Hjs; left).
  assert (∀ k, k = j2lenget_pred j2len j + 1 →
            1 ≤ k ∧ alo + k ≤ i + 1 ∧ blo + k ≤ j + 1 ∧ j < bhi ∧
            block_eq a b (i + 1 - k) (j + 1 - k) k) as Hk.
  { intros k ->. unfold j2lenget_pred. destruct j as [|j'].
    - repeat split; try lia. apply (block_eq_single i 0); [done|lia|lia].
    - destruct (j2len !! j') as [k'|] eqn:Hk'; simpl.
      + destruct (Hprev _ _ Hk') as (? & ? & ? & ? & Hb).
        repeat split; try lia.
        eapply block_eq_ext; [apply block_eq_snoc; [exact Hb|] | lia | lia | lia].
        replace (i - k' + k') with i by lia.
        by replace (j' + 1 - k' + k') with (S j') by lia.
      + repeat split; try lia. apply (block_eq_single i (S j')); [done|lia|lia]. }
  specialize (Hk _ eq_refl). destruct Hk as (Hk1 & Hk2 & Hk3 & Hk4 & Hk5).
  apply IH.
  - intros j0 Hj0. apply Hjs. by right.
  - case_bool_decide; [|done]. unfold block_ok; simpl.
    repeat split; try lia. done.
  - intros j0 k0. destruct (decide (j0 = j)) as [->|Hne].
    + rewrite lookup_insert_eq. intros [= <-]. done.
    + rewrite lookup_insert_ne by done. apply Hnew.
Qed.

Lemma block_ok_mono (alo ahi ahi' blo bhi : nat) (m : Match) :
  ahi ≤ ahi' → block_ok a b alo ahi blo bhi m → block_ok a b alo ahi' blo bhi m.
Proof. unfold block_ok. intros ? (? & ? & ? & ? & ?). repeat split; try lia; done. Qed.

Lemma dp_foldl_ok (alo blo bhi : nat) (n i : nat) (best : Match) (j2len : gmap nat nat) :
  alo ≤ i → i + n ≤ length a →
  block_ok a b alo i blo bhi best →
  j2len_ok alo blo bhi i j2len →
  ∃ s, foldl (dp_step a b blo bhi) (Some (best, j2len)) (seq i n) = Some s ∧
       block_ok a b alo (i + n) blo bhi s.1.
Proof.
  revert i best j2len. induction n as [|n IH]; intros i best j2len Hi Hn Hbest Hj.
  - simpl. eexists. split; [done|]. by rewrite Nat.add_0_r.
  - cbn [seq foldl]. unfold dp_step at 2. cbn [mbind option_bind fst snd].
    destruct (lookup_lt_is_Some_2 a i ltac:(lia)) as [x Hx]. rewrite Hx. cbn [mbind option_bind].
    destruct (row_loop_ok alo (i + 1) blo bhi i j2len (default [] (b2j b !! x)) best ∅)
      as [Hb' Hj']; try done.
    { intros j Hj0. rewrite Hx. symmetry. by apply b2j_row_lookup. }
    { eapply block_ok_mono; [|done]. lia. }
    destruct (row_loop blo bhi i j2len (default [] (b2j b !! x)) best ∅) as [best' new'].
    replace (i + S n) with (S i + n) by lia.
    apply IH; [lia | lia | by replace (S i) with (i + 1) by lia
              | by replace (S i) with (i + 1) by lia].
Qed.

Lemma dp_loop_ok (alo ahi blo bhi : nat) :
  alo ≤ ahi → ahi ≤ length a → blo ≤ bhi →
  ∃ s, dp_loop a b alo ahi blo bhi = Some s ∧ block_ok a b alo ahi blo bhi s.1.
Proof.
  intros Ha Hla Hb. unfold dp_loop.
  destruct (dp_foldl_ok alo blo bhi (ahi - alo) alo (alo, blo, 0) ∅) as (s & Hs & Hok).
  - done.
  - lia.
  - unfold block_ok; simpl. repeat split; try lia. intros t Ht. lia.
  - intros j k. by rewrite lookup_empty.
  - exists s. split; [done|]. by replace ahi with (alo + (ahi - alo)) by lia.
Qed.

(** *** Growing a block *)

Lemma extend_left_ok (junk : bool) (alo ahi blo bhi besti bestj bestsize : nat) :
  ahi ≤ length a → bhi ≤ length b →
  block_ok a b alo ahi blo bhi (besti, bestj, bestsize) →
  ∃ m, extend_left a b junk alo blo besti bestj bestsize = Some m ∧
       block_ok a b alo ahi blo bhi m ∧
       m.1.1 + m.2 = besti + bestsize ∧ m.1.2 + m.2 = bestj + bestsize ∧
       bestsize ≤ m.2.
Proof.
  intros Hla Hlb. revert bestj bestsize.
  induction besti as [|i' IH]; intros bestj bestsize Hok; simpl; [eauto 10|].
  destruct Hok as (H1 & H2 & H3 & H4 & H5); simpl in *.
  assert (Hstop : ∃ m, Some (S i', bestj, bestsize) = Some m ∧
            block_ok a b alo ahi blo bhi m ∧
            m.1.1 + m.2 = S i' + bestsize ∧ m.1.2 + m.2 = bestj + bestsize ∧
            bestsize ≤ m.2).
  { eexists. split; [done|]. unfold block_ok. simpl. done. }
  case_bool_decide; [|done]. case_bool_decide; [|done]. simpl.
  destruct (lookup_lt_is_Some_2 b (bestj - 1) ltac:(lia)) as [y Hy]. rewrite Hy. simpl.
  case_bool_decide; [|done].
  destruct (lookup_lt_is_Some_2 a i' ltac:(lia)) as [x Hx]. rewrite Hx. simpl.
  case_bool_decide as Hxy; [|done]. subst y.
  destruct (IH (bestj - 1) (bestsize + 1)) as (m & Hm & Hmok & He1 & He2 & He3).
  - unfold block_ok; simpl. repeat split; try lia.
    apply block_eq_cons.
    + by replace (S (bestj - 1)) with bestj by lia.
    + congruence.
  - exists m. split; [done|]. split; [done|]. lia.
Qed.

Lemma extend_right_ok (junk : bool) (alo ahi blo bhi besti bestj gap bestsize : nat) :
  ahi ≤ length a → bhi ≤ length b →
  besti + bestsize + gap ≤ ahi →
  block_ok a b alo ahi blo bhi (besti, bestj, bestsize) →
  ∃ m, extend_right a b junk bhi besti bestj gap bestsize = Some m ∧
       block_ok a b alo ahi blo bhi m ∧ m.1.1 = besti ∧ m.1.2 = bestj ∧
       bestsize ≤ m.2.
Proof.
  intros Hla Hlb. revert bestsize.
  induction gap as [|gap IH]; intros bestsize Hgap Hok; simpl; [eauto 10|].
  destruct Hok as (H1 & H2 & H3 & H4 & H5); simpl in *.
  assert (Hstop : ∃ m, Some (besti, bestj, bestsize) = Some m ∧
            block_ok a b alo ahi blo bhi m ∧ m.1.1 = besti ∧ m.1.2 = bestj ∧
            bestsize ≤ m.2).
  { eexists. split; [done|]. unfold block_ok. simpl. done. }
  case_bool_decide; [|done].
  destruct (lookup_lt_is_Some_2 b (bestj + bestsize) ltac:(lia)) as [y Hy]. rewrite Hy. simpl.
  case_bool_decide; [|done].
  destruct (lookup_lt_is_Some_2 a (besti + bestsize) ltac:(lia)) as [x Hx]. rewrite Hx. simpl.
  case_bool_decide as Hxy; [|done]. subst y.
  destruct (IH (bestsize + 1)) as (m & Hm & Hmok & He1 & He2 & He3); [lia| |].
  - unfold block_ok; simpl. repeat split; try lia.
    apply block_eq_snoc; [done | congruence].
  - exists m. split; [done|]. split; [done|]. lia.
Qed.

Lemma extend_ok (junk : bool) (alo ahi blo bhi : nat) (m : Match) :
  ahi ≤ length a → bhi ≤ length b →
  block_ok a b alo ahi blo bhi m →
  ∃ m', extend a b junk alo ahi blo bhi m = Some m' ∧ block_ok a b alo ahi blo bhi m' ∧
        m.2 ≤ m'.2 ∧ (m'.2 = m.2 → m' = m).
Proof.
  intros Hla Hlb Hok. unfold extend. destruct m as [[i j] k]. simpl.
  destruct (extend_left_ok junk alo ahi blo bhi i j k)
    as (m1 & -> & Hok1 & Hl1 & Hl2 & Hl3); try done.
  simpl. destruct m1 as [[i1 j1] k1]. simpl in *.
  destruct (extend_right_ok junk alo ahi blo bhi i1 j1 (ahi - (i1 + k1)) k1)
    as (m2 & -> & Hok2 & Hr1 & Hr2 & Hr3); try done.
  - destruct Hok1 as (? & ? & _); simpl in *. lia.
  - exists m2. destruct m2 as [[i2 j2] k2]. simpl in *.
    split; [done|]. split; [done|]. split; [lia|].
    intros ->. replace i2 with i by lia. replace j2 with j by lia. done.
Qed.

(** [find_longest_match] returns, and returns a block of equal elements
    inside the window. *)
Lemma find_longest_match_ok (alo ahi blo bhi : nat) :
  alo ≤ ahi → ahi ≤ length a → blo ≤ bhi → bhi ≤ length b →
  ∃ m, find_longest_match a b alo ahi blo bhi = Some m ∧ block_ok a b alo ahi blo bhi m.
Proof.
  intros. unfold find_longest_match.
  destruct (dp_loop_ok alo ahi blo bhi) as (s & -> & Hs); try done. simpl.
  destruct (extend_ok false alo ahi blo bhi s.1) as (m1 & -> & Hm1 & _); try done. simpl.
  destruct (extend_ok true alo ahi blo bhi m1) as (m2 & -> & Hm2 & _); eauto.
Qed.
End MatcherFacts.

(** *** Windows and blocks as rectangles *)

(** A window [(alo, ahi, blo, bhi)] of the queue. *)
Abbreviation Region := (nat * nat * nat * nat)%type (only parsing).

(** The rectangle that a block covers. *)
Definition rect_of (m : Match) : Region :=
  (m.1.1, m.1.1 + m.2, m.1.2, m.1.2 + m.2).

(** One rectangle lies before the other on both sides. *)
Definition sep (r s : Region) : Prop :=
  (r.1.1.2 ≤ s.1.1.1 ∧ r.2 ≤ s.1.2) ∨ (s.1.1.2 ≤ r.1.1.1 ∧ s.2 ≤ r.1.2).

(** [r] lies inside [s]. *)
Definition sub (r s : Region) : Prop :=
  s.1.1.1 ≤ r.1.1.1 ∧ r.1.1.2 ≤ s.1.1.2 ∧ s.1.2 ≤ r.1.2 ∧ r.2 ≤ s.2.

Fixpoint all_sep (l : list Region) : Prop :=
  match l with
  | [] => True
  | r :: l' => Forall (sep r) l' ∧ all_sep l'
  end.

(** The number of turns that the [while queue] loop can still take. *)
Fixpoint budget (queue : list Region) : nat :=
  match queue with
  | [] => 0
  | r :: queue' => 2 * (r.1.1.2 - r.1.1.1) + 1 + budget queue'
  end.

Lemma sep_sym (r s : Region) : sep r s → sep s r.
Proof. unfold sep. tauto. Qed.

Lemma sep_sub (r' r s : Region) : sub r' r → sep r s → sep r' s.
Proof. unfold sub, sep. lia. Qed.

Lemma all_sep_perm (l l' : list Region) : l ≡ₚ l' → all_sep l → all_sep l'.
Proof.
  induction 1 as [|x l l' Hp IH|x y l|l1 l2 l3 _ IH1 _ IH2]; simpl.
  - done.
  - intros [Hx Hl]. split; [by rewrite <- Hp | by apply IH].
  - intros [Hy [Hx Hl]]. apply Forall_cons in Hy as [Hyx Hy].
    repeat split; try done. constructor; [by apply sep_sym | done].
  - intros. by apply IH2, IH1.
Qed.

Lemma all_sep_split (r : Region) (queue R : list Region)
    (left right blk : Region) (c1 c2 : bool) :
  all_sep (r :: queue ++ R) →
  sub left r → sub right r → sub blk r →
  sep left blk → sep right blk → sep right left →
  all_sep ((if c2 then right :: (if c1 then left :: queue else queue)
            else (if c1 then left :: queue else queue)) ++ (R ++ [blk])).
Proof.
  intros [Hr Hall] Hl Hrt Hb Hlb Hrb Hrl.
  assert (∀ x, sub x r → sep x blk → Forall (sep x) (queue ++ R ++ [blk])) as Hsub.
  { intros x Hx Hxb. rewrite app_assoc. apply Forall_app. split; [|by constructor].
    eapply Forall_impl; [exact Hr|]. intros s. by apply sep_sub. }
  assert (all_sep (queue ++ R ++ [blk])) as Hq.
  { apply (all_sep_perm (blk :: queue ++ R)).
    - rewrite (app_assoc queue R). by rewrite Permutation_cons_append.
    - split; [|done]. eapply Forall_impl; [exact Hr|]. intros s. by apply sep_sub. }
  destruct c1, c2; simpl; repeat split; auto using Forall_cons_2.
Qed.

Section Blocks.
Context `{Countable A}.
Variables a b : list A.

Definition region_ok (r : Region) : Prop :=
  r.1.1.1 ≤ r.1.1.2 ∧ r.1.1.2 ≤ length a ∧ r.1.2 ≤ r.2 ∧ r.2 ≤ length b.

(** A non-empty block of equal elements inside the two sequences. *)
Definition block_valid (m : Match) : Prop :=
  0 < m.2 ∧ block_ok a b 0 (length a) 0 (length b) m.

(** The [while queue] loop returns within its budget; the blocks it
    collects are non-empty, hold equal elements and lie pairwise before
    or after each other on both sides. *)
Lemma blocks_loop_ok (fuel : nat) (queue : list Region) (acc : list Match) :
  Forall region_ok queue →
  Forall block_valid acc →
  all_sep (queue ++ (rect_of <$> acc)) →
  budget queue ≤ fuel →
  ∃ res, blocks_loop a b fuel queue acc = Some res ∧
         Forall block_valid res ∧ all_sep (rect_of <$> res).
Proof.
  revert queue acc. induction fuel as [|fuel IH]; intros queue acc Hq Hacc Hsep Hfuel.
  - destruct queue as [|[[[alo ahi] blo] bhi] queue]; simpl in *; [eauto | lia].
  - destruct queue as [|[[[alo ahi] blo] bhi] queue]; [simpl; eauto|].
    cbn [blocks_loop].
    apply Forall_cons in Hq as [Hr Hq]. destruct Hr as (Hr1 & Hr2 & Hr3 & Hr4).
    simpl in Hr1, Hr2, Hr3, Hr4, Hfuel.
    destruct (find_longest_match_ok a b alo ahi blo bhi) as (m & -> & Hm); try done.
    cbn [mbind option_bind]. destruct m as [[i j] k].
    destruct Hm as (Hm1 & Hm2 & Hm3 & Hm4 & Hm5). simpl in Hm1, Hm2, Hm3, Hm4, Hm5.
    case_bool_decide as Hk.
    + apply IH; [done | done | | lia]. by destruct Hsep.
    + apply IH.
      * repeat case_match; repeat constructor; simpl; try done; lia.
      * apply Forall_app. split; [done|]. repeat constructor; simpl; try lia. done.
      * rewrite fmap_app. cbn [fmap list_fmap].
        apply (all_sep_split (alo, ahi, blo, bhi)); try done;
          unfold sub, sep, rect_of; simpl; lia.
      * repeat case_match; simpl; repeat case_bool_decide; simpl in *; lia.
Qed.

(** *** The sorted block list *)

(** The blocks follow each other from [(i, j)] on: each starts at or after
    the end of the one before, holds equal elements, and the last one
    ends inside the sequences. *)
Fixpoint chain (i j : nat) (l : list Match) : Prop :=
  match l with
  | [] => i ≤ length a ∧ j ≤ length b
  | m :: l' =>
      i ≤ m.1.1 ∧ j ≤ m.1.2 ∧ block_eq a b m.1.1 m.1.2 m.2 ∧
      chain (m.1.1 + m.2) (m.1.2 + m.2) l'
  end.

Lemma sorted_chain (l : list Match) (i j : nat) :
  StronglySorted Match_le l →
  Forall block_valid l →
  all_sep (rect_of <$> l) →
  i ≤ length a → j ≤ length b →
  (∀ m, m ∈ l → i ≤ m.1.1 ∧ j ≤ m.1.2) →
  chain i j l.
Proof.
  revert i j. induction l as [|m l IH]; intros i j Hs Hv Hsep Hi Hj Hlo; simpl; [done|].
  apply StronglySorted_inv in Hs as [Hs Hm].
  apply Forall_cons in Hv as [Hvm Hv]. destruct Hsep as [Hsm Hsep].
  destruct (Hlo m) as [? ?]; [left|].
  destruct Hvm as (Hk & _ & Hb1 & _ & Hb2 & Heq).
  repeat split; try done.
  apply IH; try done.
  intros m' Hm'.
  rewrite Forall_forall in Hm. specialize (Hm m' Hm').
  rewrite Forall_forall in Hsm. specialize (Hsm (rect_of m')).
  rewrite Forall_forall in Hv. specialize (Hv m' Hm').
  destruct Hv as (Hk' & _).
  destruct Hsm as [Hsm|Hsm].
  - apply list_elem_of_fmap. eauto.
  - done.
  - destruct m as [[i1 j1] k1], m' as [[i2 j2] k2].
    unfold rect_of, Match_le in *. simpl in *. lia.
Qed.

(** A chain can be continued from the end of any of its prefixes. *)
Lemma chain_app_inv (xs ys : list Match) (i j : nat) :
  chain i j (xs ++ ys) →
  ∃ i' j', chain i' j' ys ∧ ∀ ys', chain i' j' ys' → chain i j (xs ++ ys').
Proof.
  revert i j. induction xs as [|m xs IH]; intros i j; simpl.
  - eauto.
  - intros (? & ? & ? & Hc). destruct (IH _ _ Hc) as (i' & j' & Hys & Hk).
    exists i', j'. split; [done|]. intros ys' Hys'. repeat split; auto.
Qed.

Lemma chain_bound (i j : nat) (l : list Match) :
  chain i j l → i ≤ length a ∧ j ≤ length b.
Proof.
  revert i j. induction l as [|m l IH]; intros i j; simpl; [done|].
  intros (? & ? & ? & Hc). apply IH in Hc. lia.
Qed.

Lemma block_eq_app (i j k1 k2 : nat) :
  block_eq a b i j k1 → block_eq a b (i + k1) (j + k1) k2 →
  block_eq a b i j (k1 + k2).
Proof.
  intros H1 H2 t Ht. destruct (decide (t < k1)); [by apply H1|].
  replace (i + t) with (i + k1 + (t - k1)) by lia.
  replace (j + t) with (j + k1 + (t - k1)) by lia. apply H2. lia.
Qed.

Lemma merge_foldl_chain (l : list Match) (cur : Match) (na : list Match) (i0 j0 : nat) :
  chain i0 j0 (na ++ cur :: l) →
  chain i0 j0 ((foldl merge_step (cur, na) l).2 ++ [(foldl merge_step (cur, na) l).1]).
Proof.
  revert cur na. induction l as [|m l IH]; intros cur na Hc; [done|].
  cbn [foldl]. destruct cur as [[i1 j1] k1], m as [[i2 j2] k2].
  destruct (chain_app_inv _ _ _ _ Hc) as (i' & j' & Hc' & Hk).
  simpl in Hc'. destruct Hc' as (? & ? & ? & ? & ? & ? & ?).
  unfold merge_step.
  destruct (bool_decide (i1 + k1 = i2) && bool_decide (j1 + k1 = j2)) eqn:Hadj.
  - apply andb_true_iff in Hadj as [Hi%bool_decide_eq_true Hj%bool_decide_eq_true].
    apply IH, Hk. simpl. subst i2 j2. repeat split; try done.
    + by apply block_eq_app.
    + by rewrite !Nat.add_assoc.
  - clear Hadj. case_bool_decide.
    + apply IH, Hk. simpl in *. repeat split; try done; lia.
    + apply IH. by rewrite <- app_assoc.
Qed.

Lemma merge_adjacent_chain (l : list Match) :
  chain 0 0 l → chain 0 0 (merge_adjacent l ++ [(length a, length b, 0)]).
Proof.
  intros Hl. unfold merge_adjacent.
  assert (chain 0 0 ([] ++ (0, 0, 0) :: l)) as Hc.
  { simpl. repeat split; try lia; [|done]. intros t Ht. lia. }
  apply merge_foldl_chain in Hc.
  destruct (foldl merge_step (0, 0, 0, []) l) as [[[i1 j1] k1] na]. simpl in Hc.
  assert (∀ xs, chain 0 0 xs → chain 0 0 (xs ++ [(length a, length b, 0)])) as Hfin.
  { intros xs Hxs. rewrite <- (app_nil_r xs) in Hxs.
    destruct (chain_app_inv _ _ _ _ Hxs) as (i' & j' & Hc' & Hk).
    apply Hk. simpl in *. repeat split; try lia. intros t Ht. lia. }
  case_bool_decide; [|by apply Hfin].
  apply Hfin. destruct (chain_app_inv _ _ _ _ Hc) as (i' & j' & Hc' & Hk).
  rewrite <- (app_nil_r na). apply Hk. simpl in *. lia.
Qed.

#[local] Instance Match_le_trans : Transitive Match_le.
Proof. intros [[??]?] [[??]?] [[??]?]. unfold Match_le. lia. Qed.

#[local] Instance Match_le_total : Total Match_le.
Proof. intros [[??]?] [[??]?]. unfold Match_le. lia. Qed.

(** [get_matching_blocks] returns a chain of blocks that ends with the
    sentinel. *)
Lemma get_matching_blocks_ok :
  ∃ l, get_matching_blocks a b = Some (l ++ [(length a, length b, 0)]) ∧
       chain 0 0 (l ++ [(length a, length b, 0)]).
Proof.
  unfold get_matching_blocks.
  destruct (blocks_loop_ok (S (2 * length a)) [(0, length a, 0, length b)] [])
    as (res & -> & Hv & Hsep).
  - repeat constructor; simpl; lia.
  - constructor.
  - simpl. repeat constructor.
  - simpl. lia.
  - cbn [mbind option_bind]. eexists. split; [done|].
    apply merge_adjacent_chain, sorted_chain; try lia.
    + apply StronglySorted_merge_sort; apply _.
    + by rewrite merge_sort_Permutation.
    + eapply all_sep_perm; [|exact Hsep].
      by rewrite merge_sort_Permutation.
Qed.
End Blocks.

(** *** Opcode sequences *)


(** The position that a block list leaves the opcode loop at. *)
Fixpoint chain_end (i j : nat) (l : list Match) : nat * nat :=
  match l with
  | [] => (i, j)
  | m :: l' => chain_end (m.1.1 + m.2) (m.1.2 + m.2) l'
  end.


Lemma tiles_app (xs ys : list Opcode) (i j i1 j1 i' j' : nat) :
  tiles xs i j i1 j1 → tiles ys i1 j1 i' j' → tiles (xs ++ ys) i j i' j'.
Proof.
  revert i j. induction xs as [|op xs IH]; intros i j; simpl.
  - by intros [-> ->].
  - intros (? & ? & ? & ? & ?) ?. repeat split; auto.
Qed.

Lemma tiles_le (ops : list Opcode) (i j i' j' : nat) :
  tiles ops i j i' j' → i ≤ i' ∧ j ≤ j'.
Proof.
  revert i j. induction ops as [|op ops IH]; intros i j; simpl.
  - lia.
  - intros (? & ? & ? & ? & Ht). apply IH in Ht. lia.
Qed.

Lemma chain_end_snoc (i j : nat) (l : list Match) (m : Match) :
  chain_end i j (l ++ [m]) = (m.1.1 + m.2, m.1.2 + m.2).
Proof. revert i j. induction l as [|m' l IH]; intros i j; simpl; [done | apply IH]. Qed.

Lemma slice_split {X} (l : list X) (i i2 : nat) :
  i ≤ i2 → drop i l = slice l i i2 ++ drop i2 l.
Proof.
  intros Hle. unfold slice.
  rewrite <- (take_drop (i2 - i) (drop i l)) at 1. f_equal.
  rewrite drop_drop. f_equal. lia.
Qed.

(** The ranges of a tiling, side by side, are the sequence itself. *)
Lemma tiles_concat_l {X} (l : list X) (ops : list Opcode) (i j j' : nat) :
  tiles ops i j (length l) j' →
  concat ((λ op, slice l (op_i1 op) (op_i2 op)) <$> ops) = drop i l.
Proof.
  revert i j. induction ops as [|op ops IH]; intros i j; cbn [tiles fmap list_fmap concat].
  - intros [-> _]. by rewrite drop_all.
  - intros (Hi & _ & Hle & _ & Ht). rewrite (IH _ _ Ht), Hi. symmetry. by apply slice_split.
Qed.

Lemma tiles_concat_r {X} (l : list X) (ops : list Opcode) (i j i' : nat) :
  tiles ops i j i' (length l) →
  concat ((λ op, slice l (op_j1 op) (op_j2 op)) <$> ops) = drop j l.
Proof.
  revert i j. induction ops as [|op ops IH]; intros i j; cbn [tiles fmap list_fmap concat].
  - intros [_ ->]. by rewrite drop_all.
  - intros (_ & Hj & _ & Hle & Ht). rewrite (IH _ _ Ht), Hj. symmetry. by apply slice_split.
Qed.

Section Opcodes.
Context `{Countable A}.
Variables a b : list A.

(** What each tag says about its ranges. *)
Definition op_ok (op : Opcode) : Prop :=
  match op_tag op with
  | Replace => op_i1 op < op_i2 op ∧ op_j1 op < op_j2 op
  | Delete => op_i1 op < op_i2 op ∧ op_j1 op = op_j2 op
  | Insert => op_i1 op = op_i2 op ∧ op_j1 op < op_j2 op
  | Equal => op_i1 op < op_i2 op ∧
             op_i2 op - op_i1 op = op_j2 op - op_j1 op ∧
             block_eq a b (op_i1 op) (op_j1 op) (op_i2 op - op_i1 op)
  end.

Lemma opcodes_foldl (blocks : list Match) (i j : nat) (answer : list Opcode) :
  chain a b i j blocks →
  ∃ new, foldl opcode_step (i, j, answer) blocks
           = (chain_end i j blocks, answer ++ new) ∧
         tiles new i j (chain_end i j blocks).1 (chain_end i j blocks).2 ∧
         Forall op_ok new.
Proof.
  revert i j answer. induction blocks as [|m blocks IH]; intros i j answer.
  - intros _. exists []. simpl. by rewrite app_nil_r.
  - destruct m as [[ai bj] size]. cbn [chain foldl chain_end fst snd].
    intros (Hi & Hj & Heq & Hc).
    set (gap := if bool_decide (i < ai) && bool_decide (j < bj) then Some Replace
                else if bool_decide (i < ai) then Some Delete
                else if bool_decide (j < bj) then Some Insert else None).
    set (ops1 := match gap with Some t => [(t, i, ai, j, bj)] | None => [] end).
    set (ops2 := if bool_decide (size = 0) then []
                 else [(Equal, ai, ai + size, bj, bj + size)]).
    assert (tiles ops1 i j ai bj ∧ Forall op_ok ops1) as [Ht1 Ho1].
    { unfold ops1, gap.
      repeat case_bool_decide; simpl;
        (split; [unfold op_i1, op_i2, op_j1, op_j2; simpl; lia|]);
        first [by constructor
              | constructor; [|constructor];
                unfold op_ok, op_tag, op_i1, op_i2, op_j1, op_j2; simpl; lia]. }
    assert (tiles ops2 ai bj (ai + size) (bj + size) ∧ Forall op_ok ops2) as [Ht2 Ho2].
    { unfold ops2. case_bool_decide; simpl.
      - split; [lia | constructor].
      - split; [unfold op_i1, op_i2, op_j1, op_j2; simpl; lia|].
        constructor; [|constructor].
        unfold op_ok, op_tag, op_i1, op_i2, op_j1, op_j2; simpl.
        split; [lia|]. split; [lia|].
        by replace (ai + size - ai) with size by lia. }
    destruct (IH (ai + size) (bj + size) ((answer ++ ops1) ++ ops2) Hc)
      as (new & Hf & Ht & Ho).
    assert (opcode_step (i, j, answer) (ai, bj, size)
            = (ai + size, bj + size, (answer ++ ops1) ++ ops2)) as ->.
    { unfold opcode_step, ops1, ops2, gap.
      repeat case_bool_decide; simpl; by rewrite ?app_nil_r. }
    exists (ops1 ++ ops2 ++ new). split; [|split].
    + by rewrite Hf, !app_assoc.
    + eapply tiles_app; [done|]. eapply tiles_app; done.
    + rewrite !Forall_app. done.
Qed.

(** [get_opcodes] returns, and its opcodes tile both sequences from end
    to end. *)
Lemma get_opcodes_ok :
  ∃ ops, get_opcodes a b = Some ops ∧
         tiles ops 0 0 (length a) (length b) ∧ Forall op_ok ops.
Proof.
  unfold get_opcodes.
  destruct (get_matching_blocks_ok a b) as (l & -> & Hc).
  destruct (opcodes_foldl _ 0 0 [] Hc) as (new & Hf & Ht & Ho).
  rewrite chain_end_snoc in Hf, Ht. simpl in Hf, Ht.
  rewrite !Nat.add_0_r in Ht.
  exists new. cbn [fmap option_fmap option_map]. unfold opcodes_of. rewrite Hf. done.
Qed.

Lemma block_eq_slice (i j k : nat) :
  block_eq a b i j k → slice a i (i + k) = slice b j (j + k).
Proof.
  intros Hb. unfold slice. apply list_eq. intros t.
  replace (i + k - i) with k by lia. replace (j + k - j) with k by lia.
  destruct (decide (t < k)).
  - rewrite !lookup_take_lt, !lookup_drop by done. by apply Hb.
  - rewrite !lookup_take_ge by lia. done.
Qed.

(** The Equal ranges of a tiling, side by side, are a common subsequence
    of the two sequences. *)
Lemma tiles_common_subsequence (ops : list Opcode) (i j : nat) :
  tiles ops i j (length a) (length b) → Forall op_ok ops →
  ∃ c, c `sublist_of` drop i a ∧ c `sublist_of` drop j b ∧ length c = matched ops.
Proof.
  revert i j. induction ops as [|op ops IH]; intros i j Ht Ho.
  - exists []. split; [apply sublist_nil_l|]. split; [apply sublist_nil_l|]. done.
  - simpl in Ht. destruct Ht as (Hi1 & Hj1 & Hi2 & Hj2 & Ht).
    apply Forall_cons in Ho as [Hop Ho].
    destruct (IH _ _ Ht Ho) as (c & Hca & Hcb & Hlen).
    apply tiles_le in Ht as [Hla Hlb].
    rewrite (slice_split a i (op_i2 op)), (slice_split b j (op_j2 op)) by done.
    unfold matched. cbn [fmap list_fmap sum_list sum_list_with]. fold (matched ops).
    unfold op_ok in Hop. destruct (decide (op_tag op = Equal)) as [Heq|Hne].
    + rewrite Heq in Hop. destruct Hop as (Hlt & Hsz & Hb).
      exists (slice a i (op_i2 op) ++ c). split; [|split].
      * apply sublist_app; done.
      * apply sublist_app; [|done].
        apply block_eq_slice in Hb. rewrite Hi1, Hj1 in Hb.
        replace (i + (op_i2 op - i)) with (op_i2 op) in Hb by lia.
        replace (j + (op_i2 op - i)) with (op_j2 op) in Hb by lia.
        by rewrite Hb.
      * rewrite length_app, Hlen. unfold slice.
        rewrite length_take, length_drop. unfold id. lia.
    + exists c. split; [by apply sublist_inserts_l|].
      split; [by apply sublist_inserts_l|]. done.
Qed.

End Opcodes.

(** *** Longest common subsequences *)

Section LCS.
Context `{EqDecision A}.






End LCS.

(** *** A sequence against itself *)

Lemma filter_seq_sorted (P : nat → Prop) `{!∀ j, Decision (P j)} (i n : nat) :
  StronglySorted lt (filter P (seq i n)).
Proof.
  revert i. induction n as [|n IH]; intros i; simpl; [constructor|].
  rewrite filter_cons. case_decide; [|apply IH].
  constructor; [apply IH|]. apply Forall_forall.
  intros j [_ Hj%elem_of_seq]%list_elem_of_filter. lia.
Qed.

Section Identity.
Context `{Countable A}.
Variable T : list A.

(** The element has a row in [b2j]: it is not popular. *)
Definition indexed (x : A) : Prop := is_Some (b2j T !! x).

(** The number of consecutive indexed elements that end at position [d]. *)
Fixpoint drun (d : nat) : nat :=
  match T !! d with
  | Some x =>
      if decide (indexed x)
      then S (match d with 0 => 0 | S d' => drun d' end)
      else 0
  | None => 0
  end.

(** The same for the position before [i]. *)
Definition drun_before (i : nat) : nat :=
  match i with 0 => 0 | S i' => drun i' end.

Lemma drun_indexed (d : nat) (x : A) :
  T !! d = Some x → indexed x → drun d = S (drun_before d).
Proof. intros Hd Hx. destruct d; simpl; rewrite Hd, decide_True; done. Qed.

Lemma drun_not_indexed (d : nat) (x : A) :
  T !! d = Some x → ¬ indexed x → drun d = 0.
Proof. intros Hd Hx. destruct d; simpl; rewrite Hd, decide_False; done. Qed.

(** Off the diagonal no entry of [j2len] exceeds the diagonal runs of its
    row and of its column; on the diagonal it is the run itself. *)
Definition diag_j2len (i : nat) (j2len : gmap nat nat) : Prop :=
  (∀ j k, j2len !! j = Some k → k ≤ drun_before i ∧ k ≤ drun j) ∧
  j2lenget_pred j2len i = drun_before i.

(** The best block is on the diagonal and at least as long as every
    diagonal run of the rows done. *)
Definition diag_best (i : nat) (best : Match) : Prop :=
  (∀ d, d < i → drun d ≤ best.2) ∧ best.1.1 = best.1.2.

Lemma row_loop_diag (x : A) (i : nat) (j2len : gmap nat nat) (js : list nat)
    (best : Match) (new : gmap nat nat) :
  T !! i = Some x → indexed x →
  diag_j2len i j2len →
  StronglySorted lt js →
  (∀ j, j ∈ js → T !! j = Some x) →
  (∀ j k, new !! j = Some k → k ≤ drun i ∧ k ≤ drun j) →
  diag_best i best →
  i ∈ js ∨ (drun i ≤ best.2 ∧ new !! i = Some (drun i)) →
  let r := row_loop 0 (length T) i j2len js best new in
  (∀ j k, r.2 !! j = Some k → k ≤ drun i ∧ k ≤ drun j) ∧
  diag_best i r.1 ∧ drun i ≤ r.1.2 ∧ r.2 !! i = Some (drun i).
Proof.
  intros Hi Hx [Hj2 Hdiag]. revert best new.
  induction js as [|j js IH]; intros best new Hsort Hjs Hnew [Hbest Hbd] Hor.
  - simpl. destruct Hor as [?%elem_of_nil|[? ?]]; [done|].
    split; [done|]. split; [done|]. split; done.
  - apply StronglySorted_inv in Hsort as [Hsort Hlt].
    assert (T !! j = Some x) as Hj by (apply Hjs; left).
    assert (j < length T) as Hjn by (by eapply lookup_lt_Some).
    cbn [row_loop]. rewrite bool_decide_false by lia.
    rewrite bool_decide_false by lia. cbn zeta.
    set (k := j2lenget_pred j2len j + 1).
    assert (k ≤ drun i ∧ k ≤ drun j) as [Hki Hkj].
    { rewrite (drun_indexed i x), (drun_indexed j x) by done.
      assert (j2lenget_pred j2len j ≤ drun_before i ∧
              j2lenget_pred j2len j ≤ drun_before j); [|unfold k; lia].
      destruct j as [|j']; simpl; [lia|].
      destruct (j2len !! j') as [k'|] eqn:Hk'; simpl; [|lia].
      by apply Hj2. }
    assert (j = i → k = drun i) as Hkd.
    { intros ->. unfold k. rewrite Hdiag. rewrite (drun_indexed i x); [lia|done..]. }
    assert (best.2 < k → j = i) as Hupd.
    { intros Hlt'. destruct (decide (j = i)) as [|Hne]; [done|]. exfalso.
      destruct (decide (j < i)).
      - specialize (Hbest j ltac:(done)). lia.
      - destruct Hor as [Hin|[? _]]; [|lia].
        apply elem_of_cons in Hin as [->|Hin]; [done|].
        rewrite Forall_forall in Hlt. specialize (Hlt i Hin). lia. }
    apply IH; try done.
    + intros j0 Hj0. apply Hjs. by right.
    + intros j0 k0. destruct (decide (j0 = j)) as [->|Hne].
      * rewrite lookup_insert_eq. intros [= <-]. done.
      * rewrite lookup_insert_ne by done. apply Hnew.
    + case_bool_decide as Hlt'; [|done]. split; simpl.
      * intros d Hd. specialize (Hbest d Hd). lia.
      * rewrite (Hupd Hlt'). done.
    + destruct (decide (j = i)) as [->|Hne].
      * right. rewrite lookup_insert_eq, (Hkd eq_refl). split; [|done].
        case_bool_decide; simpl; [by rewrite <- Hkd|]. rewrite <- Hkd by done. lia.
      * destruct Hor as [Hin|[Hle Hni]].
        -- left. apply elem_of_cons in Hin as [->|Hin]; done.
        -- right. rewrite lookup_insert_ne by done. split; [|done].
           case_bool_decide; simpl; lia.
Qed.

Lemma dp_foldl_diag (n i : nat) (best : Match) (j2len : gmap nat nat)
    (s : Match * gmap nat nat) :
  i + n ≤ length T →
  diag_j2len i j2len → diag_best i best →
  foldl (dp_step T T 0 (length T)) (Some (best, j2len)) (seq i n) = Some s →
  s.1.1.1 = s.1.1.2.
Proof.
  revert i best j2len. induction n as [|n IH]; intros i best j2len Hn Hj2 Hb.
  - simpl. intros [= <-]. by destruct Hb.
  - cbn [seq foldl]. unfold dp_step at 2. cbn [mbind option_bind fst snd].
    destruct (lookup_lt_is_Some_2 T i ltac:(lia)) as [x Hx]. rewrite Hx.
    cbn [mbind option_bind].
    destruct (decide (indexed x)) as [Hix|Hnx].
    + destruct Hix as [js Hjs]. pose proof Hjs as Hpos%b2j_lookup.
      rewrite Hjs. change (default [] (Some js)) with js.
      destruct (row_loop_diag x i j2len js best ∅) as (Hn1 & [Hn2 Hn3] & Hn4 & Hn5);
        try done.
      { by exists js. }
      { subst js. apply filter_seq_sorted. }
      { intros j Hj. subst js. by apply positions_lookup. }
      { left. subst js. by apply positions_lookup. }
      destruct (row_loop 0 (length T) i j2len js best ∅) as [best' new'].
      simpl in Hn1, Hn2, Hn3, Hn4, Hn5.
      apply IH; [lia | |].
      * split; [done|]. simpl. by rewrite Hn5.
      * split; [|done]. intros d Hd. destruct (decide (d = i)) as [->|]; [done|].
        apply Hn2. lia.
    + assert (b2j T !! x = None) as ->.
      { destruct (b2j T !! x) eqn:E; [|done]. exfalso. apply Hnx. by eexists. }
      change (default [] None) with (@nil nat). cbn [row_loop].
      destruct Hb as [Hb1 Hb2].
      apply IH; [lia | |].
      * split; [intros j k; by rewrite lookup_empty|].
        simpl. rewrite lookup_empty. simpl. symmetry. by eapply drun_not_indexed.
      * split; [|done]. intros d Hd. destruct (decide (d = i)) as [->|].
        -- rewrite (drun_not_indexed i x) by done. lia.
        -- apply Hb1. lia.
Qed.

Lemma extend_left_diag (i k : nat) :
  i + k ≤ length T → extend_left T T false 0 0 i i k = Some (0, 0, i + k).
Proof.
  revert k. induction i as [|i IH]; intros k Hk; [done|].
  cbn [extend_left]. rewrite !bool_decide_true by lia. cbn [andb].
  replace (S i - 1) with i by lia.
  destruct (lookup_lt_is_Some_2 T i ltac:(lia)) as [x Hx]. rewrite Hx.
  cbn [mbind option_bind].
  rewrite bool_decide_true by (unfold isbjunk, bjunk; by rewrite bool_decide_false).
  rewrite bool_decide_true by done.
  rewrite IH by lia. do 2 f_equal. lia.
Qed.

Lemma extend_right_diag (gap k : nat) :
  k + gap = length T → extend_right T T false (length T) 0 0 gap k = Some (0, 0, length T).
Proof.
  revert k. induction gap as [|gap IH]; intros k Hk.
  - simpl. do 2 f_equal. lia.
  - cbn [extend_right]. rewrite bool_decide_true by lia. cbn [Nat.add].
    destruct (lookup_lt_is_Some_2 T k ltac:(lia)) as [x Hx]. rewrite Hx.
    cbn [mbind option_bind].
    rewrite bool_decide_true by (unfold isbjunk, bjunk; by rewrite bool_decide_false).
    rewrite bool_decide_true by done. apply IH. lia.
Qed.

(** The longest match of a sequence with itself is the whole sequence. *)
Lemma find_longest_match_self :
  find_longest_match T T 0 (length T) 0 (length T) = Some (0, 0, length T).
Proof.
  unfold find_longest_match.
  destruct (dp_loop_ok T T 0 (length T) 0 (length T)) as (s & Hs & Hok); try lia.
  rewrite Hs. cbn [mbind option_bind].
  assert (s.1.1.1 = s.1.1.2) as Hd.
  { unfold dp_loop in Hs. eapply (dp_foldl_diag _ 0 (0, 0, 0) ∅); [|..|exact Hs].
    - lia.
    - split; [intros j k; by rewrite lookup_empty | done].
    - split; [intros d Hd; lia | done]. }
  destruct s as [[[i j] k] j2len]. simpl in Hd. subst j.
  destruct Hok as (_ & Hik & _). simpl in Hik.
  unfold extend. cbn [fst snd].
  rewrite extend_left_diag by done. cbn [mbind option_bind fst snd].
  rewrite (extend_right_diag (length T - (0 + (i + k))) (i + k)) by lia.
  cbn [mbind option_bind fst snd]. simpl.
  by rewrite Nat.sub_diag.
Qed.
End Identity.

(** *** Opcodes in closed form *)

Section ClosedForms.
Context `{Countable A}.
Variables a b : list A.

Lemma merge_sort_singleton (m : Match) : merge_sort Match_le [m] = [m].
Proof. apply Permutation_singleton_r. by rewrite merge_sort_Permutation. Qed.

Lemma merge_sort_nil : merge_sort Match_le [] = [].
Proof. apply Permutation_nil_r. by rewrite merge_sort_Permutation. Qed.

(** When the first window holds no match, the sentinel is the only
    block. *)
Lemma get_opcodes_no_match (m : Match) :
  find_longest_match a b 0 (length a) 0 (length b) = Some m → m.2 = 0 →
  get_opcodes a b = Some (opcodes_of [(length a, length b, 0)]).
Proof.
  intros Hm Hk. unfold get_opcodes, get_matching_blocks. cbn [blocks_loop].
  rewrite Hm. cbn [mbind option_bind]. destruct m as [[i j] k]. simpl in Hk. subst k.
  rewrite bool_decide_true by done.
  assert (blocks_loop a b (2 * length a) [] [] = Some []) as ->
    by (by destruct (2 * length a)).
  cbn [mbind option_bind fmap option_fmap option_map].
  by rewrite merge_sort_nil.
Qed.

(** When the first window matches as a whole, the opcodes are one Equal
    opcode. *)
Lemma get_opcodes_whole :
  a ≠ [] → length a = length b →
  find_longest_match a b 0 (length a) 0 (length b) = Some (0, 0, length a) →
  get_opcodes a b = Some [(Equal, 0, length a, 0, length b)].
Proof.
  intros Ha Hlen Hm. unfold get_opcodes, get_matching_blocks. cbn [blocks_loop].
  rewrite Hm. cbn [mbind option_bind].
  assert (length a ≠ 0) as Hn by (by destruct a).
  rewrite bool_decide_false by done.
  rewrite (bool_decide_false (0 < 0)) by lia. cbn [andb].
  rewrite (bool_decide_false (0 + length a < length a)) by lia. cbn [andb].
  assert (blocks_loop a b (2 * length a) [] ([] ++ [(0, 0, length a)])
          = Some [(0, 0, length a)]) as -> by (by destruct (2 * length a)).
  cbn [mbind option_bind fmap option_fmap option_map].
  rewrite merge_sort_singleton. unfold merge_adjacent, opcodes_of. simpl.
  rewrite (bool_decide_false (length a = 0)) by done. simpl.
  rewrite <- Hlen. rewrite (bool_decide_false (length a < length a)) by lia. simpl.
  by rewrite (bool_decide_false (length a = 0)) by done.
Qed.

End ClosedForms.

Lemma get_opcodes_self_nonempty `{Countable A} (T : list A) :
  T ≠ [] → get_opcodes T T = Some [(Equal, 0, length T, 0, length T)].
Proof.
  intros HT. apply get_opcodes_whole; [done | done |].
  apply find_longest_match_self.
Qed.

(** *** The longest block of a window

    With fewer than 200 elements in [b] no element is popular, and
    [find_longest_match] returns a longest block of equal elements of the
    window: the one that starts earliest in [a] and, among those, earliest
    in [b]. *)

Section Longest.
Context `{Countable A}.
Variables a b : list A.
Variables alo ahi blo bhi : nat.
Hypothesis Hahi : ahi ≤ length a.
Hypothesis Hbhi : bhi ≤ length b.
Hypothesis Hsmall : length b < 200.


(** The cell [(i, j)] lies in the window and holds equal elements. *)
Definition wcell (i j : nat) : Prop :=
  alo ≤ i ∧ i < ahi ∧ blo ≤ j ∧ j < bhi ∧ a !! i = b !! j.

#[local] Instance wcell_dec (i j : nat) : Decision (wcell i j).
Proof. unfold wcell. apply _. Defined.























End Longest.


(** *** From the first block to the opcodes *)








Section FirstBlock.
Context `{Countable A}.
Variables a b : list A.


End FirstBlock.

(** *** The edge cases of the opcode loop *)

Lemma opcodes_of_sentinel_insert (lb : nat) :
  0 < lb → opcodes_of [(0, lb, 0)] = [(Insert, 0, 0, 0, lb)].
Proof.
  intros Hlb. destruct lb; [lia | done].
Qed.

Lemma opcodes_of_sentinel_delete (la : nat) :
  0 < la → opcodes_of [(la, 0, 0)] = [(Delete, 0, la, 0, 0)].
Proof.
  intros Hla. destruct la; [lia | done].
Qed.

Lemma get_opcodes_empty_l `{Countable A} (b : list A) :
  b ≠ [] → get_opcodes [] b = Some [(Insert, 0, 0, 0, length b)].
Proof.
  intros Hb.
  destruct (find_longest_match_ok [] b 0 0 0 (length b)) as (m & Hm & Hok);
    [simpl; lia..|].
  rewrite (get_opcodes_no_match [] b m Hm).
  - simpl. rewrite opcodes_of_sentinel_insert; [done|]. destruct b; simpl; [done|lia].
  - destruct Hok as (_ & ? & _). simpl in *. lia.
Qed.

Lemma get_opcodes_empty_r `{Countable A} (a : list A) :
  a ≠ [] → get_opcodes a [] = Some [(Delete, 0, length a, 0, 0)].
Proof.
  intros Ha.
  destruct (find_longest_match_ok a [] 0 (length a) 0 0) as (m & Hm & Hok);
    [simpl; lia..|].
  rewrite (get_opcodes_no_match a [] m Hm).
  - simpl. rewrite opcodes_of_sentinel_delete; [done|]. destruct a; simpl; [done|lia].
  - destruct Hok as (_ & _ & _ & ? & _). simpl in *. lia.
Qed.

Lemma get_opcodes_empty `{Countable A} : get_opcodes (@nil A) [] = Some [].
Proof.
  rewrite (get_opcodes_no_match [] [] (0, 0, 0)); [done | | done].
  apply (find_longest_match_self []).
Qed.

Lemma get_opcodes_self `{Countable A} (T : list A) :
  get_opcodes T T
  = Some match T with [] => [] | _ :: _ => [(Equal, 0, length T, 0, length T)] end.
Proof.
  destruct T as [|x T]; [apply get_opcodes_empty|].
  by apply get_opcodes_self_nonempty.
Qed.

Lemma classify_equal_only (t_tokens a_tokens : list (list N)) (i1 i2 j1 j2 : nat) :
  classify t_tokens a_tokens [(Equal, i1, i2, j1, j2)] = [].
Proof. done. Qed.

Lemma tokenize_nil (is_word is_space : N → bool) : _tokenize is_word is_space [] = [].
Proof. done. Qed.

Lemma filter_Forall_all {X} (P : X → Prop) `{!∀ x, Decision (P x)} (l : list X) :
  Forall P l → filter P l = l.
Proof.
  induction 1 as [|x l Hx Hl IH]; [done|].
  by rewrite filter_cons_True, IH.
Qed.

Lemma filter_Forall_none {X} (P : X → Prop) `{!∀ x, Decision (P x)} (l : list X) :
  Forall (λ x, ¬ P x) l → filter P l = [].
Proof.
  induction 1 as [|x l Hx Hl IH]; [done|].
  by rewrite filter_cons_False.
Qed.


Lemma omap_discrepancy_length (t_tokens a_tokens : list (list N)) (ops : list Opcode) :
  length (omap (discrepancy_of t_tokens a_tokens) ops) = non_equal ops.
Proof.
  unfold non_equal. induction ops as [|op ops IH]; [done|].
  cbn [omap list_omap]. rewrite filter_cons.
  unfold discrepancy_of at 1. destruct (op_tag op) eqn:E; simpl;
    rewrite ?decide_True, ?decide_False by (rewrite ?E; congruence); simpl; by rewrite IH.
Qed.

(** *** Worked examples on ASCII text *)

Example tokenize_example :
  _tokenize ascii_word ascii_space (ascii_lower (lit "Hello, world_1!"))
  = lit <$> ["hello"; ","; "world_1"; "!"]%string.
Proof. vm_compute. reflexivity. Qed.

Example councelor_opcodes :
  align_opcodes ascii_word ascii_space ascii_lower
    (lit "The councelor spoke.") (lit "The counselor spoke")
  = Some [(Equal, 0, 1, 0, 1); (Replace, 1, 2, 1, 2);
          (Equal, 2, 3, 2, 3); (Delete, 3, 4, 3, 3)].
Proof. vm_compute. reflexivity. Qed.

Example councelor_report :
  ∃ an, align_analysis ascii_word ascii_space ascii_lower
          (lit "The councelor spoke.") (lit "The counselor spoke") = Some an ∧
        totalErrors (summary an.1) = 3 ∧
        byType (summary an.1) = {[ audio_mismatch := 2; spelling := 1 ]} ∧
        confidenceScore (summary an.1) = 0.8%float ∧
        an.2 = lit "The counselor spoke.".
Proof. eexists. split; [vm_compute; reflexivity|]. vm_compute. done. Qed.

Example greedy_first_block :
  find_longest_match (lit <$> ["a"; "b"; "z"; "c"; "d"; "x"; "y"; "w"]%string)
                     (lit <$> ["x"; "y"; "w"; "a"; "b"; "c"; "d"]%string) 0 8 0 7
  = Some (5, 0, 3).
Proof. vm_compute. reflexivity. Qed.

Example silent_audio :
  _align_stub ascii_word ascii_space ascii_lower (lit "Hello world.") []
  = Some [{| line := 1; column := 1;
             original := lit "hello world ."; suggested := remove;
             confidence := 0.75; type := audio_mismatch |}].
Proof. vm_compute. reflexivity. Qed.

(* ===================================================================== *)
(** * Part IV: the properties of the specification *)
(* ===================================================================== *)

(** C1 (as amended): aligning a non-empty token sequence against itself
    yields exactly one opcode, an Equal opcode over [0, len) on both sides;
    aligning the empty sequence against itself yields no opcode; in both
    cases classification yields no discrepancy, and so does [_align_stub]
    on a text against itself. *)
Theorem align_self_single_equal (T : list (list N)) :
  get_opcodes T T
  = Some match T with [] => [] | _ :: _ => [(Equal, 0, length T, 0, length T)] end
  ∧ (∀ t_tokens a_tokens,
       (classify t_tokens a_tokens <$> get_opcodes T T) = Some [])
  ∧ (∀ is_word is_space lower text,
       _align_stub is_word is_space lower text text = Some []).
Proof.
  split; [apply get_opcodes_self|]. split.
  - intros. rewrite get_opcodes_self. by destruct T.
  - intros. unfold _align_stub. rewrite get_opcodes_self.
    by destruct (_tokenize _ _ _).
Qed.

(** C1 (as stated) fails on the empty token sequence: there is no opcode
    at all. *)
Lemma align_self_empty_no_opcode :
  ¬ ∃ op, get_opcodes (@nil (list N)) [] = Some [op].
Proof. intros [op Hop]. rewrite get_opcodes_empty in Hop. discriminate. Qed.

(** C2: for every pair of texts the aligner returns, and its opcodes tile
    both token sequences: the first opcode starts at 0 on both sides, each
    opcode starts where the one before ended, every range runs forward, and
    the last opcode ends at the lengths of the two token sequences; so the
    ranges, side by side, give back each token sequence. *)
Theorem opcodes_cover_both_sides (is_word is_space : N → bool)
    (lower : list N → list N) (ref obs : list N) :
  let refTokens := _tokenize is_word is_space (lower ref) in
  let obsTokens := _tokenize is_word is_space (lower obs) in
  ∃ ops, align_opcodes is_word is_space lower ref obs = Some ops ∧
         tiles ops 0 0 (length refTokens) (length obsTokens) ∧
         concat ((λ op, slice refTokens (op_i1 op) (op_i2 op)) <$> ops) = refTokens ∧
         concat ((λ op, slice obsTokens (op_j1 op) (op_j2 op)) <$> ops) = obsTokens.
Proof.
  intros refTokens obsTokens. unfold align_opcodes.
  destruct (get_opcodes_ok refTokens obsTokens) as (ops & Hops & Ht & _).
  exists ops. split; [done|]. split; [done|]. split.
  - by rewrite (tiles_concat_l _ _ _ _ _ Ht).
  - by rewrite (tiles_concat_r _ _ _ _ _ Ht).
Qed.



(** C4 (as amended): for every text whose lower-cased form has at least
    one token, aligning the empty reference against it yields a single
    Insert opcode and exactly one discrepancy, with original "(missing)";
    aligning it against the empty observed text yields a single Delete
    opcode and exactly one discrepancy, with suggested "(remove)";
    aligning two empty texts yields no opcode and no discrepancy.  (The
    first hypothesis says of [str.lower] that it keeps the empty text
    empty.) *)
Theorem align_against_empty (is_word is_space : N → bool)
    (lower : list N → list N) (X : list N) :
  lower [] = [] →
  _tokenize is_word is_space (lower X) ≠ [] →
  let n := length (_tokenize is_word is_space (lower X)) in
  (align_opcodes is_word is_space lower [] X = Some [(Insert, 0, 0, 0, n)] ∧
   ∃ e, _align_stub is_word is_space lower [] X = Some [e] ∧ original e = missing) ∧
  (align_opcodes is_word is_space lower X [] = Some [(Delete, 0, n, 0, 0)] ∧
   ∃ e, _align_stub is_word is_space lower X [] = Some [e] ∧ suggested e = remove) ∧
  (align_opcodes is_word is_space lower [] [] = Some [] ∧
   _align_stub is_word is_space lower [] [] = Some []).
Proof.
  intros Hnil HX n. unfold align_opcodes, _align_stub.
  rewrite Hnil, tokenize_nil.
  rewrite (get_opcodes_empty_l _ HX), (get_opcodes_empty_r _ HX), get_opcodes_empty.
  split; [|split]; (split; [done|]).
  - eexists. split; [done|]. done.
  - eexists. split; [done|]. done.
  - done.
Qed.

(** C4 (as stated) fails on a text of one space: it is not empty, but it
    has no token, and aligning the empty reference against it yields no
    opcode. *)
Lemma align_empty_against_space_no_insert :
  ¬ ∀ X : list N, X ≠ [] →
      ∃ op, align_opcodes ascii_word ascii_space ascii_lower [] X = Some [op] ∧
            op_tag op = Insert.
Proof.
  intros Hall. destruct (Hall (lit " ")) as (op & Hop & _); [done|].
  vm_compute in Hop. discriminate.
Qed.

(** The text "hello world" against the empty text, both ways. *)
Lemma align_against_empty_witness :
  (ascii_lower [] = [] ∧
   _tokenize ascii_word ascii_space (ascii_lower (lit "hello world")) ≠ []) ∧
  let n := length (_tokenize ascii_word ascii_space (ascii_lower (lit "hello world"))) in
  (align_opcodes ascii_word ascii_space ascii_lower [] (lit "hello world")
     = Some [(Insert, 0, 0, 0, n)] ∧
   ∃ e, _align_stub ascii_word ascii_space ascii_lower [] (lit "hello world") = Some [e] ∧
        original e = missing) ∧
  (align_opcodes ascii_word ascii_space ascii_lower (lit "hello world") []
     = Some [(Delete, 0, n, 0, 0)] ∧
   ∃ e, _align_stub ascii_word ascii_space ascii_lower (lit "hello world") [] = Some [e] ∧
        suggested e = remove) ∧
  (align_opcodes ascii_word ascii_space ascii_lower [] [] = Some [] ∧
   _align_stub ascii_word ascii_space ascii_lower [] [] = Some []).
Proof.
  split; [split; [reflexivity | vm_compute; discriminate]|].
  apply (align_against_empty ascii_word ascii_space ascii_lower (lit "hello world"));
    [reflexivity | vm_compute; discriminate].
Defined.

(** C5: classification emits one discrepancy for each non-Equal opcode, in
    opcode order, and none for an Equal opcode; the discrepancy of a
    Replace or Delete opcode has the space-joined reference tokens of
    [i1,i2) cut to 80 characters as original ("(missing)" if that is empty),
    the space-joined observed tokens of [j1,j2) cut to 80 characters as
    suggested ("(remove)" if that is empty), kind audio_mismatch and
    confidence 0.75; the discrepancy of an Insert opcode has original
    "(missing)", the space-joined observed tokens cut to 80 characters as
    suggested, kind audio_mismatch and confidence 0.70; every discrepancy
    has line 1 and column 1 plus the number of discrepancies before it. *)
Theorem classify_one_per_non_equal (t_tokens a_tokens : list (list N))
    (ops : list Opcode) :
  classify t_tokens a_tokens ops = classify_spec t_tokens a_tokens ops ∧
  length (classify t_tokens a_tokens ops) = non_equal ops ∧
  (∀ n e, classify t_tokens a_tokens ops !! n = Some e →
          line e = 1 ∧ column e = 1 + n ∧ type e = audio_mismatch) ∧
  (∀ is_word is_space lower transcript_text audio_text,
     _align_stub is_word is_space lower transcript_text audio_text
     = classify_spec (_tokenize is_word is_space (lower transcript_text))
                     (_tokenize is_word is_space (lower audio_text))
       <$> align_opcodes is_word is_space lower transcript_text audio_text).
Proof.
  split; [apply classify_refines|]. split; [|split].
  - rewrite classify_refines. unfold classify_spec.
    by rewrite length_imap, omap_discrepancy_length.
  - intros n e. rewrite classify_refines.
    intros (? & ? & ? & _)%classify_spec_lookup. done.
  - intros. unfold _align_stub, align_opcodes.
    destruct (get_opcodes _ _) as [ops'|]; [|done]. simpl.
    by rewrite classify_refines.
Qed.

(** C6: for every reference text the lexical pass emits, for each entry of
    the known-error table, exactly one discrepancy (kind spelling,
    confidence 0.95, line 1, column 1) if the error form occurs in the
    text, however often, and none otherwise; its discrepancies in the
    endpoint's list are the same for every observed text. *)
Theorem lexical_flags_one_per_entry (text : list N) :
  _grammar_spell_flags text
  = flag_entry text (lit "councelor", lit "counselor") ++
    flag_entry text (lit "inadmissable", lit "inadmissible")
  ∧ filter (λ e, original e = lit "councelor") (_grammar_spell_flags text)
    = (if str_contains (lit "councelor") text
       then [spelling_item (lit "councelor") (lit "counselor")] else [])
  ∧ filter (λ e, original e = lit "inadmissable") (_grammar_spell_flags text)
    = (if str_contains (lit "inadmissable") text
       then [spelling_item (lit "inadmissable") (lit "inadmissible")] else [])
  ∧ (∀ is_word is_space lower audio_text,
       ∃ an, align_analysis is_word is_space lower text audio_text = Some an ∧
             filter (λ e, type e = spelling) (errors an.1) = _grammar_spell_flags text).
Proof.
  assert (_grammar_spell_flags text
          = flag_entry text (lit "councelor", lit "counselor") ++
            flag_entry text (lit "inadmissable", lit "inadmissible")) as Hflags.
  { rewrite flags_flat_map. unfold known_errors. simpl. by rewrite app_nil_r. }
  split; [done|]. split; [|split].
  - rewrite Hflags. unfold flag_entry. simpl.
    destruct (str_contains (lit "councelor") text),
             (str_contains (lit "inadmissable") text); done.
  - rewrite Hflags. unfold flag_entry. simpl.
    destruct (str_contains (lit "councelor") text),
             (str_contains (lit "inadmissable") text); done.
  - intros. unfold align_analysis, _align_stub.
    destruct (get_opcodes_ok (_tokenize is_word is_space (lower text))
                (_tokenize is_word is_space (lower audio_text))) as (ops & -> & _).
    simpl. eexists. split; [done|]. simpl.
    rewrite filter_app, filter_Forall_none, app_nil_l.
    + apply filter_Forall_all, flags_all_spelling.
    + eapply Forall_impl; [apply classify_all_audio|].
      intros e He Hs. simpl in *. rewrite He in Hs. discriminate.
Qed.

(** C7: for every reference text the lexical pass finds nothing in the
    corrected text: after the two replacements, in table order, neither
    error form occurs in it. *)
Theorem flags_of_corrected_empty (text : list N) :
  _grammar_spell_flags (corrected text) = [] ∧
  str_contains (lit "councelor") (corrected text) = false ∧
  str_contains (lit "inadmissable") (corrected text) = false.
Proof.
  split; [|split; [apply corrected_no_councelor | apply corrected_no_inadmissable]].
  rewrite flags_flat_map. unfold known_errors, flag_entry. simpl.
  by rewrite corrected_no_councelor, corrected_no_inadmissable.
Qed.

(** C8: the overall confidence score is 0.95 for the empty discrepancy
    list and 0.80 for every non-empty one, whatever it holds; these are its
    only two values. *)
Theorem confidence_two_valued :
  confidenceScore (summarize []) = 0.95%float ∧
  (∀ e errs, confidenceScore (summarize (e :: errs)) = 0.80%float) ∧
  (∀ errs, confidenceScore (summarize errs) = 0.95%float ∨
           confidenceScore (summarize errs) = 0.80%float) ∧
  0.80%float ≠ 0.95%float.
Proof.
  split; [done|]. split; [done|]. split.
  - intros [|e errs]; [by left | by right].
  - intros Heq. discriminate Heq.
Qed.

(** C9: for every discrepancy list, the counts of [byType] add up to
    [totalErrors], which is the length of the list, and [byType] has a key
    exactly for the kinds that occur in the list, each with its number of
    occurrences. *)
Theorem summary_counts_consistent (errs : list ErrorItem) :
  sum_values (byType (summarize errs)) = totalErrors (summarize errs) ∧
  totalErrors (summarize errs) = length errs ∧
  (∀ k, k ∈ dom (byType (summarize errs)) ↔ k ∈ type <$> errs) ∧
  (∀ k, default 0 (byType (summarize errs) !! k) = occurrences k errs).
Proof.
  simpl. split; [|split; [done|split]].
  - rewrite sum_values_foldl. unfold sum_values. by rewrite map_fold_empty.
  - intros k. rewrite elem_of_dom.
    rewrite (proj2 (lookup_count_foldl errs ∅ k)), lookup_empty, list_elem_of_fmap.
    split.
    + intros [[? [=]]|(e & ? & ?)]. eauto.
    + intros (e & ? & ?). right. eauto.
  - intros k. rewrite (proj1 (lookup_count_foldl errs ∅ k)), lookup_empty. done.
Qed.

(** C10: the known-error table is matched case-sensitively: a reference
    text in which no error form occurs in its exact case is not flagged and
    is left as it is by the corrector, although the alignment compares the
    lower-cased texts, so that texts with the same lower-cased form align
    alike. *)
Theorem known_errors_case_sensitive (is_word is_space : N → bool)
    (lower : list N → list N) (text : list N) :
  str_contains (lit "councelor") text = false →
  str_contains (lit "inadmissable") text = false →
  _grammar_spell_flags text = [] ∧
  corrected text = text ∧
  (∀ text' audio_text, lower text' = lower text →
     _align_stub is_word is_space lower text' audio_text
     = _align_stub is_word is_space lower text audio_text).
Proof.
  intros H1 H2. split; [|split].
  - rewrite flags_flat_map. unfold known_errors, flag_entry. simpl. by rewrite H1, H2.
  - unfold corrected. rewrite (str_replace_absent (lit "councelor")) by done.
    by rewrite str_replace_absent.
  - intros text' audio_text Hl. unfold _align_stub. by rewrite Hl.
Qed.

(** "Councelor" is neither flagged nor altered, and it aligns with
    "councelor" without discrepancy. *)
Lemma known_errors_case_sensitive_witness :
  (str_contains (lit "councelor") (lit "Councelor") = false ∧
   str_contains (lit "inadmissable") (lit "Councelor") = false) ∧
  (_grammar_spell_flags (lit "Councelor") = [] ∧
   corrected (lit "Councelor") = lit "Councelor" ∧
   (∀ text' audio_text, ascii_lower text' = ascii_lower (lit "Councelor") →
      _align_stub ascii_word ascii_space ascii_lower text' audio_text
      = _align_stub ascii_word ascii_space ascii_lower (lit "Councelor") audio_text)).
Proof.
  split; [split; vm_compute; reflexivity|].
  apply (known_errors_case_sensitive ascii_word ascii_space ascii_lower (lit "Councelor"));
    vm_compute; reflexivity.
Defined.

(* ===================================================================== *)
(** * Part V: lemmas on the rest of the program *)
(* ===================================================================== *)

(** ** The tokenizer *)

Section Tokenizer.
Variables is_word is_space : N → bool.

Lemma findall_nonword (c : N) (cur s1 s2 : list N) :
  is_word c = false →
  findall is_word is_space cur (s1 ++ c :: s2)
  = findall is_word is_space cur s1 ++ (if is_space c then [] else [[c]])
    ++ findall is_word is_space [] s2.
Proof.
  intros Hc. revert cur. induction s1 as [|x s1 IH]; intros cur.
  - cbn [app findall]. by rewrite Hc.
  - cbn [app findall]. destruct (is_word x); [apply IH|].
    rewrite IH. by rewrite <- !app_assoc.
Qed.

Lemma findall_word_run (cur w : list N) :
  Forall (λ c, is_word c = true) w →
  findall is_word is_space cur w = flush (cur ++ w).
Proof.
  intros Hw. revert cur. induction Hw as [|c w Hc Hw IH]; intros cur.
  - by rewrite app_nil_r.
  - cbn [findall]. rewrite Hc, IH. by rewrite <- app_assoc.
Qed.

Lemma findall_token (cur s : list N) :
  Forall (λ c, is_word c = true) cur →
  Forall (token is_word is_space) (findall is_word is_space cur s).
Proof.
  revert cur. induction s as [|c s IH]; intros cur Hcur.
  - cbn [findall]. destruct cur as [|x cur]; [constructor|].
    constructor; [|constructor]. by left.
  - cbn [findall]. destruct (is_word c) eqn:Hw.
    + apply IH. apply Forall_app. split; [done|]. by constructor.
    + apply Forall_app. split.
      { destruct cur as [|x cur]; [constructor|].
        constructor; [|constructor]. by left. }
      apply Forall_app. split; [|by apply IH].
      destruct (is_space c) eqn:Hs; [constructor|].
      constructor; [|constructor]. right. by exists c.
Qed.

Lemma concat_flush (cur : list N) : concat (flush cur) = cur.
Proof. destruct cur; [done|]. simpl. by rewrite app_nil_r. Qed.

Lemma findall_concat (cur s : list N) :
  concat (findall is_word is_space cur s)
  = cur ++ filter (λ c, kept is_word is_space c = true) s.
Proof.
  revert cur. induction s as [|c s IH]; intros cur.
  - cbn [findall]. by rewrite concat_flush, app_nil_r.
  - cbn [findall]. rewrite filter_cons.
    destruct (is_word c) eqn:Hw.
    + rewrite IH. rewrite decide_True by (unfold kept; by rewrite Hw).
      by rewrite <- app_assoc.
    + rewrite !concat_app, concat_flush, IH.
      destruct (is_space c) eqn:Hs.
      * by rewrite decide_False by (unfold kept; by rewrite Hw, Hs).
      * by rewrite decide_True by (unfold kept; by rewrite Hw, Hs).
Qed.

Lemma token_nonempty (t : list N) : token is_word is_space t → t ≠ [].
Proof. intros [[? _]|(c & -> & _)]; done. Qed.

Lemma tokenize_token (t : list N) :
  token is_word is_space t → _tokenize is_word is_space t = [t].
Proof.
  unfold _tokenize. intros [[Hne Hw]|(c & -> & Hw & Hs)].
  - rewrite findall_word_run by done. by destruct t.
  - simpl. by rewrite Hw, Hs.
Qed.

Lemma tokenize_join (toks : list (list N)) :
  is_word 32%N = false → is_space 32%N = true →
  Forall (token is_word is_space) toks →
  _tokenize is_word is_space (str_join space toks) = toks.
Proof.
  intros Hw Hs. induction 1 as [|t toks Ht Htoks IH]; [done|].
  destruct toks as [|t' toks]; [by apply tokenize_token|].
  change (str_join space (t :: t' :: toks))
    with (t ++ 32%N :: str_join space (t' :: toks)).
  pose proof (tokenize_token t Ht) as Et.
  unfold _tokenize in *. rewrite findall_nonword by done.
  by rewrite Hs, IH, Et.
Qed.

Lemma lstrip_split (s : list N) :
  ∃ t, s = t ++ lstrip is_space s ∧ Forall (λ c, is_space c = true) t.
Proof.
  induction s as [|c s (t & IH & Ht)]; [by exists []|].
  cbn [lstrip]. destruct (is_space c) eqn:Hc.
  - exists (c :: t). split; [by rewrite IH at 1|by constructor].
  - by exists [].
Qed.

Lemma lstrip_head (s : list N) :
  match lstrip is_space s with
  | [] => True
  | c :: _ => is_space c = false
  end.
Proof.
  induction s as [|c s IH]; [done|].
  cbn [lstrip]. by destruct (is_space c) eqn:Hc.
Qed.

Lemma strip_split (s : list N) :
  ∃ l r, s = l ++ strip is_space s ++ r ∧
         Forall (λ c, is_space c = true) l ∧ Forall (λ c, is_space c = true) r.
Proof.
  destruct (lstrip_split s) as (l & Hl & Hls).
  destruct (lstrip_split (reverse (lstrip is_space s))) as (r & Hr & Hrs).
  exists l, (reverse r). split; [|split; [done|]].
  - unfold strip, rstrip. rewrite Hl at 1. f_equal.
    rewrite <- reverse_app, <- Hr. by rewrite reverse_involutive.
  - by apply Forall_reverse.
Qed.

Lemma findall_spaces_l (t s : list N) :
  Forall (λ c, is_space c = true ∧ is_word c = false) t →
  findall is_word is_space [] (t ++ s) = findall is_word is_space [] s.
Proof.
  induction 1 as [|c t [Hs Hw] _ IH]; [done|].
  cbn [app findall]. by rewrite Hw, Hs.
Qed.

Lemma findall_spaces_r (cur s t : list N) :
  Forall (λ c, is_space c = true ∧ is_word c = false) t →
  findall is_word is_space cur (s ++ t) = findall is_word is_space cur s.
Proof.
  intros Ht. revert cur s. induction Ht as [|c t [Hs Hw] _ IH]; intros cur s.
  - by rewrite app_nil_r.
  - rewrite findall_nonword by done. rewrite Hs. cbn [app].
    specialize (IH [] []). cbn [app] in IH. rewrite IH. cbn [findall flush].
    by rewrite app_nil_r.
Qed.
End Tokenizer.

(** ** Equal and non-Equal opcodes take turns *)

(** [m2] starts where [m1] ends, on both sides. *)
Definition adjacent (m1 m2 : Match) : Prop :=
  m1.1.1 + m1.2 = m2.1.1 ∧ m1.1.2 + m1.2 = m2.1.2.

(** No block starts where the block before it ends. *)
Definition gapped (l : list Match) : Prop :=
  ∀ n m1 m2, l !! n = Some m1 → l !! S n = Some m2 → ¬ adjacent m1 m2.

Lemma gapped_snoc (l : list Match) (m x : Match) :
  gapped (l ++ [m]) → ¬ adjacent m x → gapped ((l ++ [m]) ++ [x]).
Proof.
  intros Hg Hx n m1 m2 H1 H2.
  destruct (decide (S n < length (l ++ [m]))) as [Hlt|Hge].
  - rewrite lookup_app_l in H1, H2 by lia. by eapply Hg.
  - assert (n < length (l ++ [m])) as Hn.
    { apply lookup_lt_Some in H2. rewrite length_app in H2. simpl in H2. lia. }
    rewrite lookup_app_l in H1 by lia.
    rewrite lookup_app_r in H2 by lia.
    rewrite length_app in Hn, Hge, H2. simpl in Hn, Hge, H2.
    replace (S n - (length l + 1)) with 0 in H2 by lia. simpl in H2.
    rewrite lookup_app_r in H1 by lia.
    replace (n - length l) with 0 in H1 by lia. simpl in H1.
    by simplify_eq.
Qed.

Lemma gapped_last (l : list Match) (m m' : Match) :
  gapped (l ++ [m]) → m.1 = m'.1 → gapped (l ++ [m']).
Proof.
  intros Hg Hs n m1 m2 H1 H2.
  assert (S n < length l + 1) as Hn.
  { apply lookup_lt_Some in H2. by rewrite length_app in H2. }
  rewrite lookup_app_l in H1 by lia.
  destruct (decide (S n < length l)) as [Hlt|Hge].
  - rewrite lookup_app_l in H2 by lia.
    eapply (Hg n m1 m2); by rewrite lookup_app_l by lia.
  - rewrite lookup_app_r in H2 by lia.
    replace (S n - length l) with 0 in H2 by lia. simpl in H2. simplify_eq.
    intros [Ha Hb]. eapply (Hg n m1 m).
    + by rewrite lookup_app_l by lia.
    + rewrite lookup_app_r by lia.
      by replace (S n - length l) with 0 by lia.
    + unfold adjacent. by rewrite Hs.
Qed.

Lemma gapped_tail (m : Match) (l : list Match) : gapped (m :: l) → gapped l.
Proof. intros Hg n m1 m2 H1 H2. by apply (Hg (S n) m1 m2). Qed.

(** The loop that merges adjacent blocks leaves non-empty blocks, none of
    which starts where the one before ends. *)
Lemma merge_foldl_gapped (l : list Match) (st : Match * list Match) :
  Forall (λ m, 0 < m.2) l →
  Forall (λ m, 0 < m.2) st.2 → (st.1.2 = 0 → st.2 = []) → gapped (st.2 ++ [st.1]) →
  let st' := foldl merge_step st l in
  Forall (λ m, 0 < m.2) st'.2 ∧ (st'.1.2 = 0 → st'.2 = []) ∧ gapped (st'.2 ++ [st'.1]).
Proof.
  intros Hl. revert st. induction Hl as [|m l Hm Hl IH]; intros st Hpos Hz Hg; [done|].
  cbn [foldl]. apply IH; clear IH; destruct st as [[[i1 j1] k1] na], m as [[i2 j2] k2];
    simpl in *; unfold merge_step;
    destruct (bool_decide (i1 + k1 = i2) && bool_decide (j1 + k1 = j2)) eqn:Hadj;
    simpl; try done; try lia.
  - clear Hadj. case_bool_decide; [done|]. apply Forall_app. split; [done|].
    constructor; [simpl; lia|constructor].
  - by eapply gapped_last.
  - assert (¬ adjacent (i1, j1, k1) (i2, j2, k2)) as Hna.
    { unfold adjacent. simpl. intros [? ?].
      rewrite !bool_decide_eq_true_2 in Hadj by done. done. }
    clear Hadj. case_bool_decide.
    + rewrite Hz by done. intros [|n] ? ? ? ?; done.
    + by apply gapped_snoc.
Qed.

Lemma merge_adjacent_gapped (l : list Match) :
  Forall (λ m, 0 < m.2) l →
  Forall (λ m, 0 < m.2) (merge_adjacent l) ∧ gapped (merge_adjacent l).
Proof.
  intros Hl. unfold merge_adjacent.
  destruct (merge_foldl_gapped l ((0, 0, 0), []) Hl) as (Hp & Hz & Hg).
  - constructor.
  - done.
  - intros [|n] ? ? ? ?; done.
  - destruct (foldl merge_step (0, 0, 0, []) l) as [[[i1 j1] k1] na]. simpl in *.
    case_bool_decide.
    + rewrite Hz by done. split; [constructor|]. intros [|n] ? ? ? ?; done.
    + split; [|done]. apply Forall_app. split; [done|].
      constructor; [simpl; lia|constructor].
Qed.

(** What the opcode loop needs of the blocks still to come, at position
    [(i, j)]: an empty block is the last one, and after an Equal opcode a
    non-empty block does not start at the position. *)
Fixpoint spaced (after_equal : bool) (i j : nat) (l : list Match) : Prop :=
  match l with
  | [] => True
  | m :: l' =>
      (m.2 = 0 → l' = []) ∧
      (after_equal = true → m.2 ≠ 0 → ¬ (i = m.1.1 ∧ j = m.1.2)) ∧
      spaced true (m.1.1 + m.2) (m.1.2 + m.2) l'
  end.

Lemma gapped_spaced (l : list Match) (p : bool) (i j : nat) (s : Match) :
  Forall (λ m, 0 < m.2) l → gapped l → s.2 = 0 →
  (p = true → match l with [] => True | m :: _ => ¬ (i = m.1.1 ∧ j = m.1.2) end) →
  spaced p i j (l ++ [s]).
Proof.
  intros Hl. revert p i j. induction Hl as [|m l Hm Hl IH]; intros p i j Hg Hs Hp.
  - simpl. done.
  - cbn [app spaced]. split; [lia|]. split; [by intros; apply Hp|].
    apply IH; [by eapply gapped_tail|done|]. intros _.
    destruct l as [|m' l]; [done|].
    intros [? ?]. by apply (Hg 0 m m').
Qed.

Lemma alternates_after_app (p : option bool) (xs ys : list Opcode) :
  alternates_after p (xs ++ ys)
  ↔ alternates_after p xs ∧
    alternates_after (foldl (λ _ op, Some (is_equal op)) p xs) ys.
Proof.
  revert p. induction xs as [|x xs IH]; intros p; simpl; [tauto|].
  rewrite IH. tauto.
Qed.

Section OpcodeShape.
Context `{Countable A}.
Variables a b : list A.

Lemma opcodes_foldl_alternates (blocks : list Match) (p : bool) (i j : nat)
    (answer : list Opcode) :
  chain a b i j blocks → spaced p i j blocks →
  ∃ new, (foldl opcode_step (i, j, answer) blocks).2 = answer ++ new ∧
         alternates_after (if p then Some true else None) new.
Proof.
  revert p i j answer. induction blocks as [|m blocks IH]; intros p i j answer.
  - intros _ _. exists []. simpl. by rewrite app_nil_r.
  - destruct m as [[ai bj] size]. cbn [chain foldl spaced fst snd].
    intros (Hi & Hj & _ & Hc) (Hlast & Hgap & Hsp).
    set (gap := if bool_decide (i < ai) && bool_decide (j < bj) then Some Replace
                else if bool_decide (i < ai) then Some Delete
                else if bool_decide (j < bj) then Some Insert else None).
    set (ops1 := match gap with Some t => [(t, i, ai, j, bj)] | None => [] end).
    set (ops2 := if bool_decide (size = 0) then []
                 else [(Equal, ai, ai + size, bj, bj + size)]).
    assert (opcode_step (i, j, answer) (ai, bj, size)
            = (ai + size, bj + size, (answer ++ ops1) ++ ops2)) as ->.
    { unfold opcode_step, ops1, ops2, gap.
      repeat case_bool_decide; simpl; by rewrite ?app_nil_r. }
    assert (∀ t, gap = Some t → is_equal (t, i, ai, j, bj) = false) as Hne.
    { unfold gap. intros t. repeat case_bool_decide; simpl; by intros [= <-]. }
    assert (p = true → size ≠ 0 → gap ≠ None) as Hsome.
    { unfold gap. intros Hp Hsz. repeat case_bool_decide; simpl; try done.
      exfalso. apply Hgap; [done|done|lia]. }
    assert (alternates_after (if p then Some true else None) ops1) as Ha1.
    { unfold ops1. destruct gap as [t|]; [|done]. simpl.
      rewrite (Hne t eq_refl). by destruct p. }
    destruct (decide (size = 0)) as [->|Hsz].
    + rewrite (Hlast eq_refl). cbn [foldl snd].
      exists ops1. split; [|done].
      unfold ops2. rewrite bool_decide_eq_true_2 by done. by rewrite app_nil_r.
    + destruct (IH true (ai + size) (bj + size) ((answer ++ ops1) ++ ops2) Hc Hsp)
        as (new & Hf & Ha).
      exists (ops1 ++ ops2 ++ new). split; [by rewrite Hf, !app_assoc|].
      unfold ops2 in *. rewrite bool_decide_eq_false_2 by done.
      apply alternates_after_app. split; [done|].
      cbn [app alternates_after]. split; [|done].
      unfold ops1. destruct gap as [t|] eqn:Egap; simpl.
      * by rewrite (Hne t eq_refl).
      * destruct p; [|done]. by destruct (Hsome eq_refl Hsz).
Qed.

#[local] Existing Instance Match_le_trans.
#[local] Existing Instance Match_le_total.

(** [get_matching_blocks] returns a chain of non-empty blocks, none of
    which starts where the one before ends, and then the sentinel. *)
Lemma get_matching_blocks_gapped :
  ∃ l, get_matching_blocks a b = Some (l ++ [(length a, length b, 0)]) ∧
       chain a b 0 0 (l ++ [(length a, length b, 0)]) ∧
       Forall (λ m, 0 < m.2) l ∧ gapped l.
Proof.
  unfold get_matching_blocks.
  destruct (blocks_loop_ok a b (S (2 * length a)) [(0, length a, 0, length b)] [])
    as (res & -> & Hv & Hsep).
  - repeat constructor; simpl; lia.
  - constructor.
  - simpl. repeat constructor.
  - simpl. lia.
  - cbn [mbind option_bind]. eexists. split; [done|]. split.
    + apply merge_adjacent_chain, sorted_chain; try lia.
      * apply StronglySorted_merge_sort; apply _.
      * by rewrite merge_sort_Permutation.
      * eapply all_sep_perm; [|exact Hsep].
        by rewrite merge_sort_Permutation.
    + apply merge_adjacent_gapped.
      rewrite merge_sort_Permutation.
      eapply Forall_impl; [exact Hv|]. by intros m [? _].
Qed.

(** [get_opcodes] returns opcodes that tile both sequences, are
    consistent with their tags, and in which Equal and non-Equal opcodes
    take turns. *)
Lemma get_opcodes_shape :
  ∃ ops, get_opcodes a b = Some ops ∧
         tiles ops 0 0 (length a) (length b) ∧ Forall (op_ok a b) ops ∧
         alternates ops.
Proof.
  unfold get_opcodes.
  destruct get_matching_blocks_gapped as (l & -> & Hc & Hp & Hg).
  destruct (opcodes_foldl a b _ 0 0 [] Hc) as (new & Hf & Ht & Ho).
  destruct (opcodes_foldl_alternates _ false 0 0 [] Hc) as (new' & Hf' & Ha).
  { by apply gapped_spaced. }
  rewrite Hf in Hf'. simpl in Hf'. subst new'.
  rewrite chain_end_snoc in Hf, Ht. simpl in Hf, Ht.
  rewrite !Nat.add_0_r in Ht.
  exists new. cbn [fmap option_fmap option_map]. unfold opcodes_of. rewrite Hf. done.
Qed.
End OpcodeShape.

(** Where Equal and non-Equal opcodes take turns, their numbers differ by
    at most one. *)
Lemma alternates_after_count (p : option bool) (ops : list Opcode) :
  alternates_after p ops →
  (p = Some false → non_equal ops ≤ equal_ops ops) ∧
  (p = Some true → equal_ops ops ≤ non_equal ops) ∧
  non_equal ops ≤ equal_ops ops + 1 ∧ equal_ops ops ≤ non_equal ops + 1.
Proof.
  revert p. induction ops as [|op ops IH]; intros p.
  { intros _. unfold non_equal, equal_ops. rewrite !filter_nil. simpl. lia. }
  cbn [alternates_after]. intros [Hp Ha].
  destruct (IH _ Ha) as (IH1 & IH2 & IH3 & IH4).
  assert (non_equal (op :: ops) = (if is_equal op then 0 else 1) + non_equal ops ∧
          equal_ops (op :: ops) = (if is_equal op then 1 else 0) + equal_ops ops)
    as [-> ->].
  { unfold non_equal, equal_ops, is_equal. rewrite !filter_cons.
    destruct (op_tag op) eqn:E;
      rewrite ?decide_True, ?decide_False by congruence; done. }
  destruct (is_equal op).
  - specialize (IH2 eq_refl). repeat split; try lia. by intros ->.
  - specialize (IH1 eq_refl). repeat split; try lia. by intros ->.
Qed.

(** The Equal ranges fit in both sequences. *)
Lemma matched_le {A} (a b : list A) (ops : list Opcode) (i j i' j' : nat) :
  tiles ops i j i' j' → Forall (op_ok a b) ops →
  i ≤ i' ∧ j ≤ j' ∧ matched ops ≤ i' - i ∧ matched ops ≤ j' - j.
Proof.
  revert i j. induction ops as [|op ops IH]; intros i j.
  - simpl. intros [-> ->] _. unfold matched. simpl. lia.
  - cbn [tiles]. intros (Hi & Hj & Hi2 & Hj2 & Ht) [Ho Hos]%Forall_cons.
    destruct (IH _ _ Ht Hos) as (? & ? & ? & ?).
    unfold matched in *. cbn [fmap list_fmap sum_list sum_list_with].
    unfold op_ok in Ho. destruct (op_tag op) eqn:E; simpl;
      rewrite ?decide_True, ?decide_False by congruence; lia.
Qed.

Lemma equal_ops_le_matched {A} (a b : list A) (ops : list Opcode) :
  Forall (op_ok a b) ops → equal_ops ops ≤ matched ops.
Proof.
  induction 1 as [|op ops Ho _ IH]; [done|].
  unfold equal_ops, matched in *. rewrite filter_cons.
  cbn [fmap list_fmap sum_list sum_list_with].
  unfold op_ok in Ho. destruct (op_tag op) eqn:E; simpl;
    rewrite ?decide_True, ?decide_False by congruence; simpl; lia.
Qed.

(** ** The fields of a discrepancy *)

Lemma tiles_bounds (ops : list Opcode) (i j i' j' : nat) (op : Opcode) :
  tiles ops i j i' j' → op ∈ ops →
  i ≤ op_i1 op ∧ op_i2 op ≤ i' ∧ j ≤ op_j1 op ∧ op_j2 op ≤ j'.
Proof.
  revert i j. induction ops as [|x ops IH]; intros i j Ht Hin.
  - by apply elem_of_nil in Hin.
  - cbn [tiles] in Ht. destruct Ht as (Hi & Hj & Hi2 & Hj2 & Ht).
    apply elem_of_cons in Hin as [->|Hin].
    + apply tiles_le in Ht. lia.
    + destruct (IH _ _ Ht Hin) as (? & ? & ? & ?). lia.
Qed.

Lemma slice_nil {X} (l : list X) (i1 i2 : nat) : i2 ≤ i1 → slice l i1 i2 = [].
Proof. intros Hle. unfold slice. by replace (i2 - i1) with 0 by lia. Qed.

Lemma slice_cons {X} (l : list X) (i1 i2 : nat) :
  i1 < i2 → i2 ≤ length l → ∃ x rest, slice l i1 i2 = x :: rest.
Proof.
  intros Hlt Hle. unfold slice.
  destruct (drop i1 l) as [|x xs] eqn:E.
  - apply (f_equal length) in E. rewrite length_drop in E. simpl in E. lia.
  - destruct (i2 - i1) as [|k] eqn:Ek; [lia|]. by exists x, (take k xs).
Qed.

Lemma slice_Forall {X} (P : X → Prop) (l : list X) (i1 i2 : nat) :
  Forall P l → Forall P (slice l i1 i2).
Proof. intros Hl. unfold slice. by apply Forall_take, Forall_drop. Qed.

Lemma str_join_cons (sep t : list N) (rest : list (list N)) :
  str_join sep (t :: rest)
  = t ++ match rest with [] => [] | _ :: _ => sep ++ str_join sep rest end.
Proof. destruct rest; [by rewrite app_nil_r | done]. Qed.

Section Fields.
Variables is_word is_space : N → bool.

(** A joined run of tokens starts with a character of its first token,
    and a token that starts with a non-word character ends there. *)
Lemma join_head (toks : list (list N)) (n : nat) :
  Forall (token is_word is_space) toks → toks ≠ [] →
  ∃ c r, take (S n) (str_join space toks) = c :: r ∧
         (is_word c = false →
          r = [] ∨ ∃ r', r = 32%N :: r').
Proof.
  intros Ht Hne. destruct Ht as [|t toks Ht Hts]; [done|].
  rewrite str_join_cons.
  destruct Ht as [[Hn Hw]|(c & -> & Hw & Hs)].
  - destruct t as [|c t]; [done|]. cbn [app take]. eexists _, _. split; [done|].
    apply Forall_cons in Hw as [Hc _]. congruence.
  - cbn [app take]. eexists _, _. split; [done|]. intros _.
    destruct toks as [|t' toks]; [left; by destruct n|].
    destruct n; [by left|]. right. by eexists.
Qed.

Lemma join_nonempty (toks : list (list N)) :
  Forall (token is_word is_space) toks → toks ≠ [] →
  take 80 (str_join space toks) ≠ [].
Proof.
  intros Ht Hne. destruct (join_head toks 79 Ht Hne) as (c & r & -> & _). done.
Qed.

(** Where [(] is not a word character, joined tokens never give a
    parenthesised word such as the placeholders. *)
Lemma join_not_placeholder (toks : list (list N)) (c : N) (w : list N) :
  is_word 40%N = false → c ≠ 32%N →
  Forall (token is_word is_space) toks →
  take 80 (str_join space toks) ≠ 40%N :: c :: w.
Proof.
  intros Hp Hc Ht. destruct toks as [|t toks]; [done|].
  destruct (join_head (t :: toks) 79 Ht) as (x & r & -> & Hx); [done|].
  intros [= -> ->]. destruct (Hx Hp) as [?|[? ?]]; congruence.
Qed.

Variables t_tokens a_tokens : list (list N).
Hypothesis t_tokens_ok : Forall (token is_word is_space) t_tokens.
Hypothesis a_tokens_ok : Forall (token is_word is_space) a_tokens.

Lemma discrepancy_fields (op : Opcode) (f : nat → ErrorItem) (col : nat) :
  op_ok t_tokens a_tokens op →
  op_i2 op ≤ length t_tokens → op_j2 op ≤ length a_tokens →
  discrepancy_of t_tokens a_tokens op = Some f →
  (1 ≤ length (original (f col)) ≤ 80) ∧ (1 ≤ length (suggested (f col)) ≤ 80).
Proof.
  intros Hok Hi Hj. unfold discrepancy_of, op_ok in *.
  set (o := take 80 (str_join space (slice t_tokens (op_i1 op) (op_i2 op)))).
  set (s := take 80 (str_join space (slice a_tokens (op_j1 op) (op_j2 op)))).
  assert (length o ≤ 80) as Ho by (unfold o; rewrite length_take; lia).
  assert (length s ≤ 80) as Hs by (unfold s; rewrite length_take; lia).
  assert (0 < length missing ≤ 80 ∧ 0 < length remove ≤ 80) as [Hm Hr]
    by (vm_compute; lia).
  assert (∀ x : list N, x ≠ [] → 0 < length x) as Hpos
    by (intros [|??] ?; simpl; [done|lia]).
  assert (1 ≤ length (if decide (o = []) then missing else o) ≤ 80) as Ho'.
  { destruct (decide (o = [])); [lia|]. split; [by apply Hpos|done]. }
  assert (1 ≤ length (if decide (s = []) then remove else s) ≤ 80) as Hs'.
  { destruct (decide (s = [])); [lia|]. split; [by apply Hpos|done]. }
  destruct (op_tag op); intros [= <-]; cbn [original suggested]; try done.
  (* an insertion has a non-empty range of heard tokens *)
  split; [lia|]. split; [|done]. apply Hpos. unfold s.
  destruct (slice_cons a_tokens (op_j1 op) (op_j2 op)) as (x & rest & E); [lia|lia|].
  apply join_nonempty; [by apply slice_Forall | by rewrite E].
Qed.

Lemma discrepancy_placeholders (op : Opcode) (f : nat → ErrorItem) (col : nat) :
  is_word 40%N = false →
  op_ok t_tokens a_tokens op →
  op_i2 op ≤ length t_tokens → op_j2 op ≤ length a_tokens →
  discrepancy_of t_tokens a_tokens op = Some f →
  (original (f col) = missing ↔ op_tag op = Insert) ∧
  (suggested (f col) = remove ↔ op_tag op = Delete).
Proof.
  intros Hp Hok Hi Hj. unfold discrepancy_of, op_ok in *.
  set (o := take 80 (str_join space (slice t_tokens (op_i1 op) (op_i2 op)))).
  set (s := take 80 (str_join space (slice a_tokens (op_j1 op) (op_j2 op)))).
  assert (op_i1 op < op_i2 op → o ≠ [] ∧ o ≠ missing) as Ho.
  { intros Hlt. unfold o.
    destruct (slice_cons t_tokens (op_i1 op) (op_i2 op)) as (x & rest & E); [lia|lia|].
    split.
    - apply join_nonempty; [by apply slice_Forall | by rewrite E].
    - apply join_not_placeholder; [done|done|by apply slice_Forall]. }
  assert (op_j1 op < op_j2 op → s ≠ [] ∧ s ≠ remove) as Hs.
  { intros Hlt. unfold s.
    destruct (slice_cons a_tokens (op_j1 op) (op_j2 op)) as (x & rest & E); [lia|lia|].
    split.
    - apply join_nonempty; [by apply slice_Forall | by rewrite E].
    - apply join_not_placeholder; [done|done|by apply slice_Forall]. }
  assert (op_j1 op = op_j2 op → s = []) as Hs0.
  { intros Heq. unfold s. by rewrite slice_nil by lia. }
  destruct (op_tag op) eqn:E; intros [= <-]; simpl.
  - destruct Hok as [Hlt1 Hlt2]. destruct (Ho Hlt1), (Hs Hlt2).
    rewrite !decide_False by done. split; split; done.
  - destruct Hok as [Hlt1 Heq]. destruct (Ho Hlt1).
    rewrite decide_False by done. rewrite decide_True by auto. split; split; done.
  - destruct Hok as [Heq Hlt2]. destruct (Hs Hlt2). split; split; done.
Qed.
End Fields.

(** ** The corrector *)

Lemma startswith_length (p s : list N) :
  startswith p s = true → length p ≤ length s.
Proof.
  intros (r & ->)%startswith_spec. rewrite length_app. lia.
Qed.

(** Replacing by a string of the same length keeps the length. *)
Lemma replace_scan_length (old new : list N) (s : list N) :
  length new = length old → old ≠ [] →
  length (replace_scan old new 0 s) = length s.
Proof.
  intros Hlen Hne.
  induction s as [s IH] using (induction_ltof1 _ (@length N)). unfold ltof in IH.
  destruct s as [|c s]; [done|]. cbn [replace_scan].
  destruct (startswith old (c :: s)) eqn:Hs.
  - apply startswith_length in Hs. simpl in Hs.
    rewrite replace_scan_skip, length_app, IH by (rewrite length_drop; simpl; lia).
    rewrite length_drop. simpl.
    destruct old; [done|]. simpl in *. lia.
  - simpl. rewrite IH by (simpl; lia). done.
Qed.

Lemma corrected_length (text : list N) : length (corrected text) = length text.
Proof.
  unfold corrected. rewrite !str_replace_scan by done.
  by rewrite !replace_scan_length by done.
Qed.

Lemma corrected_absent (text : list N) :
  str_contains (lit "councelor") text = false →
  str_contains (lit "inadmissable") text = false →
  corrected text = text.
Proof.
  intros H1 H2. unfold corrected.
  rewrite (str_replace_absent (lit "councelor")) by done.
  by rewrite str_replace_absent by done.
Qed.

Lemma flags_nil_iff (text : list N) :
  _grammar_spell_flags text = [] ↔
  str_contains (lit "councelor") text = false ∧
  str_contains (lit "inadmissable") text = false.
Proof.
  rewrite flags_flat_map. unfold known_errors, flag_entry. cbn [flat_map fst snd].
  destruct (str_contains (lit "councelor") text),
           (str_contains (lit "inadmissable") text); simpl; split; try done;
    intros [? ?]; done.
Qed.

Lemma flags_length (text : list N) : length (_grammar_spell_flags text) ≤ 2.
Proof.
  rewrite flags_flat_map. unfold known_errors, flag_entry. cbn [flat_map fst snd].
  destruct (str_contains (lit "councelor") text),
           (str_contains (lit "inadmissable") text); simpl; lia.
Qed.

(** ** A report without discrepancies *)

Lemma non_equal_nil_Forall (ops : list Opcode) :
  non_equal ops = 0 → Forall (λ op, op_tag op = Equal) ops.
Proof.
  unfold non_equal. induction ops as [|op ops IH]; [constructor|].
  rewrite filter_cons. destruct (decide (op_tag op ≠ Equal)) as [Hne|He]; [done|].
  intros Hl. constructor; [|by apply IH].
  by destruct (decide (op_tag op = Equal)).
Qed.

Section AllEqual.
Context `{Countable A}.
Variables a b : list A.

Lemma all_equal_eq (ops : list Opcode) :
  tiles ops 0 0 (length a) (length b) → Forall (op_ok a b) ops →
  Forall (λ op, op_tag op = Equal) ops → a = b.
Proof.
  intros Ht Ho He.
  rewrite <- (drop_0 a), <- (drop_0 b).
  rewrite <- (tiles_concat_l a ops 0 0 (length b)) by done.
  rewrite <- (tiles_concat_r b ops 0 0 (length a)) by done.
  f_equal. apply Forall_fmap_ext.
  assert (Forall (λ op, op_ok a b op ∧ op_tag op = Equal) ops) as Hboth
    by (by apply Forall_and).
  eapply Forall_impl; [exact Hboth|].
  intros op [Hok Heq]. simpl in *. unfold op_ok in Hok. rewrite Heq in Hok.
  destruct Hok as (Hlt & Hsz & Hb). apply (block_eq_slice a b) in Hb.
  replace (op_i1 op + (op_i2 op - op_i1 op)) with (op_i2 op) in Hb by lia.
  replace (op_j1 op + (op_i2 op - op_i1 op)) with (op_j2 op) in Hb by lia.
  done.
Qed.

(** [get_opcodes] has no opcode other than Equal exactly when the two
    sequences are the same. *)
Lemma get_opcodes_non_equal_nil :
  ∃ ops, get_opcodes a b = Some ops ∧ (non_equal ops = 0 ↔ a = b).
Proof.
  destruct (get_opcodes_ok a b) as (ops & Hops & Ht & Ho).
  exists ops. split; [done|]. split.
  - intros Hn. eapply all_equal_eq; [done|done|]. by apply non_equal_nil_Forall.
  - intros <-. rewrite get_opcodes_self in Hops. injection Hops as <-.
    by destruct a.
Qed.
End AllEqual.

(** ** Splitting into paragraphs *)

Lemma split_scan_skip (sep : list N) (k : nat) (cur s : list N) :
  split_scan sep k cur s = split_scan sep 0 cur (drop k s).
Proof.
  revert s. induction k as [|k IH]; intros s; [done|].
  destruct s as [|c s]; [done|]. simpl. apply IH.
Qed.

Lemma split_scan_nonempty (sep : list N) (k : nat) (cur s : list N) :
  split_scan sep k cur s ≠ [].
Proof.
  revert k cur. induction s as [|c s IH]; intros k cur; [done|].
  cbn [split_scan]. destruct k; [|apply IH].
  destruct (startswith sep (c :: s)); [done|apply IH].
Qed.

Lemma str_join_cons_nonempty (sep p : list N) (ps : list (list N)) :
  ps ≠ [] → str_join sep (p :: ps) = p ++ sep ++ str_join sep ps.
Proof. by destruct ps. Qed.

(** Joining the parts with the separator gives the text back. *)
Lemma split_scan_join (sep cur s : list N) :
  sep ≠ [] → str_join sep (split_scan sep 0 cur s) = cur ++ s.
Proof.
  intros Hne. revert cur.
  induction s as [s IH] using (induction_ltof1 _ (@length N)). unfold ltof in IH.
  intros cur. destruct s as [|c s]; [by rewrite app_nil_r|].
  cbn [split_scan]. destruct (startswith sep (c :: s)) eqn:Hs.
  - rewrite split_scan_skip.
    rewrite str_join_cons_nonempty by apply split_scan_nonempty.
    rewrite IH by (rewrite length_drop; simpl; lia).
    apply startswith_spec in Hs as (r & Hr).
    destruct sep as [|x sep]; [done|]. simpl in Hr. injection Hr as -> ->.
    replace (length (x :: sep) - 1) with (length sep) by (simpl; lia).
    rewrite drop_app_length. done.
  - rewrite IH by (simpl; lia). by rewrite <- app_assoc.
Qed.

Lemma startswith_app (p t s : list N) :
  startswith p t = true → startswith p (t ++ s) = true.
Proof.
  intros (r & ->)%startswith_spec. apply startswith_spec.
  exists (r ++ s). by rewrite app_assoc.
Qed.

(** No part holds the separator. *)
Lemma split_scan_free (sep cur s : list N) :
  sep ≠ [] →
  (∀ u t, cur = u ++ t → t ≠ [] → startswith sep (t ++ s) = false) →
  Forall (λ p, str_contains sep p = false) (split_scan sep 0 cur s).
Proof.
  intros Hne. revert cur.
  induction s as [s IH] using (induction_ltof1 _ (@length N)). unfold ltof in IH.
  intros cur Hcur.
  assert (∀ s', (∀ u t, cur = u ++ t → t ≠ [] → startswith sep (t ++ s') = false) →
                str_contains sep cur = false) as Hfree.
  { intros s' Hc. destruct (str_contains sep cur) eqn:E; [|done].
    apply str_contains_spec in E as (t & [u ->] & Ht).
    destruct t as [|x t]; [by destruct sep|].
    apply (startswith_app _ _ s') in Ht.
    by rewrite (Hc u (x :: t)) in Ht. }
  destruct s as [|c s].
  - constructor; [|constructor]. by apply (Hfree []).
  - cbn [split_scan]. destruct (startswith sep (c :: s)) eqn:Hs.
    + constructor; [by apply (Hfree (c :: s))|].
      rewrite split_scan_skip. apply IH; [rewrite length_drop; simpl; lia|].
      intros u t Hu Ht. by destruct u, t.
    + apply IH; [simpl; lia|].
      intros u t Hu Ht.
      destruct t as [|y t0 _] using rev_ind; [done|].
      rewrite app_assoc in Hu. apply app_inj_tail in Hu as [-> <-].
      rewrite <- app_assoc. cbn [app].
      destruct t0 as [|z t0]; [done|]. by apply (Hcur u).
Qed.

(** ** White space at the ends *)

Section StripLemmas.
Variables is_word is_space : N → bool.

Lemma lstrip_spaces (s : list N) :
  Forall (λ c, is_space c = true) s → lstrip is_space s = [].
Proof. induction 1 as [|c s Hc _ IH]; [done|]. simpl. by rewrite Hc. Qed.

Lemma strip_spaces (s : list N) :
  Forall (λ c, is_space c = true) s → strip is_space s = [].
Proof. intros Hs. unfold strip. by rewrite lstrip_spaces. Qed.

Lemma rstrip_snoc (s : list N) (c : N) :
  is_space c = false → rstrip is_space (s ++ [c]) = s ++ [c].
Proof.
  intros Hc. unfold rstrip. rewrite reverse_snoc. simpl. rewrite Hc.
  by rewrite reverse_cons, reverse_involutive.
Qed.

Hypothesis space_not_word : ∀ c, is_space c = true → is_word c = false.

Lemma tokenize_strip (s : list N) :
  _tokenize is_word is_space (strip is_space s) = _tokenize is_word is_space s.
Proof using space_not_word.
  destruct (strip_split is_space s) as (l & r & E & Hl & Hr).
  rewrite E at 2. unfold _tokenize.
  rewrite findall_spaces_l, findall_spaces_r; [done| |];
    (eapply Forall_impl; [eassumption|]); simpl; auto.
Qed.
End StripLemmas.

(** ** The downloads *)

Lemma b64_char_ascii (v : N) : (b64_char v < 128)%N.
Proof.
  unfold b64_char. destruct (table_b2a_base64 !! N.to_nat v) as [c|] eqn:E; [|done].
  apply list_elem_of_lookup_2 in E. revert c E. apply Forall_forall.
  vm_compute. repeat (constructor; [reflexivity|]). constructor.
Qed.

Lemma b64encode_ascii (bs : list N) : Forall (λ c, (c < 128)%N) (b64encode bs).
Proof.
  induction bs as [bs IH] using (induction_ltof1 _ (@length N)). unfold ltof in IH.
  destruct bs as [|b0 [|b1 [|b2 rest]]]; cbn [b64encode].
  - constructor.
  - repeat (constructor; [first [apply b64_char_ascii | reflexivity]|]). constructor.
  - repeat (constructor; [first [apply b64_char_ascii | reflexivity]|]). constructor.
  - repeat (constructor; [apply b64_char_ascii|]). apply IH. simpl. lia.
Qed.

(** The base64 text is ASCII: [.decode('ascii')] returns it unchanged. *)
Lemma ascii_decode_b64encode (bs : list N) :
  ascii_decode (b64encode bs) = Some (b64encode bs).
Proof.
  unfold ascii_decode.
  destruct (forallb (λ b : N, (b <? 128)%N) (b64encode bs)) eqn:E; [done|].
  exfalso. apply not_true_iff_false in E. apply E.
  apply forallb_forall. intros c Hc%list_elem_of_In.
  apply N.ltb_lt. revert c Hc. apply Forall_forall, b64encode_ascii.
Qed.

(** ** The request handler *)

Section StubLemmas.
Variables is_word is_space : N → bool.
Variable lower : list N → list N.

(** [_align_stub] returns, with one discrepancy for each opcode that is
    not Equal. *)
Lemma align_stub_ok (t a : list N) :
  ∃ ops, align_opcodes is_word is_space lower t a = Some ops ∧
         tiles ops 0 0 (length (_tokenize is_word is_space (lower t)))
                       (length (_tokenize is_word is_space (lower a))) ∧
         Forall (op_ok (_tokenize is_word is_space (lower t))
                       (_tokenize is_word is_space (lower a))) ops ∧
         alternates ops ∧
         _align_stub is_word is_space lower t a
         = Some (classify_spec (_tokenize is_word is_space (lower t))
                               (_tokenize is_word is_space (lower a)) ops).
Proof.
  unfold align_opcodes, _align_stub.
  destruct (get_opcodes_shape (_tokenize is_word is_space (lower t))
              (_tokenize is_word is_space (lower a))) as (ops & -> & Ht & Ho & Ha).
  exists ops. repeat (split; [done|]). simpl. by rewrite classify_refines.
Qed.

Lemma classify_spec_length (tt at' : list (list N)) (ops : list Opcode) :
  length (classify_spec tt at' ops) = non_equal ops.
Proof.
  unfold classify_spec. by rewrite length_imap, omap_discrepancy_length.
Qed.

Lemma align_analysis_ok (t a : list N) :
  ∃ errs, _align_stub is_word is_space lower t a = Some errs ∧
          align_analysis is_word is_space lower t a
          = Some ({| errors := errs ++ _grammar_spell_flags t;
                     summary := summarize (errs ++ _grammar_spell_flags t) |},
                  corrected t).
Proof.
  destruct (align_stub_ok t a) as (ops & _ & _ & _ & _ & E).
  eexists. split; [exact E|]. unfold align_analysis. by rewrite E.
Qed.
End StubLemmas.

Section ServiceLemmas.
Variables is_word is_space : N → bool.
Variable lower : list N → list N.
Context {Upload : Type}.
Variable decode_ignore : Upload → list N.
Variable rtf_to_text : list N → option (list N).
Variable USE_WHISPER : bool.
Variable whisper_words : list N → Upload → option (list (list N)).
Variable docx_save : list (list N) → option (list N).

Lemma load_transcript_None (rtf_file : option Upload) (plain_text : option (list N)) :
  load_transcript decode_ignore rtf_to_text rtf_file plain_text = None
  ↔ rtf_file = None ∧ (plain_text = None ∨ plain_text = Some []).
Proof.
  unfold load_transcript. destruct rtf_file as [raw|].
  - destruct (rtf_to_text (decode_ignore raw)); split; try done; by intros [? _].
  - destruct plain_text as [[|c p]|]; split; try done; try (intros [_ [?|?]]; done);
      intros _; split; auto.
Qed.

(** With a transcript, the handler's reply is the 200 response unless
    encoding the corrected text or writing the document raises. *)
Lemma align_endpoint_ok (rtf_file : option Upload) (audio_file : Upload)
    (plain_text : option (list N)) (whisper_model_size text : list N) :
  load_transcript decode_ignore rtf_to_text rtf_file plain_text = Some text →
  ∃ errs,
    _align_stub is_word is_space lower (strip is_space text)
      (transcribe is_space USE_WHISPER whisper_words audio_file whisper_model_size)
    = Some errs ∧
    align_endpoint is_word is_space lower decode_ignore rtf_to_text USE_WHISPER
      whisper_words docx_save rtf_file audio_file plain_text whisper_model_size
    = (txt_bytes ← utf8_encode (corrected (strip is_space text));
       docx_bytes ← build_docx docx_save (corrected (strip is_space text));
       let errors := errs ++ _grammar_spell_flags (strip is_space text) in
       Some (Ok {| analysis := {| errors := errors; summary := summarize errors |};
                   correctedTranscript := corrected (strip is_space text);
                   downloads :=
                     {| txt_base64 := b64encode txt_bytes;
                        docx_base64 := b64encode docx_bytes;
                        filename_txt := lit "corrected_transcript.txt";
                        filename_docx := lit "corrected_transcript.docx" |} |})).
Proof.
  intros Hload. unfold align_endpoint. rewrite Hload.
  destruct (align_analysis_ok is_word is_space lower (strip is_space text)
              (transcribe is_space USE_WHISPER whisper_words audio_file
                 whisper_model_size)) as (errs & Hs & ->).
  exists errs. split; [done|]. cbn [mbind option_bind fst snd].
  destruct (utf8_encode _) as [txt_bytes|]; [|done]. cbn [mbind option_bind].
  destruct (build_docx _ _) as [docx_bytes|]; [|done]. cbn [mbind option_bind].
  by rewrite !ascii_decode_b64encode.
Qed.
End ServiceLemmas.

(** ** Counting by kind *)

Lemma occurrences_app (k : list N) (xs ys : list ErrorItem) :
  occurrences k (xs ++ ys) = occurrences k xs + occurrences k ys.
Proof. unfold occurrences. by rewrite filter_app, length_app. Qed.

Lemma occurrences_all (k : list N) (xs : list ErrorItem) :
  Forall (λ e, type e = k) xs → occurrences k xs = length xs.
Proof. intros Hx. unfold occurrences. by rewrite filter_Forall_all. Qed.

Lemma occurrences_other (k k' : list N) (xs : list ErrorItem) :
  k ≠ k' → Forall (λ e, type e = k') xs → occurrences k xs = 0.
Proof.
  intros Hk Hx. unfold occurrences. rewrite filter_Forall_none; [done|].
  eapply Forall_impl; [exact Hx|]. simpl. congruence.
Qed.

Section Report.
Variables is_word is_space : N → bool.
Variable lower : list N → list N.

(** The discrepancies of the alignment against silence. *)
Lemma align_stub_silent (t : list N) :
  lower [] = [] →
  let tokens := _tokenize is_word is_space (lower t) in
  _align_stub is_word is_space lower t []
  = Some match tokens with
         | [] => []
         | _ :: _ =>
             [{| line := 1; column := 1;
                 original := take 80 (str_join space tokens);
                 suggested := remove;
                 confidence := 0.75; type := audio_mismatch |}]
         end.
Proof.
  intros Hnil tokens. unfold _align_stub. rewrite Hnil, tokenize_nil. fold tokens.
  destruct tokens as [|x xs] eqn:E.
  - by rewrite get_opcodes_empty.
  - rewrite get_opcodes_empty_r by done. cbn [fmap option_fmap option_map].
    f_equal. unfold classify. cbn [foldl classify_step fst].
    assert (slice (x :: xs) 0 (length (x :: xs)) = x :: xs) as ->.
    { unfold slice. by rewrite Nat.sub_0_r, drop_0, take_ge. }
    assert (take 80 (str_join space (x :: xs)) ≠ []) as Hne.
    { apply (join_nonempty is_word is_space); [|done].
      rewrite <- E. apply findall_token. constructor. }
    destruct (take 80 (str_join space (x :: xs))) eqn:Ej; [done|].
    reflexivity.
Qed.

(** The sizes of the two parts of a report. *)
Lemma align_stub_length (t a : list N) :
  ∃ errs, _align_stub is_word is_space lower t a = Some errs ∧
          Forall (λ e, type e = audio_mismatch) errs ∧
          length errs ≤ length (_tokenize is_word is_space (lower t))
                        `min` length (_tokenize is_word is_space (lower a)) + 1 ∧
          (errs = [] ↔ _tokenize is_word is_space (lower t)
                       = _tokenize is_word is_space (lower a)).
Proof.
  destruct (align_stub_ok is_word is_space lower t a)
    as (ops & Hops & Ht & Ho & Ha & ->).
  eexists. split; [done|]. split; [|split].
  - rewrite <- classify_refines. apply classify_all_audio.
  - rewrite classify_spec_length.
    destruct (alternates_after_count None ops Ha) as (_ & _ & Hn & _).
    pose proof (equal_ops_le_matched _ _ ops Ho).
    destruct (matched_le _ _ ops 0 0 _ _ Ht Ho) as (_ & _ & ? & ?). lia.
  - unfold align_opcodes in Hops.
    destruct (get_opcodes_non_equal_nil (_tokenize is_word is_space (lower t))
                (_tokenize is_word is_space (lower a))) as (ops' & Hops' & Hiff).
    rewrite Hops in Hops'. injection Hops' as <-. rewrite <- Hiff.
    rewrite <- classify_spec_length
      with (tt := _tokenize is_word is_space (lower t))
           (at' := _tokenize is_word is_space (lower a)).
    split; [by intros -> | by intros ?%nil_length_inv].
Qed.
End Report.

(** ** Sequences without a common element *)

Lemma opcodes_of_sentinel_replace (la lb : nat) :
  0 < la → 0 < lb → opcodes_of [(la, lb, 0)] = [(Replace, 0, la, 0, lb)].
Proof.
  intros Hla Hlb. destruct la, lb; try lia. done.
Qed.

Lemma get_opcodes_disjoint `{Countable A} (a b : list A) :
  a ≠ [] → b ≠ [] → (∀ x, x ∈ a → x ∉ b) →
  get_opcodes a b = Some [(Replace, 0, length a, 0, length b)].
Proof.
  intros Ha Hb Hdis.
  destruct (find_longest_match_ok a b 0 (length a) 0 (length b)) as (m & Hm & Hok);
    [lia..|].
  rewrite (get_opcodes_no_match a b m Hm).
  - rewrite opcodes_of_sentinel_replace; [done| |].
    + destruct a; simpl; [done|lia].
    + destruct b; simpl; [done|lia].
  - destruct Hok as (_ & Hi & _ & Hj & Heq).
    destruct (decide (m.2 = 0)) as [|Hk]; [done|]. exfalso.
    specialize (Heq 0 ltac:(lia)). rewrite !Nat.add_0_r in Heq.
    destruct (lookup_lt_is_Some_2 a m.1.1) as [x Hx]; [lia|].
    apply (Hdis x).
    + by eapply list_elem_of_lookup_2.
    + rewrite Hx in Heq. symmetry in Heq. by eapply list_elem_of_lookup_2.
Qed.

(** ** The encodings of the downloads *)

(** A check of all numbers below a bound, by evaluation. *)
Definition all_below (n : N) (P : N → bool) : bool :=
  (N.iter n (λ st : bool * N, (st.1 && P st.2, N.succ st.2)) (true, 0%N)).1.

Lemma all_below_spec (n : N) (P : N → bool) :
  all_below n P = true → ∀ x, (x < n)%N → P x = true.
Proof.
  unfold all_below.
  set (f := λ st : bool * N, (st.1 && P st.2, N.succ st.2)).
  assert (∀ m, (N.iter m f (true, 0%N)).2 = m ∧
               ((N.iter m f (true, 0%N)).1 = true → ∀ x, (x < m)%N → P x = true)) as Hinv.
  { induction m as [|m [IH1 IH2]] using N.peano_ind.
    - split; [reflexivity|]. intros _ x Hx. lia.
    - rewrite N.iter_succ. unfold f at 1 3. cbn [fst snd]. rewrite IH1. split; [done|].
      intros [Hm HP]%andb_true_iff x Hx.
      destruct (decide (x = m)) as [->|Hne]; [done|]. apply IH2; [done|lia]. }
  apply Hinv.
Qed.

Lemma land_shiftl_low (a b n : N) : (b < 2 ^ n)%N → N.land (N.shiftl a n) b = 0%N.
Proof.
  intros Hb. apply N.bits_inj. intros m. rewrite N.land_spec, N.bits_0.
  destruct (decide (m < n)%N) as [Hlt|Hge].
  - by rewrite N.shiftl_spec_low by done.
  - assert (N.testbit b m = false) as ->; [|by rewrite andb_false_r].
    apply N.testbit_false. rewrite N.div_small; [done|].
    eapply N.lt_le_trans; [exact Hb|]. apply N.pow_le_mono_r; lia.
Qed.

(** Bits put side by side add up. *)
Lemma lor_shiftl_add (a b n : N) :
  (b < 2 ^ n)%N → N.lor (N.shiftl a n) b = (a * 2 ^ n + b)%N.
Proof.
  intros Hb. rewrite <- N.lxor_lor by (by apply land_shiftl_low).
  rewrite <- N.add_nocarry_lxor by (by apply land_shiftl_low).
  by rewrite N.shiftl_mul_pow2.
Qed.

(** The six low bits of a number and the rest. *)
Lemma digits64 (c : N) :
  ∃ q r, (c = 64 * q + r ∧ r < 64)%N ∧ N.shiftr c 6 = q ∧ N.land c 0x3F = r.
Proof.
  exists (c / 64)%N, (c mod 64)%N. split; [split|split].
  - by apply N.div_mod.
  - by apply N.mod_lt.
  - by rewrite N.shiftr_div_pow2.
  - change 0x3F%N with (N.ones 6). by rewrite N.land_ones.
Qed.

(** *** UTF-8 *)

Lemma utf8_trail (r : N) :
  (r < 64)%N →
  N.lor 0x80 r = (128 + r)%N ∧ N.land (128 + r) 0x3F = r ∧ utf8_cont (128 + r) = true.
Proof.
  intros Hr.
  assert ((N.lor 0x80 r =? 128 + r)%N && (N.land (128 + r) 0x3F =? r)%N
          && utf8_cont (128 + r) = true) as H.
  { revert r Hr. by apply all_below_spec. }
  apply andb_true_iff in H as [[H1 H2]%andb_true_iff H3].
  by apply N.eqb_eq in H1, H2.
Qed.

Lemma utf8_lead2 (q : N) :
  (q < 32)%N → N.lor 0xC0 q = (192 + q)%N ∧ N.land (192 + q) 0x1F = q.
Proof.
  intros Hq.
  assert ((N.lor 0xC0 q =? 192 + q)%N && (N.land (192 + q) 0x1F =? q)%N = true) as H.
  { revert q Hq. by apply all_below_spec. }
  apply andb_true_iff in H as [H1 H2]. by apply N.eqb_eq in H1, H2.
Qed.

Lemma utf8_lead3 (q : N) :
  (q < 16)%N → N.lor 0xE0 q = (224 + q)%N ∧ N.land (224 + q) 0x0F = q.
Proof.
  intros Hq.
  assert ((N.lor 0xE0 q =? 224 + q)%N && (N.land (224 + q) 0x0F =? q)%N = true) as H.
  { revert q Hq. by apply all_below_spec. }
  apply andb_true_iff in H as [H1 H2]. by apply N.eqb_eq in H1, H2.
Qed.

Lemma utf8_lead4 (q : N) :
  (q < 8)%N → N.lor 0xF0 q = (240 + q)%N ∧ N.land (240 + q) 0x07 = q.
Proof.
  intros Hq.
  assert ((N.lor 0xF0 q =? 240 + q)%N && (N.land (240 + q) 0x07 =? q)%N = true) as H.
  { revert q Hq. by apply all_below_spec. }
  apply andb_true_iff in H as [H1 H2]. by apply N.eqb_eq in H1, H2.
Qed.

Ltac pow_lia :=
  change (2 ^ 6)%N with 64%N; change (2 ^ 12)%N with 4096%N;
  change (2 ^ 18)%N with 262144%N; lia.

Ltac N_tests :=
  repeat match goal with
  | |- context [(?x <? ?y)%N] =>
      first [rewrite (proj2 (N.ltb_lt x y)) by lia
            | rewrite (proj2 (N.ltb_ge x y)) by lia]
  | |- context [(?x <=? ?y)%N] =>
      first [rewrite (proj2 (N.leb_le x y)) by lia
            | rewrite (proj2 (N.leb_gt x y)) by lia]
  end.

(** One code point: what [utf8_encode_char] refuses is no scalar value, and
    what it writes is read back as the code point. *)
Lemma utf8_encode_char_spec (c : N) :
  match utf8_encode_char c with
  | None => scalar_value c = false
  | Some bs =>
      scalar_value c = true ∧ Forall (λ b, (b < 256)%N) bs ∧ bs ≠ [] ∧ length bs ≤ 4 ∧
      ∀ rest, utf8_decode (bs ++ rest) = cons c <$> utf8_decode rest
  end.
Proof.
  destruct (digits64 c) as (q1 & r0 & [Hc Hr0] & S1 & L0).
  destruct (digits64 q1) as (q2 & r1 & [Hq1 Hr1] & S2 & L1).
  destruct (digits64 q2) as (q3 & r2 & [Hq2 Hr2] & S3 & L2).
  assert (N.shiftr c 12 = q2) as S12.
  { change 12%N with (6 + 6)%N. by rewrite <- N.shiftr_shiftr, S1. }
  assert (N.shiftr c 18 = q3) as S18.
  { change 18%N with (12 + 6)%N. by rewrite <- N.shiftr_shiftr, S12. }
  destruct (utf8_trail r0 Hr0) as (T0 & U0 & V0).
  destruct (utf8_trail r1 Hr1) as (T1 & U1 & V1).
  destruct (utf8_trail r2 Hr2) as (T2 & U2 & V2).
  unfold utf8_encode_char, scalar_value.
  destruct (N.ltb_spec c 0x80) as [H1|H1].
  { split; [by N_tests|]. split; [repeat constructor; lia|]. split; [done|].
    split; [simpl; lia|]. intros rest. cbn [app utf8_decode]. by N_tests. }
  destruct (N.ltb_spec c 0x800) as [H2|H2].
  { rewrite S1, L0, T0.
    destruct (utf8_lead2 q1) as [E1 E2]; [lia|]. rewrite E1.
    split; [by N_tests|]. split; [repeat constructor; lia|]. split; [done|].
    split; [simpl; lia|]. intros rest. cbn [app utf8_decode]. N_tests.
    rewrite E2, U0, V0.
    rewrite (lor_shiftl_add q1 r0 6) by pow_lia.
    change (2 ^ 6)%N with 64%N. replace (q1 * 64 + r0)%N with c by lia.
    by N_tests. }
  destruct (N.ltb_spec c 0x10000) as [H3|H3].
  { destruct ((0xD800 <=? c)%N && (c <=? 0xDFFF)%N) eqn:Hsur.
    { by N_tests. }
    rewrite S12, S1, L1, L0, T1, T0.
    destruct (utf8_lead3 q2) as [E1 E2]; [lia|]. rewrite E1.
    split; [by N_tests|]. split; [repeat constructor; lia|]. split; [done|].
    split; [simpl; lia|]. intros rest. cbn [app utf8_decode]. N_tests.
    rewrite E2, U1, U0, V1, V0.
    rewrite (lor_shiftl_add r1 r0 6) by pow_lia.
    rewrite (lor_shiftl_add q2 _ 12) by pow_lia.
    change (2 ^ 6)%N with 64%N. change (2 ^ 12)%N with 4096%N.
    replace (q2 * 4096 + (r1 * 64 + r0))%N with c by lia.
    rewrite Hsur. by N_tests. }
  destruct (N.ltb_spec c 0x110000) as [H4|H4]; [|by N_tests].
  rewrite S18, S12, S1, L2, L1, L0, T2, T1, T0.
  destruct (utf8_lead4 q3) as [E1 E2]; [lia|]. rewrite E1.
  split; [by N_tests|]. split; [repeat constructor; lia|]. split; [done|].
  split; [simpl; lia|]. intros rest. cbn [app utf8_decode]. N_tests.
  rewrite E2, U2, U1, U0, V2, V1, V0.
  rewrite (lor_shiftl_add r1 r0 6) by pow_lia.
  rewrite (lor_shiftl_add r2 _ 12) by pow_lia.
  rewrite (lor_shiftl_add q3 _ 18) by pow_lia.
  change (2 ^ 6)%N with 64%N. change (2 ^ 12)%N with 4096%N.
  change (2 ^ 18)%N with 262144%N.
  replace (q3 * 262144 + (r2 * 4096 + (r1 * 64 + r0)))%N with c by lia.
  by N_tests.
Qed.

(** A text is encoded exactly when all its code points are scalar values,
    and its bytes are read back as the text. *)
Lemma utf8_encode_spec (s : list N) :
  match utf8_encode s with
  | None => ∃ c, c ∈ s ∧ scalar_value c = false
  | Some bs =>
      Forall (λ c, scalar_value c = true) s ∧ Forall (λ b, (b < 256)%N) bs ∧
      length s ≤ length bs ≤ 4 * length s ∧ utf8_decode bs = Some s
  end.
Proof.
  induction s as [|c s IH]; [simpl; repeat split; try constructor; lia|].
  cbn [utf8_encode]. pose proof (utf8_encode_char_spec c) as Hc.
  destruct (utf8_encode_char c) as [bs|]; cbn [mbind option_bind].
  - destruct Hc as (Hsc & Hb & Hne & Hlen & Hdec).
    destruct (utf8_encode s) as [rest|]; cbn [mbind option_bind].
    + destruct IH as (Hs & Hr & Hl & Hd). split; [by constructor|].
      split; [by apply Forall_app|]. rewrite length_app, Hdec, Hd.
      split; [|done]. destruct bs; [done|]. simpl in *. lia.
    + destruct IH as (x & Hx & Hsx). exists x. split; [by right|done].
  - exists c. split; [by left|done].
Qed.

(** *** Base64 *)

Lemma all_below2_spec (n m : N) (P : N → N → bool) :
  all_below n (λ x, all_below m (P x)) = true →
  ∀ x y, (x < n)%N → (y < m)%N → P x y = true.
Proof.
  intros H x y Hx Hy.
  apply (all_below_spec m (P x)); [|done].
  by apply (all_below_spec n (λ x, all_below m (P x))).
Qed.

Lemma b64_value_char (v : N) :
  (v < 64)%N → b64_value (b64_char v) = Some v ∧ b64_char v ≠ b64_pad.
Proof.
  intros Hv.
  assert (match b64_value (b64_char v) with
          | Some w => (w =? v)%N
          | None => false
          end && negb (b64_char v =? b64_pad)%N = true) as H.
  { revert v Hv. apply all_below_spec. by vm_compute. }
  apply andb_true_iff in H as [H1 H2].
  destruct (b64_value (b64_char v)) as [w|]; [|done].
  apply N.eqb_eq in H1 as ->. split; [done|].
  apply negb_true_iff in H2. by apply N.eqb_neq in H2.
Qed.

(** What the first two and the last two of three bytes contribute to the
    six-bit groups, checked on all pairs of bytes. *)
Definition b64_check_head (b0 b1 : N) : bool :=
  let v0 := N.shiftr b0 2 in
  let v1 := N.lor (N.shiftl (N.land b0 3) 4) (N.shiftr b1 4) in
  (v0 <? 64)%N && (v1 <? 64)%N &&
  (N.lor (N.shiftl v0 2) (N.shiftr v1 4) =? b0)%N &&
  (N.land v1 15 =? N.shiftr b1 4)%N.

Definition b64_check_tail (b1 b2 : N) : bool :=
  let v2 := N.lor (N.shiftl (N.land b1 15) 2) (N.shiftr b2 6) in
  let v3 := N.land b2 63 in
  (v2 <? 64)%N && (v3 <? 64)%N &&
  (N.lor (N.shiftl (N.shiftr b1 4) 4) (N.shiftr v2 2) =? b1)%N &&
  (N.lor (N.shiftl (N.land v2 3) 6) v3 =? b2)%N.

Lemma b64_check_head_all (b0 b1 : N) :
  (b0 < 256)%N → (b1 < 256)%N → b64_check_head b0 b1 = true.
Proof. revert b0 b1. apply all_below2_spec. by vm_compute. Qed.

Lemma b64_check_tail_all (b1 b2 : N) :
  (b1 < 256)%N → (b2 < 256)%N → b64_check_tail b1 b2 = true.
Proof. revert b1 b2. apply all_below2_spec. by vm_compute. Qed.

(** The four six-bit groups of three bytes, and the bytes they give back. *)
Lemma b64_groups (b0 b1 b2 : N) :
  (b0 < 256)%N → (b1 < 256)%N → (b2 < 256)%N →
  let v0 := N.shiftr b0 2 in
  let v1 := N.lor (N.shiftl (N.land b0 3) 4) (N.shiftr b1 4) in
  let v2 := N.lor (N.shiftl (N.land b1 15) 2) (N.shiftr b2 6) in
  let v3 := N.land b2 63 in
  ((v0 < 64 ∧ v1 < 64 ∧ v2 < 64 ∧ v3 < 64)%N) ∧
  N.lor (N.shiftl v0 2) (N.shiftr v1 4) = b0 ∧
  N.lor (N.shiftl (N.land v1 15) 4) (N.shiftr v2 2) = b1 ∧
  N.lor (N.shiftl (N.land v2 3) 6) v3 = b2.
Proof.
  intros H0 H1 H2. cbv zeta.
  pose proof (b64_check_head_all b0 b1 H0 H1) as Ha.
  pose proof (b64_check_tail_all b1 b2 H1 H2) as Hb.
  unfold b64_check_head, b64_check_tail in Ha, Hb. cbv zeta in Ha, Hb.
  apply andb_true_iff in Ha as [[[A1 A2]%andb_true_iff A3]%andb_true_iff A4].
  apply andb_true_iff in Hb as [[[B1 B2]%andb_true_iff B3]%andb_true_iff B4].
  apply N.ltb_lt in A1, A2, B1, B2. apply N.eqb_eq in A3, A4, B3, B4.
  rewrite A4. done.
Qed.

(** The base64 text is read back as the bytes. *)
Lemma b64decode_b64encode (bs : list N) :
  Forall (λ b, (b < 256)%N) bs → b64decode (b64encode bs) = Some bs.
Proof.
  induction bs as [bs IH] using (induction_ltof1 _ (@length N)). unfold ltof in IH.
  intros Hbs. destruct bs as [|b0 [|b1 [|b2 rest]]].
  - done.
  - apply Forall_cons in Hbs as [H0 _].
    destruct (b64_groups b0 0 0 H0) as ((V0 & V1 & _ & _) & E0 & _ & _); [done|done|].
    change (N.shiftr 0 4) with 0%N in *. rewrite N.lor_0_r in *.
    cbn [b64encode b64decode].
    destruct (b64_value_char _ V0) as [-> _]. destruct (b64_value_char _ V1) as [-> _].
    rewrite decide_True by done. rewrite decide_True by done. by rewrite E0.
  - apply Forall_cons in Hbs as [H0 [H1 _]%Forall_cons].
    destruct (b64_groups b0 b1 0 H0 H1) as ((V0 & V1 & V2 & _) & E0 & E1 & _); [done|].
    change (N.shiftr 0 6) with 0%N in *. rewrite N.lor_0_r in *.
    cbn [b64encode b64decode].
    destruct (b64_value_char _ V0) as [-> _]. destruct (b64_value_char _ V1) as [-> _].
    destruct (b64_value_char _ V2) as [-> P2].
    rewrite decide_False by done. rewrite decide_True by done.
    rewrite decide_True by done. by rewrite E0, E1.
  - apply Forall_cons in Hbs as [H0 [H1 [H2 Hrest]%Forall_cons]%Forall_cons].
    destruct (b64_groups b0 b1 b2 H0 H1 H2) as ((V0 & V1 & V2 & V3) & E0 & E1 & E2).
    cbn [b64encode b64decode].
    destruct (b64_value_char _ V0) as [-> _]. destruct (b64_value_char _ V1) as [-> _].
    destruct (b64_value_char _ V2) as [-> P2]. destruct (b64_value_char _ V3) as [-> P3].
    rewrite !decide_False by done.
    rewrite IH by (simpl; lia || done). by rewrite E0, E1, E2.
Qed.

Lemma b64encode_length (bs : list N) :
  length (b64encode bs) = 4 * ((length bs + 2) / 3).
Proof.
  induction bs as [bs IH] using (induction_ltof1 _ (@length N)). unfold ltof in IH.
  destruct bs as [|b0 [|b1 [|b2 rest]]]; try done.
  cbn [b64encode length]. rewrite IH by (simpl; lia).
  replace (S (S (S (length rest))) + 2) with (1 * 3 + (length rest + 2)) by lia.
  rewrite Nat.div_add_l by done. lia.
Qed.

(* ===================================================================== *)
(** * Part VI: further properties of the program *)
(* ===================================================================== *)

(** The ASCII tables satisfy what the properties below ask of the Unicode
    tables. *)
Lemma ascii_space_not_word (c : N) : ascii_space c = true → ascii_word c = false.
Proof.
  unfold ascii_space, ascii_word.
  repeat match goal with
         | |- context [(?x <=? ?y)%N] => destruct (N.leb_spec x y)
         | |- context [(?x =? ?y)%N] => destruct (N.eqb_spec x y)
         end; simpl; try done; lia.
Qed.

Lemma ascii_lower_space (l : list N) :
  Forall (λ c, ascii_space c = true) l → ascii_lower l = l.
Proof.
  unfold ascii_lower. induction 1 as [|c l Hc _ IH]; [done|].
  rewrite fmap_cons, IH. f_equal.
  revert Hc. unfold ascii_space.
  repeat match goal with
         | |- context [(?x <=? ?y)%N] => destruct (N.leb_spec x y)
         end; simpl; try done; lia.
Qed.

Lemma ascii_lower_outer_space (l s r : list N) :
  Forall (λ c, ascii_space c = true) l → Forall (λ c, ascii_space c = true) r →
  ascii_lower (l ++ s ++ r) = l ++ ascii_lower s ++ r.
Proof.
  intros Hl Hr. rewrite <- (ascii_lower_space l Hl) at 2.
  rewrite <- (ascii_lower_space r Hr) at 2.
  unfold ascii_lower. by rewrite !fmap_app.
Qed.

(** ** The tokenizer *)

(** X1: every token that [_tokenize] returns is a non-empty run of word
    characters or a single character that is neither word nor space; in
    particular no token is empty. *)
Theorem tokenize_token_shape (is_word is_space : N → bool) (text : list N) :
  Forall (λ t, token is_word is_space t ∧ t ≠ []) (_tokenize is_word is_space text).
Proof.
  eapply Forall_impl; [apply findall_token; constructor|].
  intros t Ht. split; [done|]. by eapply token_nonempty.
Qed.

(** X2: the tokens of a text, put end to end, are the text without its
    white space (more exactly, without the characters that are space and
    not word): [_tokenize] drops nothing else and keeps the order. *)
Theorem tokenize_keeps_all_but_space (is_word is_space : N → bool) (text : list N) :
  concat (_tokenize is_word is_space text)
  = filter (λ c, kept is_word is_space c = true) text.
Proof. unfold _tokenize. by rewrite findall_concat. Qed.

(** X3: a text has no token exactly when all its characters are white
    space (space and not word); the empty text is the first case. *)
Theorem tokenize_empty_iff (is_word is_space : N → bool) (text : list N) :
  _tokenize is_word is_space text = []
  ↔ Forall (λ c, is_word c = false ∧ is_space c = true) text.
Proof.
  assert (∀ c, kept is_word is_space c ≠ true ↔ is_word c = false ∧ is_space c = true)
    as Hk.
  { intros c. unfold kept. destruct (is_word c), (is_space c); simpl; split; try done;
      intros [? ?]; done. }
  split.
  - intros Ht. pose proof (findall_concat is_word is_space [] text) as Hc.
    unfold _tokenize in Ht. rewrite Ht in Hc. simpl in Hc. symmetry in Hc.
    apply Forall_forall. intros c Hin. apply Hk. intros Hkept.
    assert (c ∈ filter (λ c, kept is_word is_space c = true) text) as Hf
      by (by apply list_elem_of_filter).
    rewrite Hc in Hf. by apply elem_of_nil in Hf.
  - intros Hall. unfold _tokenize.
    apply (findall_spaces_r is_word is_space [] [] text).
    eapply Forall_impl; [exact Hall|]. by intros c [? ?].
Qed.

(** X4: a character that is not a word character separates: the tokens of
    a text around it are the tokens of the part before it, then the
    character itself unless it is white space, then the tokens of the part
    after it. *)
Theorem tokenize_split_at_nonword (is_word is_space : N → bool)
    (c : N) (before after : list N) :
  is_word c = false →
  _tokenize is_word is_space (before ++ c :: after)
  = _tokenize is_word is_space before ++ (if is_space c then [] else [[c]])
    ++ _tokenize is_word is_space after.
Proof. intros Hc. unfold _tokenize. by apply findall_nonword. Qed.

Lemma tokenize_split_at_nonword_witness :
  ascii_word 44%N = false ∧
  _tokenize ascii_word ascii_space (lit "Hello" ++ 44%N :: lit " world")
  = _tokenize ascii_word ascii_space (lit "Hello") ++ [[44%N]]
    ++ _tokenize ascii_word ascii_space (lit " world").
Proof.
  split; [reflexivity|].
  exact (tokenize_split_at_nonword ascii_word ascii_space 44%N (lit "Hello") (lit " world")
           eq_refl).
Defined.

(** X5: where the space character is white space and not a word character,
    tokens joined by single spaces, as [_align_stub] joins them for
    [original] and [suggested], tokenize back to the same tokens. *)
Theorem tokenize_join_round_trip (is_word is_space : N → bool) (text : list N) :
  is_word 32%N = false → is_space 32%N = true →
  _tokenize is_word is_space (str_join space (_tokenize is_word is_space text))
  = _tokenize is_word is_space text.
Proof.
  intros Hw Hs. apply tokenize_join; [done|done|].
  apply findall_token. constructor.
Qed.

Lemma tokenize_join_round_trip_witness :
  ascii_word 32%N = false ∧ ascii_space 32%N = true ∧
  _tokenize ascii_word ascii_space
    (str_join space (_tokenize ascii_word ascii_space (lit "Hello, world_1!")))
  = _tokenize ascii_word ascii_space (lit "Hello, world_1!").
Proof.
  split; [reflexivity|]. split; [reflexivity|].
  exact (tokenize_join_round_trip ascii_word ascii_space (lit "Hello, world_1!")
           eq_refl eq_refl).
Defined.

(** X6: where no white-space character is a word character, the white
    space that [strip] removes at the ends of a text does not change its
    tokens.  Where moreover [str.lower] leaves white space at the ends of
    a text in place and lower-cases what lies between as it does on its
    own, the alignment is the same for the stripped and the unstripped
    text, on either side of [_align_stub]. *)
Theorem tokenize_ignores_outer_space (is_word is_space : N → bool)
    (lower : list N → list N) (text : list N) :
  (∀ c, is_space c = true → is_word c = false) →
  _tokenize is_word is_space (strip is_space text) = _tokenize is_word is_space text ∧
  ((∀ l s r, Forall (λ c, is_space c = true) l → Forall (λ c, is_space c = true) r →
             lower (l ++ s ++ r) = l ++ lower s ++ r) →
   _tokenize is_word is_space (lower (strip is_space text))
   = _tokenize is_word is_space (lower text) ∧
   ∀ other,
     _align_stub is_word is_space lower (strip is_space text) other
     = _align_stub is_word is_space lower text other ∧
     _align_stub is_word is_space lower other (strip is_space text)
     = _align_stub is_word is_space lower other text).
Proof.
  intros Hsw. split; [by apply tokenize_strip|]. intros Hlower.
  assert (_tokenize is_word is_space (lower (strip is_space text))
          = _tokenize is_word is_space (lower text)) as Htok.
  { destruct (strip_split is_space text) as (l & r & E & Hl & Hr).
    rewrite E at 2. rewrite Hlower by done. unfold _tokenize.
    rewrite findall_spaces_l, findall_spaces_r; [done| |];
      (eapply Forall_impl; [eassumption|]); simpl; auto. }
  split; [done|]. intros other. unfold _align_stub. by rewrite Htok.
Qed.

Lemma tokenize_ignores_outer_space_witness :
  (∀ c, ascii_space c = true → ascii_word c = false) ∧
  (∀ l s r, Forall (λ c, ascii_space c = true) l → Forall (λ c, ascii_space c = true) r →
            ascii_lower (l ++ s ++ r) = l ++ ascii_lower s ++ r) ∧
  _tokenize ascii_word ascii_space (strip ascii_space (lit "  The Court.  "))
  = _tokenize ascii_word ascii_space (lit "  The Court.  ") ∧
  _align_stub ascii_word ascii_space ascii_lower
    (strip ascii_space (lit "  The Court.  ")) (lit "the court")
  = _align_stub ascii_word ascii_space ascii_lower (lit "  The Court.  ") (lit "the court").
Proof.
  split; [exact ascii_space_not_word|]. split; [exact ascii_lower_outer_space|].
  destruct (tokenize_ignores_outer_space ascii_word ascii_space ascii_lower
              (lit "  The Court.  ") ascii_space_not_word) as [Htok Halign].
  split; [exact Htok|].
  exact (proj1 (proj2 (Halign ascii_lower_outer_space) (lit "the court"))).
Defined.

(** ** The opcodes *)

(** X7: [get_opcodes] returns, and in its list Equal and non-Equal opcodes
    take turns: no two Equal opcodes follow each other, and no two opcodes
    that are not Equal.  So the opcodes that are not Equal are at most one
    more than the Equal ones. *)
Theorem opcodes_alternate `{Countable A} (a b : list A) :
  ∃ ops, get_opcodes a b = Some ops ∧ alternates ops ∧
         non_equal ops ≤ equal_ops ops + 1.
Proof.
  destruct (get_opcodes_shape a b) as (ops & Hops & _ & _ & Ha).
  exists ops. split; [done|]. split; [done|].
  by apply (alternates_after_count None ops).
Qed.

(** ** The discrepancies of the alignment *)

(** X8: [_align_stub] returns, and in every discrepancy [original] and
    [suggested] hold between 1 and 80 characters: neither is ever empty,
    also not for an insertion, whose [suggested] is the joined tokens
    without a default. *)
Theorem align_stub_field_lengths (is_word is_space : N → bool)
    (lower : list N → list N) (transcript_text audio_text : list N) :
  ∃ errs, _align_stub is_word is_space lower transcript_text audio_text = Some errs ∧
          Forall (λ e, (1 ≤ length (original e) ≤ 80) ∧
                       (1 ≤ length (suggested e) ≤ 80)) errs.
Proof.
  destruct (align_stub_ok is_word is_space lower transcript_text audio_text)
    as (ops & _ & Ht & Ho & _ & ->).
  eexists. split; [done|]. apply Forall_lookup. intros n e He.
  apply classify_spec_lookup in He as (_ & _ & _ & op & f & _ & -> & Hd & Hin).
  destruct (tiles_bounds _ _ _ _ _ _ Ht Hin) as (_ & Hi & _ & Hj).
  assert (op_ok (_tokenize is_word is_space (lower transcript_text))
            (_tokenize is_word is_space (lower audio_text)) op) as Hok
    by (by eapply Forall_forall in Ho).
  apply (discrepancy_fields is_word is_space _ _
           ltac:(apply findall_token; constructor) op f (1 + n) Hok Hi Hj Hd).
Qed.

(** X9: where [(] is not a word character, the two placeholders are never
    mistaken for text: [original] is "(missing)" exactly in the
    discrepancies of an insertion, those with confidence 0.7, and no
    discrepancy has "(missing)" and "(remove)" at once. *)
Theorem align_stub_placeholders (is_word is_space : N → bool)
    (lower : list N → list N) (transcript_text audio_text : list N) :
  is_word 40%N = false →
  ∃ errs, _align_stub is_word is_space lower transcript_text audio_text = Some errs ∧
          Forall (λ e, (original e = missing ↔ confidence e = 0.7%float) ∧
                       ¬ (original e = missing ∧ suggested e = remove)) errs.
Proof.
  intros Hp.
  destruct (align_stub_ok is_word is_space lower transcript_text audio_text)
    as (ops & _ & Ht & Ho & _ & ->).
  eexists. split; [done|]. apply Forall_lookup. intros n e He.
  apply classify_spec_lookup in He as (_ & _ & _ & op & f & _ & -> & Hd & Hin).
  destruct (tiles_bounds _ _ _ _ _ _ Ht Hin) as (_ & Hi & _ & Hj).
  assert (op_ok (_tokenize is_word is_space (lower transcript_text))
            (_tokenize is_word is_space (lower audio_text)) op) as Hok
    by (by eapply Forall_forall in Ho).
  destruct (discrepancy_placeholders is_word is_space _ _
              ltac:(apply findall_token; constructor)
              ltac:(apply findall_token; constructor)
              op f (1 + n) Hp Hok Hi Hj Hd) as [Hm Hr].
  assert (confidence (f (1 + n)) = 0.7%float ↔ op_tag op = Insert) as Hc.
  { unfold discrepancy_of in Hd.
    destruct (op_tag op); [injection Hd as <-..|discriminate Hd]; simpl;
      split; try done; intros Heq; discriminate Heq. }
  split; [by rewrite Hm, Hc|].
  intros [H1 H2]. apply Hm in H1. apply Hr in H2. congruence.
Qed.

Lemma align_stub_placeholders_witness :
  ascii_word 40%N = false ∧
  ∃ errs, _align_stub ascii_word ascii_space ascii_lower
            (lit "(missing) exhibit") (lit "exhibit (remove)") = Some errs ∧
          Forall (λ e, (original e = missing ↔ confidence e = 0.7%float) ∧
                       ¬ (original e = missing ∧ suggested e = remove)) errs.
Proof.
  split; [reflexivity|].
  exact (align_stub_placeholders ascii_word ascii_space ascii_lower
           (lit "(missing) exhibit") (lit "exhibit (remove)") eq_refl).
Defined.

(** X10: when the lower-cased transcript and audio text both have tokens
    but share none, [_align_stub] returns exactly one discrepancy, which
    sets all tokens of the transcript against all tokens of the audio
    text, each side joined and cut at 80 characters. *)
Theorem align_stub_nothing_in_common (is_word is_space : N → bool)
    (lower : list N → list N) (transcript_text audio_text : list N) :
  _tokenize is_word is_space (lower transcript_text) ≠ [] →
  _tokenize is_word is_space (lower audio_text) ≠ [] →
  (∀ t, t ∈ _tokenize is_word is_space (lower transcript_text) →
        t ∉ _tokenize is_word is_space (lower audio_text)) →
  _align_stub is_word is_space lower transcript_text audio_text
  = Some [{| line := 1; column := 1;
             original :=
               take 80 (str_join space (_tokenize is_word is_space (lower transcript_text)));
             suggested :=
               take 80 (str_join space (_tokenize is_word is_space (lower audio_text)));
             confidence := 0.75; type := audio_mismatch |}].
Proof.
  intros Ht Ha Hdis. unfold _align_stub.
  rewrite (get_opcodes_disjoint _ _ Ht Ha Hdis).
  cbn [fmap option_fmap option_map]. f_equal.
  unfold classify. cbn [foldl classify_step fst].
  assert (∀ l : list (list N), slice l 0 (length l) = l) as Hsl.
  { intros l. unfold slice. by rewrite Nat.sub_0_r, drop_0, take_ge. }
  rewrite !Hsl.
  assert (∀ s, _tokenize is_word is_space s ≠ [] →
               str_or (take 80 (str_join space (_tokenize is_word is_space s))) missing
               = take 80 (str_join space (_tokenize is_word is_space s)) ∧
               str_or (take 80 (str_join space (_tokenize is_word is_space s))) remove
               = take 80 (str_join space (_tokenize is_word is_space s))) as Hor.
  { intros s Hs.
    assert (take 80 (str_join space (_tokenize is_word is_space s)) ≠ []) as Hne.
    { apply (join_nonempty is_word is_space); [|done]. apply findall_token. constructor. }
    by destruct (take 80 (str_join space (_tokenize is_word is_space s))). }
  by rewrite (proj1 (Hor _ Ht)), (proj2 (Hor _ Ha)).
Qed.

Lemma align_stub_nothing_in_common_witness :
  _align_stub ascii_word ascii_space ascii_lower (lit "Objection sustained.")
    (lit "no further questions")
  = Some [{| line := 1; column := 1;
             original := lit "objection sustained .";
             suggested := lit "no further questions";
             confidence := 0.75; type := audio_mismatch |}].
Proof.
  refine (align_stub_nothing_in_common ascii_word ascii_space ascii_lower
            (lit "Objection sustained.") (lit "no further questions") _ _ _).
  - vm_compute. discriminate.
  - vm_compute. discriminate.
  - apply Forall_forall. apply (bool_decide_unpack _). vm_compute. exact I.
Defined.

(** ** Lexical flags and the corrector *)

(** X11: the corrector changes a text exactly when the lexical pass flags
    it: [corrected text = text] holds if and only if
    [_grammar_spell_flags text] is empty. *)
Theorem corrected_changes_iff_flagged (text : list N) :
  corrected text = text ↔ _grammar_spell_flags text = [].
Proof.
  rewrite flags_nil_iff. split.
  - intros <-. split; [apply corrected_no_councelor | apply corrected_no_inadmissable].
  - intros [H1 H2]. by apply corrected_absent.
Qed.

(** X12: the corrector keeps the length of the text, and correcting a
    corrected text changes nothing. *)
Theorem corrected_idempotent_same_length (text : list N) :
  length (corrected text) = length text ∧
  corrected (corrected text) = corrected text.
Proof.
  split; [apply corrected_length|].
  apply corrected_absent; [apply corrected_no_councelor | apply corrected_no_inadmissable].
Qed.

(** ** The document *)

(** X13: [build_docx] hands [python-docx] at least one paragraph; no
    paragraph holds a blank line (two line feeds), and the paragraphs
    joined by blank lines are the corrected text: nothing is lost or
    added by the split. *)
Theorem build_docx_paragraphs (docx_save : list (list N) → option (list N))
    (corrected_text : list N) :
  ∃ paragraphs,
    str_split blank_line corrected_text = Some paragraphs ∧
    build_docx docx_save corrected_text = docx_save paragraphs ∧
    paragraphs ≠ [] ∧
    str_join blank_line paragraphs = corrected_text ∧
    Forall (λ p, str_contains blank_line p = false) paragraphs.
Proof.
  exists (split_scan blank_line 0 [] corrected_text).
  split; [done|]. split; [done|]. split; [apply split_scan_nonempty|]. split.
  - by rewrite split_scan_join.
  - apply split_scan_free; [done|]. intros u t Hu Ht. by destruct u, t.
Qed.

(** ** The report *)

(** X14: [align_analysis] returns, and its report has no discrepancy
    exactly when the lower-cased transcript and audio text have the same
    tokens and neither error form occurs in the transcript; this is also
    exactly when the confidence score is 0.95. *)
Theorem clean_report_iff (is_word is_space : N → bool) (lower : list N → list N)
    (transcript_text audio_text : list N) :
  ∃ an c, align_analysis is_word is_space lower transcript_text audio_text = Some (an, c) ∧
    (errors an = [] ↔
       _tokenize is_word is_space (lower transcript_text)
       = _tokenize is_word is_space (lower audio_text) ∧
       str_contains (lit "councelor") transcript_text = false ∧
       str_contains (lit "inadmissable") transcript_text = false) ∧
    (confidenceScore (summary an) = 0.95%float ↔ errors an = []).
Proof.
  destruct (align_stub_length is_word is_space lower transcript_text audio_text)
    as (errs & Hs & _ & _ & Hnil).
  destruct (align_analysis_ok is_word is_space lower transcript_text audio_text)
    as (errs' & Hs' & ->).
  rewrite Hs in Hs'. injection Hs' as <-.
  eexists _, _. split; [done|]. cbn [errors summary]. split.
  - rewrite <- Hnil, <- flags_nil_iff. split.
    + by intros [-> ->]%app_eq_nil.
    + by intros [-> ->].
  - by destruct (errs ++ _grammar_spell_flags transcript_text).
Qed.

(** X15: the report is small: the audio discrepancies are at most one more
    than the tokens of the shorter side, the lexical ones at most two, so
    [totalErrors] is at most that minimum plus three; [byType] counts them
    under the keys "audio_mismatch" and "spelling" and has no other key. *)
Theorem report_size_bound (is_word is_space : N → bool) (lower : list N → list N)
    (transcript_text audio_text : list N) :
  ∃ an c, align_analysis is_word is_space lower transcript_text audio_text = Some (an, c) ∧
    let n := length (_tokenize is_word is_space (lower transcript_text))
             `min` length (_tokenize is_word is_space (lower audio_text)) in
    default 0 (byType (summary an) !! audio_mismatch) ≤ n + 1 ∧
    default 0 (byType (summary an) !! spelling) ≤ 2 ∧
    totalErrors (summary an) ≤ n + 3 ∧
    (∀ k, is_Some (byType (summary an) !! k) → k = audio_mismatch ∨ k = spelling).
Proof.
  destruct (align_stub_length is_word is_space lower transcript_text audio_text)
    as (errs & Hs & Haudio & Hlen & _).
  destruct (align_analysis_ok is_word is_space lower transcript_text audio_text)
    as (errs' & Hs' & ->).
  rewrite Hs in Hs'. injection Hs' as <-.
  eexists _, _. split; [done|]. cbn [summary summarize byType totalErrors].
  pose proof (flags_all_spelling transcript_text) as Hsp.
  pose proof (flags_length transcript_text) as Hfl.
  split; [|split; [|split]].
  - rewrite (proj1 (lookup_count_foldl _ ∅ audio_mismatch)), lookup_empty.
    rewrite occurrences_app, occurrences_all by done.
    rewrite (occurrences_other _ spelling) by done. simpl. lia.
  - rewrite (proj1 (lookup_count_foldl _ ∅ spelling)), lookup_empty.
    rewrite occurrences_app, (occurrences_other _ audio_mismatch) by done.
    rewrite occurrences_all by done. simpl. lia.
  - rewrite length_app. lia.
  - intros k Hk. apply (proj2 (lookup_count_foldl _ ∅ k)) in Hk.
    rewrite lookup_empty in Hk. destruct Hk as [[? [=]]|(e & He & <-)].
    apply elem_of_app in He as [He|He].
    + left. by eapply Forall_forall in Haudio.
    + right. by eapply Forall_forall in Hsp.
Qed.

(** ** The request handler *)

Section Handler.
Variables is_word is_space : N → bool.
Variable lower : list N → list N.
Context {Upload : Type}.
Variable decode_ignore : Upload → list N.
Variable rtf_to_text : list N → option (list N).
Variable USE_WHISPER : bool.
Variable whisper_words : list N → Upload → option (list (list N)).
Variable docx_save : list (list N) → option (list N).

(** X16: the handler answers 400 exactly when there is no RTF upload and
    [plain_text] is absent or empty, and then with the message "No
    transcript provided (rtf_file or plain_text)."; a [plain_text] of
    white space only is not refused. *)
Theorem align_endpoint_bad_request (rtf_file : option Upload) (audio_file : Upload)
    (plain_text : option (list N)) (whisper_model_size msg : list N) :
  align_endpoint is_word is_space lower decode_ignore rtf_to_text USE_WHISPER
    whisper_words docx_save rtf_file audio_file plain_text whisper_model_size
  = Some (BadRequest msg)
  ↔ (rtf_file = None ∧ (plain_text = None ∨ plain_text = Some [])) ∧
    msg = lit "No transcript provided (rtf_file or plain_text).".
Proof.
  rewrite <- (load_transcript_None decode_ignore rtf_to_text).
  destruct (load_transcript decode_ignore rtf_to_text rtf_file plain_text)
    as [text|] eqn:Hload.
  - destruct (align_endpoint_ok is_word is_space lower decode_ignore rtf_to_text
                USE_WHISPER whisper_words docx_save rtf_file audio_file plain_text
                whisper_model_size text Hload) as (errs & _ & ->).
    split; [|by intros [? _]].
    destruct (utf8_encode _); [|done]. cbn [mbind option_bind].
    destruct (build_docx _ _); done.
  - unfold align_endpoint. rewrite Hload. split.
    + by intros [= <-].
    + by intros [_ ->].
Qed.

(** X17: with a transcript, the handler fails only when the corrected
    text holds a code point that UTF-8 cannot encode (a surrogate) or
    when writing the document fails; otherwise it answers 200 with the
    corrected transcript of the stripped text and the two file names.  It
    never answers 400 then and never runs out of its iteration budget. *)
Theorem align_endpoint_outcome (rtf_file : option Upload) (audio_file : Upload)
    (plain_text : option (list N)) (whisper_model_size text : list N) :
  load_transcript decode_ignore rtf_to_text rtf_file plain_text = Some text →
  let c := corrected (strip is_space text) in
  match align_endpoint is_word is_space lower decode_ignore rtf_to_text USE_WHISPER
          whisper_words docx_save rtf_file audio_file plain_text whisper_model_size with
  | Some (Ok body) =>
      correctedTranscript body = c ∧
      Forall (λ x, scalar_value x = true) c ∧
      is_Some (build_docx docx_save c) ∧
      filename_txt (downloads body) = lit "corrected_transcript.txt" ∧
      filename_docx (downloads body) = lit "corrected_transcript.docx"
  | Some (BadRequest _) => False
  | None =>
      (∃ x, x ∈ c ∧ scalar_value x = false) ∨ build_docx docx_save c = None
  end.
Proof.
  intros Hload c.
  destruct (align_endpoint_ok is_word is_space lower decode_ignore rtf_to_text
              USE_WHISPER whisper_words docx_save rtf_file audio_file plain_text
              whisper_model_size text Hload) as (errs & _ & ->).
  fold c. pose proof (utf8_encode_spec c) as Hc.
  destruct (utf8_encode c) as [txt_bytes|]; cbn [mbind option_bind]; [|by left].
  destruct Hc as (Hsc & _).
  destruct (build_docx docx_save c) as [docx_bytes|]; cbn [mbind option_bind];
    [|by right].
  cbn. repeat split; try done.
Qed.

(** X18: when [faster_whisper] is missing or the transcription raises
    (and [str.lower] keeps the empty text empty), a 200 response reports
    the whole transcript as one discrepancy, its tokens joined and cut at
    80 characters against "(remove)", followed by the lexical flags; a
    transcript without tokens gets the lexical flags only. *)
Theorem align_endpoint_without_audio (rtf_file : option Upload) (audio_file : Upload)
    (plain_text : option (list N)) (whisper_model_size text : list N)
    (body : Response) :
  USE_WHISPER = false ∨ whisper_words whisper_model_size audio_file = None →
  lower [] = [] →
  load_transcript decode_ignore rtf_to_text rtf_file plain_text = Some text →
  align_endpoint is_word is_space lower decode_ignore rtf_to_text USE_WHISPER
    whisper_words docx_save rtf_file audio_file plain_text whisper_model_size
  = Some (Ok body) →
  let tokens := _tokenize is_word is_space (lower (strip is_space text)) in
  errors (analysis body)
  = match tokens with
    | [] => []
    | _ :: _ =>
        [{| line := 1; column := 1;
            original := take 80 (str_join space tokens);
            suggested := remove;
            confidence := 0.75; type := audio_mismatch |}]
    end ++ _grammar_spell_flags (strip is_space text).
Proof.
  intros Hw Hnil Hload.
  destruct (align_endpoint_ok is_word is_space lower decode_ignore rtf_to_text
              USE_WHISPER whisper_words docx_save rtf_file audio_file plain_text
              whisper_model_size text Hload) as (errs & Hs & ->).
  assert (transcribe is_space USE_WHISPER whisper_words audio_file whisper_model_size
          = []) as Ha.
  { unfold transcribe. destruct Hw as [-> | ->]; [done|]. by destruct USE_WHISPER. }
  rewrite Ha, (align_stub_silent is_word is_space lower _ Hnil) in Hs.
  injection Hs as <-.
  destruct (utf8_encode _); [|done]. cbn [mbind option_bind].
  destruct (build_docx _ _); [|done]. cbn [mbind option_bind].
  by intros [= <-].
Qed.

(** X19: in a 200 response, the text download read back through base64
    and UTF-8 is the corrected transcript, and the document download is
    the base64 text of the bytes that [build_docx] returned, which reads
    back as these bytes. *)
Theorem downloads_round_trip (rtf_file : option Upload) (audio_file : Upload)
    (plain_text : option (list N)) (whisper_model_size : list N) (body : Response) :
  align_endpoint is_word is_space lower decode_ignore rtf_to_text USE_WHISPER
    whisper_words docx_save rtf_file audio_file plain_text whisper_model_size
  = Some (Ok body) →
  (b64decode (txt_base64 (downloads body)) ≫= utf8_decode)
  = Some (correctedTranscript body) ∧
  ∃ docx_bytes,
    build_docx docx_save (correctedTranscript body) = Some docx_bytes ∧
    docx_base64 (downloads body) = b64encode docx_bytes ∧
    (Forall (λ b, (b < 256)%N) docx_bytes →
     b64decode (docx_base64 (downloads body)) = Some docx_bytes).
Proof.
  destruct (load_transcript decode_ignore rtf_to_text rtf_file plain_text)
    as [text|] eqn:Hload.
  2: { unfold align_endpoint. by rewrite Hload. }
  destruct (align_endpoint_ok is_word is_space lower decode_ignore rtf_to_text
              USE_WHISPER whisper_words docx_save rtf_file audio_file plain_text
              whisper_model_size text Hload) as (errs & _ & ->).
  pose proof (utf8_encode_spec (corrected (strip is_space text))) as Hc.
  destruct (utf8_encode _) as [txt_bytes|]; [|done]. cbn [mbind option_bind].
  destruct Hc as (_ & Hb & _ & Hdec).
  destruct (build_docx _ _) as [docx_bytes|] eqn:Hdocx; [|done].
  cbn [mbind option_bind]. intros [= <-]. cbn. split.
  - by rewrite b64decode_b64encode.
  - exists docx_bytes. split; [done|]. split; [done|]. apply b64decode_b64encode.
Qed.
End Handler.

(** The handler as it runs on a machine without [faster_whisper], on the
    ASCII tables, for uploads that are decoded text and no RTF; the
    document is written as its paragraphs joined by blank lines. *)
Definition offline_endpoint
    : option (list N) → list N → option (list N) → list N → option Reply :=
  align_endpoint ascii_word ascii_space ascii_lower
    (λ raw : list N, raw) (λ _, None) false (λ _ _, None)
    (λ paragraphs, Some (str_join blank_line paragraphs)).

Lemma align_endpoint_outcome_witness :
  load_transcript (λ raw : list N, raw) (λ _, None) None
    (Some (lit " The councelor spoke. ")) = Some (lit " The councelor spoke. ") ∧
  match offline_endpoint None [] (Some (lit " The councelor spoke. ")) (lit "small") with
  | Some (Ok body) =>
      correctedTranscript body = lit "The counselor spoke." ∧
      Forall (λ x, scalar_value x = true) (lit "The counselor spoke.") ∧
      is_Some (build_docx (λ paragraphs, Some (str_join blank_line paragraphs))
                 (lit "The counselor spoke.")) ∧
      filename_txt (downloads body) = lit "corrected_transcript.txt" ∧
      filename_docx (downloads body) = lit "corrected_transcript.docx"
  | Some (BadRequest _) => False
  | None =>
      (∃ x, x ∈ lit "The counselor spoke." ∧ scalar_value x = false) ∨
      build_docx (λ paragraphs, Some (str_join blank_line paragraphs))
        (lit "The counselor spoke.") = None
  end.
Proof.
  split; [reflexivity|].
  exact (align_endpoint_outcome ascii_word ascii_space ascii_lower
           (λ raw : list N, raw) (λ _, None) false (λ _ _, None)
           (λ paragraphs, Some (str_join blank_line paragraphs))
           None [] (Some (lit " The councelor spoke. ")) (lit "small")
           (lit " The councelor spoke. ") eq_refl).
Defined.

Lemma align_endpoint_without_audio_witness :
  ∃ body,
    offline_endpoint None [] (Some (lit "The councelor spoke.")) (lit "small")
    = Some (Ok body) ∧
    errors (analysis body)
    = [{| line := 1; column := 1;
          original := lit "the councelor spoke ."; suggested := remove;
          confidence := 0.75; type := audio_mismatch |};
       {| line := 1; column := 1;
          original := lit "councelor"; suggested := lit "counselor";
          confidence := 0.95; type := spelling |}].
Proof.
  eexists. split; [vm_compute; reflexivity|].
  exact (align_endpoint_without_audio ascii_word ascii_space ascii_lower
           (λ raw : list N, raw) (λ _, None) false (λ _ _, None)
           (λ paragraphs, Some (str_join blank_line paragraphs))
           None [] (Some (lit "The councelor spoke.")) (lit "small")
           (lit "The councelor spoke.") _ (or_introl eq_refl) eq_refl eq_refl eq_refl).
Defined.

Lemma downloads_round_trip_witness :
  ∃ body,
    offline_endpoint None [] (Some (lit "The councelor spoke.")) (lit "small")
    = Some (Ok body) ∧
    txt_base64 (downloads body) = lit "VGhlIGNvdW5zZWxvciBzcG9rZS4=" ∧
    (b64decode (txt_base64 (downloads body)) ≫= utf8_decode)
    = Some (correctedTranscript body).
Proof.
  eexists. split; [vm_compute; reflexivity|]. split; [vm_compute; reflexivity|].
  exact (proj1 (downloads_round_trip ascii_word ascii_space ascii_lower
                  (λ raw : list N, raw) (λ _, None) false (λ _ _, None)
                  (λ paragraphs, Some (str_join blank_line paragraphs))
                  None [] (Some (lit "The councelor spoke.")) (lit "small") _ eq_refl)).
Defined.
